(** * Mutation prioritisation: scoring, coverage estimation and subsumption

    A shallow embedding of the core of the mutation-prioritisation tool:
    - [core/models.py]: the [Mutant] record and its satellites;
    - [core/scoring/multi_factor_scorer.py]: [MultiFactorScorer];
    - [core/subsumption/coverage_mapper.py]: [CoverageMapper];
    - [core/subsumption/analyzer.py]: [SubsumptionAnalyzer].

    Numbers.  Python [int]s are [Z].  Python [float]s are modelled by exact
    rationals ([Q], compared with [==]): every float is a rational, and the
    arithmetic on them is taken without rounding or overflow.  Dictionaries
    are [gmap]s, sets are [gset]s, lists are lists. *)

From Stdlib Require Import Ascii QArith Qminmax Lqa Sorted.
From stdpp Require Import gmap strings list pretty.

Local Open Scope Z_scope.

(** ** Data model ([core/models.py]) *)

Inductive MutationOperator : Set :=
  | ARITHMETIC_REPLACEMENT
  | BOUNDARY_CONDITION
  | CONDITIONAL_REPLACEMENT
  | NEGATE_CONDITIONAL
  | RETURN_VALUE_REPLACEMENT
  | REMOVE_CONDITIONAL
  | VOID_METHOD_CALL
  | INCREMENT_DECREMENT
  | LOGICAL_OPERATOR
  | FRAMEWORK_SPECIFIC.

#[global] Instance MutationOperator_eq_dec : EqDecision MutationOperator.
Proof. solve_decision. Defined.

(** [MutationOperator.value] *)
Definition operator_value (op : MutationOperator) : string :=
  match op with
  | ARITHMETIC_REPLACEMENT => "ARITHMETIC"
  | BOUNDARY_CONDITION => "BOUNDARY"
  | CONDITIONAL_REPLACEMENT => "CONDITIONAL"
  | NEGATE_CONDITIONAL => "NEGATE"
  | RETURN_VALUE_REPLACEMENT => "RETURN"
  | REMOVE_CONDITIONAL => "REMOVE_COND"
  | VOID_METHOD_CALL => "VOID_CALL"
  | INCREMENT_DECREMENT => "INCREMENT"
  | LOGICAL_OPERATOR => "LOGICAL"
  | FRAMEWORK_SPECIFIC => "OTHER"
  end.

Inductive MutantStatus : Set :=
  | PENDING | RUNNING | KILLED | SURVIVED | TIMEOUT | ERROR.

Record CodeLocation : Set := mkCodeLocation {
  file_path : string;
  line_start : Z;
  line_end : Z;
  column_start : Z;
  column_end : Z
}.

Record CodeMetrics : Set := mkCodeMetrics {
  cyclomatic_complexity : Z;
  cognitive_complexity : Z;
  nesting_depth : Z;
  lines_of_code : Z;
  number_of_parameters : Z;
  is_public_api : bool;
  is_security_critical : bool;
  last_modified_days_ago : Z
}.

(** [CodeMetrics()] with every field at its default. *)
Definition default_CodeMetrics : CodeMetrics :=
  mkCodeMetrics 0 0 0 0 0 false false 999.

Record HistoricalData : Set := mkHistoricalData {
  hd_operator : MutationOperator;
  times_generated : Z;
  times_killed : Z;
  times_survived : Z;
  average_detection_time : Q
}.

(** The [kill_rate] property of [HistoricalData]. *)
Definition kill_rate (h : HistoricalData) : Q :=
  let total := times_killed h + times_survived h in
  if decide (total = 0) then 0.5%Q
  else (inject_Z (times_killed h) / inject_Z total)%Q.

Record Mutant : Set := mkMutant {
  id : string;
  framework_id : string;
  location : CodeLocation;
  operator : MutationOperator;
  original_code : string;
  mutated_code : string;
  description : string;
  status : MutantStatus;
  execution_time : Q;
  killing_tests : list string;
  error_message : option string;
  code_metrics : option CodeMetrics;
  historical_data : option HistoricalData;
  priority_score : Q;
  estimated_execution_time : Q
}.

(** Attribute assignments [mutant.code_metrics = ...],
    [mutant.historical_data = ...] and [mutant.priority_score = ...]. *)
Definition set_code_metrics (cm : CodeMetrics) (m : Mutant) : Mutant :=
  mkMutant (id m) (framework_id m) (location m) (operator m)
    (original_code m) (mutated_code m) (description m) (status m)
    (execution_time m) (killing_tests m) (error_message m)
    (Some cm) (historical_data m) (priority_score m)
    (estimated_execution_time m).

Definition set_historical_data (h : HistoricalData) (m : Mutant) : Mutant :=
  mkMutant (id m) (framework_id m) (location m) (operator m)
    (original_code m) (mutated_code m) (description m) (status m)
    (execution_time m) (killing_tests m) (error_message m)
    (code_metrics m) (Some h) (priority_score m)
    (estimated_execution_time m).

Definition set_priority_score (s : Q) (m : Mutant) : Mutant :=
  mkMutant (id m) (framework_id m) (location m) (operator m)
    (original_code m) (mutated_code m) (description m) (status m)
    (execution_time m) (killing_tests m) (error_message m)
    (code_metrics m) (historical_data m) s
    (estimated_execution_time m).

(** A mutant as the dataclass builds it from its six mandatory arguments. *)
Definition new_Mutant (i fw : string) (loc : CodeLocation)
    (op : MutationOperator) (orig mut : string) : Mutant :=
  mkMutant i fw loc op orig mut EmptyString PENDING 0%Q [] None None None 0%Q 3%Q.

(** Python's [a / b] on two [int]s: [ZeroDivisionError] is [None]. *)
Definition truediv (a b : Z) : option Q :=
  if decide (b = 0) then None else Some (inject_Z a / inject_Z b)%Q.

(** ** Coverage estimation ([core/subsumption/coverage_mapper.py]) *)

(** [s.replace(old, new)] for one-character [old] and [new]. *)
Fixpoint replace_char (old new : ascii) (s : string) : string :=
  match s with
  | EmptyString => EmptyString
  | String c s' =>
      String (if decide (c = old) then new else c) (replace_char old new s')
  end.

(** The f-string [f"{file_path}:{line_start}"], used both as cache key and
    as the text that is hashed. *)
Definition location_str (m : Mutant) : string :=
  file_path (location m) +:+ ":" +:+ pretty (line_start (location m)).

(** [f"test_{path.replace('/', '_').replace('.', '_')}_{test_hash}"] *)
Definition test_name (path : string) (test_hash : Z) : string :=
  "test_" +:+ replace_char "." "_" (replace_char "/" "_" path)
          +:+ "_" +:+ pretty test_hash.

Section CoverageMapper.

(** [int(hashlib.md5(s.encode()).hexdigest(), 16)]: the digest of the
    standard library, read as an integer. *)
Variable md5_int : string -> Z.

Definition _generate_test_set (m : Mutant) : gset string :=
  let hash_value := md5_int (location_str m) in
  let num_tests := 3 + hash_value `mod` 6 in
  foldl (fun test_names i =>
           let test_hash := (hash_value + i) `mod` 1000 in
           {[ test_name (file_path (location m)) test_hash ]} ∪ test_names)
        ∅ (seqZ 0 num_tests).

(** The method reads and writes [self._cache]: the cache is passed in and
    the (possibly extended) cache is returned with the result. *)
Definition _estimate_coverage (cache : gmap string (gset string))
    (m : Mutant) : gset string * gmap string (gset string) :=
  let cache_key := location_str m in
  match cache !! cache_key with
  | Some tests => (tests, cache)
  | None =>
      let test_set := _generate_test_set m in
      (test_set, <[cache_key := test_set]> cache)
  end.

(** Returns [coverage_map] and the cache after the loop. *)
Definition map_mutant_coverage (cache : gmap string (gset string))
    (mutants : list Mutant)
    : gmap string (gset string) * gmap string (gset string) :=
  foldl (fun '(coverage_map, cache) m =>
           let '(tests, cache') := _estimate_coverage cache m in
           (<[id m := tests]> coverage_map, cache'))
        (∅, cache) mutants.

End CoverageMapper.

(** [self._cache.update(coverage_data)]: the loaded entries win. *)
Definition load_actual_coverage (cache coverage_data : gmap string (gset string))
    : gmap string (gset string) :=
  coverage_data ∪ cache.

(** [not s] on a Python set. *)
Definition is_empty (s : gset string) : bool := bool_decide (s = ∅).

Definition compute_similarity (tests1 tests2 : gset string) : Q :=
  if is_empty tests1 && is_empty tests2 then 1%Q
  else if is_empty tests1 || is_empty tests2 then 0%Q
  else
    let intersection := Z.of_nat (size (tests1 ∩ tests2)) in
    let union := Z.of_nat (size (tests1 ∪ tests2)) in
    if 0 <? union then (inject_Z intersection / inject_Z union)%Q else 0%Q.

(** ** Sorting

    [list.sort(key=...)] is stable.  [stable_sort before l] sorts [l] so that
    [x] ends up in front of [y] whenever [before x y]; elements that are not
    ordered by [before] keep their input order.  A stable sort has one
    possible output, so insertion stands for the library's algorithm. *)

Fixpoint insert_by {A} (before : A -> A -> bool) (x : A) (l : list A) : list A :=
  match l with
  | [] => [x]
  | y :: l' => if before y x then y :: insert_by before x l' else x :: y :: l'
  end.

Definition stable_sort {A} (before : A -> A -> bool) (l : list A) : list A :=
  foldr (insert_by before) [] l.

(** ** Subsumption analysis ([core/subsumption/analyzer.py]) *)

Record Stats : Set := mkStats {
  total_input : Z;
  exact_duplicates : Z;
  coverage_subsumed : Z;
  operator_subsumed : Z;
  location_clustered : Z;
  total_output : Z
}.

(** [self.stats['operator_subsumed'] += 1] and
    [self.stats['coverage_subsumed'] += 1]. *)
Definition bump_operator_subsumed (s : Stats) : Stats :=
  mkStats (total_input s) (exact_duplicates s) (coverage_subsumed s)
    (operator_subsumed s + 1) (location_clustered s) (total_output s).

Definition bump_coverage_subsumed (s : Stats) : Stats :=
  mkStats (total_input s) (exact_duplicates s) (coverage_subsumed s + 1)
    (operator_subsumed s) (location_clustered s) (total_output s).

(** The analyzer object: the cache of its coverage mapper, the configured
    threshold and the counters. *)
Record SubsumptionAnalyzer : Type := mkSubsumptionAnalyzer {
  coverage_cache : gmap string (gset string);
  similarity_threshold : Q;
  stats : Stats
}.

(** [SubsumptionAnalyzer(coverage_mapper, similarity_threshold)]; the
    keyword default of the threshold is [0.90]. *)
Definition default_similarity_threshold : Q := 0.90%Q.

Definition new_SubsumptionAnalyzer (cache : gmap string (gset string))
    (threshold : Q) : SubsumptionAnalyzer :=
  mkSubsumptionAnalyzer cache threshold (mkStats 0 0 0 0 0 0).

(** The dictionary [get_statistics] returns: the six counters and
    ['reduction_percent']. *)
Record Statistics : Set := mkStatistics {
  counters : Stats;
  reduction_percent : Q
}.

(** The conditional expression is lazy: the quotient is evaluated only in
    the branch [total_input > 0]. *)
Definition get_statistics (self : SubsumptionAnalyzer) : option Statistics :=
  if 0 <? total_input (stats self) then
    q ← truediv (total_output (stats self)) (total_input (stats self));
    Some (mkStatistics (stats self) ((1 - q) * 100)%Q)
  else Some (mkStatistics (stats self) 0%Q).

(** [OPERATOR_SUBSUMPTIONS.get(op, set())] *)
Definition OPERATOR_SUBSUMPTIONS (op : MutationOperator) : list MutationOperator :=
  match op with
  | ARITHMETIC_REPLACEMENT => [INCREMENT_DECREMENT]
  | BOUNDARY_CONDITION => [NEGATE_CONDITIONAL]
  | RETURN_VALUE_REPLACEMENT => [VOID_METHOD_CALL]
  | _ => []
  end.

Definition _are_operators_related (op1 op2 : MutationOperator) : bool :=
  if decide (op1 = op2) then true
  else if bool_decide (op2 ∈ OPERATOR_SUBSUMPTIONS op1) then true
  else if bool_decide (op1 ∈ OPERATOR_SUBSUMPTIONS op2) then true
  else
    let arithmetic_ops := [ARITHMETIC_REPLACEMENT; INCREMENT_DECREMENT] in
    if bool_decide (op1 ∈ arithmetic_ops) && bool_decide (op2 ∈ arithmetic_ops)
    then true
    else
      let conditional_ops :=
        [CONDITIONAL_REPLACEMENT; NEGATE_CONDITIONAL;
         REMOVE_CONDITIONAL; BOUNDARY_CONDITION] in
      if bool_decide (op1 ∈ conditional_ops) && bool_decide (op2 ∈ conditional_ops)
      then true
      else false.

(** [groups[key].append(m)] on a [defaultdict(list)]; a dictionary keeps
    its keys in insertion order. *)
Fixpoint group_append {K} `{EqDecision K} (key : K) (m : Mutant)
    (groups : list (K * list Mutant)) : list (K * list Mutant) :=
  match groups with
  | [] => [(key, [m])]
  | (k, g) :: groups' =>
      if decide (k = key) then (k, g ++ [m]) :: groups'
      else (k, g) :: group_append key m groups'
  end.

(** *** Stage one: exact duplicates *)

Definition bump_exact_duplicates (s : Stats) : Stats :=
  mkStats (total_input s) (exact_duplicates s + 1) (coverage_subsumed s)
    (operator_subsumed s) (location_clustered s) (total_output s).

Definition with_stats (self : SubsumptionAnalyzer) (s : Stats)
    : SubsumptionAnalyzer :=
  mkSubsumptionAnalyzer (coverage_cache self) (similarity_threshold self) s.

(** The hash key of [_remove_exact_duplicates]. *)
Definition duplicate_key (m : Mutant)
    : string * Z * Z * string * string * string :=
  (file_path (location m), line_start (location m),
   column_start (location m), operator_value (operator m),
   original_code m, mutated_code m).

Definition _remove_exact_duplicates (self : SubsumptionAnalyzer)
    (mutants : list Mutant) : list Mutant * SubsumptionAnalyzer :=
  let '(seen, unique, st) :=
    foldl (fun '(seen, unique, st) m =>
             let key := duplicate_key m in
             if decide (key ∉ (seen : gset _))
             then ({[key]} ∪ seen, unique ++ [m], st)
             else (seen, unique, bump_exact_duplicates st))
          (∅, [], stats self) mutants in
  (unique, with_stats self st).

(** *** Stage two: clustering by location *)

Definition add_location_clustered (n : Z) (s : Stats) : Stats :=
  mkStats (total_input s) (exact_duplicates s) (coverage_subsumed s)
    (operator_subsumed s) (location_clustered s + n) (total_output s).

Definition location_key (m : Mutant) : string * Z * Z :=
  (file_path (location m), line_start (location m), column_start (location m)).

(** [max(group, key=lambda m: m.priority_score)]: the first mutant of the
    group with the highest score.  A group is never empty. *)
Definition max_by_score (first : Mutant) (others : list Mutant) : Mutant :=
  foldl (fun best m =>
           if Qle_bool (priority_score m) (priority_score best)
           then best else m)
        first others.

Definition _cluster_by_location (self : SubsumptionAnalyzer)
    (mutants : list Mutant) : list Mutant * SubsumptionAnalyzer :=
  let location_groups :=
    foldl (fun groups m => group_append (location_key m) m groups) [] mutants in
  let '(selected, st) :=
    foldl (fun '(selected, st) '(_, group) =>
             match group with
             | [] => (selected, st)
             | [m] => (selected ++ [m], st)
             | m :: others =>
                 (selected ++ [max_by_score m others],
                  add_location_clustered (Z.of_nat (length group) - 1) st)
             end)
          ([], stats self) location_groups in
  (selected, with_stats self st).

(** *** Stage three: operator-level subsumption *)

Definition group_by_file (mutants : list Mutant) : list (string * list Mutant) :=
  foldl (fun groups m => group_append (file_path (location m)) m groups)
        [] mutants.

(** Order of [file_mutants.sort(key=lambda m: m.location.line_start)]. *)
Definition line_before (m m' : Mutant) : bool :=
  line_start (location m) <? line_start (location m').

(** The inner loop over [file_mutants[i + 1:]]; [break] returns the state. *)
Fixpoint scan_window (m1 : Mutant) (subsumed_ops : list MutationOperator)
    (later : list Mutant) (st : gset string * Stats) : gset string * Stats :=
  match later with
  | [] => st
  | m2 :: later' =>
      if decide (id m2 ∈ st.1) then scan_window m1 subsumed_ops later' st
      else if 5 <? Z.abs (line_start (location m2) - line_start (location m1))
      then st
      else if bool_decide (operator m2 ∈ subsumed_ops)
      then scan_window m1 subsumed_ops later'
             ({[id m2]} ∪ st.1, bump_operator_subsumed st.2)
      else scan_window m1 subsumed_ops later' st
  end.

(** The loop [for i, m1 in enumerate(file_mutants)]. *)
Fixpoint scan_file (file_mutants : list Mutant) (st : gset string * Stats)
    : gset string * Stats :=
  match file_mutants with
  | [] => st
  | m1 :: later =>
      let subsumed_ops := OPERATOR_SUBSUMPTIONS (operator m1) in
      if bool_decide (subsumed_ops = []) then scan_file later st
      else scan_file later (scan_window m1 subsumed_ops later st)
  end.

Definition _apply_operator_subsumption (self : SubsumptionAnalyzer)
    (mutants : list Mutant) : list Mutant * SubsumptionAnalyzer :=
  let file_groups := group_by_file mutants in
  let st :=
    foldl (fun st '(_, file_mutants) =>
             scan_file (stable_sort line_before file_mutants) st)
          (∅, stats self) file_groups in
  (filter (fun m => id m ∉ st.1) mutants,
   mkSubsumptionAnalyzer (coverage_cache self) (similarity_threshold self) st.2).

(** *** Stage four: coverage-based subsumption *)

(** [coverage_map.get(i, set())] *)
Definition coverage_get (coverage_map : gmap string (gset string))
    (i : string) : gset string :=
  default ∅ (coverage_map !! i).

(** [len(c1.intersection(c2)) / len(c1.union(c2))]; the guard
    [len(c2) > 0] in front of it keeps the divisor positive. *)
Definition jaccard (c1 c2 : gset string) : Q :=
  (inject_Z (Z.of_nat (size (c1 ∩ c2))) / inject_Z (Z.of_nat (size (c1 ∪ c2))))%Q.

(** The inner loop over [mutants[i + 1:]]. *)
Fixpoint compare_later (threshold : Q) (coverage_map : gmap string (gset string))
    (m1 : Mutant) (c1 : gset string) (later : list Mutant)
    (st : gset string * Stats) : gset string * Stats :=
  match later with
  | [] => st
  | m2 :: later' =>
      if decide (id m2 ∈ st.1)
      then compare_later threshold coverage_map m1 c1 later' st
      else if negb (_are_operators_related (operator m1) (operator m2))
      then compare_later threshold coverage_map m1 c1 later' st
      else
        let c2 := coverage_get coverage_map (id m2) in
        if bool_decide (c2 ⊆ c1) && bool_decide (0 < size c2)%nat then
          let similarity := jaccard c1 c2 in
          if Qle_bool threshold similarity
          then compare_later threshold coverage_map m1 c1 later'
                 ({[id m2]} ∪ st.1, bump_coverage_subsumed st.2)
          else compare_later threshold coverage_map m1 c1 later' st
        else compare_later threshold coverage_map m1 c1 later' st
  end.

(** The loop [for i, m1 in enumerate(mutants)]. *)
Fixpoint compare_pairs (threshold : Q) (coverage_map : gmap string (gset string))
    (mutants : list Mutant) (st : gset string * Stats) : gset string * Stats :=
  match mutants with
  | [] => st
  | m1 :: later =>
      if decide (id m1 ∈ st.1)
      then compare_pairs threshold coverage_map later st
      else
        let c1 := coverage_get coverage_map (id m1) in
        compare_pairs threshold coverage_map later
          (compare_later threshold coverage_map m1 c1 later st)
  end.

Section CoverageSubsumption.

Variable md5_int : string -> Z.

Definition _apply_coverage_subsumption (self : SubsumptionAnalyzer)
    (mutants : list Mutant) : list Mutant * SubsumptionAnalyzer :=
  let '(coverage_map, cache') :=
    map_mutant_coverage md5_int (coverage_cache self) mutants in
  let st :=
    compare_pairs (similarity_threshold self) coverage_map mutants
      (∅, stats self) in
  (filter (fun m => id m ∉ st.1) mutants,
   mkSubsumptionAnalyzer cache' (similarity_threshold self) st.2).

(** [self.stats['total_input'] = ...] and [self.stats['total_output'] = ...] *)
Definition with_total_input (n : Z) (self : SubsumptionAnalyzer)
    : SubsumptionAnalyzer :=
  with_stats self
    (mkStats n (exact_duplicates (stats self)) (coverage_subsumed (stats self))
       (operator_subsumed (stats self)) (location_clustered (stats self))
       (total_output (stats self))).

Definition with_total_output (n : Z) (self : SubsumptionAnalyzer)
    : SubsumptionAnalyzer :=
  with_stats self
    (mkStats (total_input (stats self)) (exact_duplicates (stats self))
       (coverage_subsumed (stats self)) (operator_subsumed (stats self))
       (location_clustered (stats self)) n).

(** [filter_redundant] sets the two totals around the four stages; the
    percentage it prints at the end divides by [len(mutants)]. *)
Definition filter_redundant (self : SubsumptionAnalyzer)
    (mutants : list Mutant) : option (list Mutant * SubsumptionAnalyzer) :=
  let self0 := with_total_input (Z.of_nat (length mutants)) self in
  let '(unique, self1) := _remove_exact_duplicates self0 mutants in
  let '(clustered, self2) := _cluster_by_location self1 unique in
  let '(after_operator, self3) := _apply_operator_subsumption self2 clustered in
  let '(final, self4) := _apply_coverage_subsumption self3 after_operator in
  let self5 := with_total_output (Z.of_nat (length final)) self4 in
  _ ← truediv (Z.of_nat (length final)) (Z.of_nat (length mutants));
  Some (final, self5).

End CoverageSubsumption.

(** ** Multi-factor scoring ([core/scoring/multi_factor_scorer.py]) *)

Module MultiFactorScorer.

(** The dictionaries keyed by the five factor names, in their insertion
    order ['historical'], ['complexity'], ['security'], ['recency'],
    ['bug_history']. *)
Record Factors : Set := mkFactors {
  historical : Q;
  complexity : Q;
  security : Q;
  recency : Q;
  bug_history : Q
}.

Definition WEIGHTS : Factors :=
  mkFactors 0.30 0.25 0.20 0.15 0.10.

(** The keys themselves, and the lookup [factors[name]]. *)
Inductive FactorName : Set :=
  Historical | Complexity | Security | Recency | BugHistory.

Definition factor_value (name : FactorName) (factors : Factors) : Q :=
  match name with
  | Historical => historical factors
  | Complexity => complexity factors
  | Security => security factors
  | Recency => recency factors
  | BugHistory => bug_history factors
  end.

(** [HistoryTracker.get_operator_history] over the tracker's [data]. *)
Definition get_operator_history (data : gmap string HistoricalData)
    (op : MutationOperator) : HistoricalData :=
  match data !! operator_value op with
  | Some h => h
  | None => mkHistoricalData op 10 5 5 3
  end.

(** [HistoryTracker._initialize_defaults] *)
Definition default_history : gmap string HistoricalData :=
  list_to_map
    ((fun '(op, gen, kill, surv) =>
        (operator_value op, mkHistoricalData op gen kill surv 3)) <$>
     [ (ARITHMETIC_REPLACEMENT, 100, 75, 25);
       (BOUNDARY_CONDITION, 100, 85, 15);
       (CONDITIONAL_REPLACEMENT, 100, 70, 30);
       (NEGATE_CONDITIONAL, 100, 80, 20);
       (RETURN_VALUE_REPLACEMENT, 100, 65, 35);
       (REMOVE_CONDITIONAL, 100, 60, 40);
       (INCREMENT_DECREMENT, 100, 72, 28);
       (LOGICAL_OPERATOR, 100, 78, 22);
       (VOID_METHOD_CALL, 100, 45, 55) ]).

(** [CodeAnalyzer.get_historical_bug_count] over the analyzer's
    [_bug_history]. *)
Definition get_historical_bug_count (bugs : gmap string Z) (path : string) : Z :=
  default 0 (bugs !! path).

Definition _historical_factor (m : Mutant) : Q :=
  match historical_data m with
  | None => 0.5
  | Some h => kill_rate h
  end.

Definition _complexity_factor (m : Mutant) : Q :=
  match code_metrics m with
  | None => 0.5
  | Some metrics =>
      (0.4 * Qmin (inject_Z (cyclomatic_complexity metrics) / 20) 1 +
       0.3 * Qmin (inject_Z (cognitive_complexity metrics) / 30) 1 +
       0.2 * Qmin (inject_Z (nesting_depth metrics) / 5) 1 +
       0.1 * Qmin (inject_Z (number_of_parameters metrics) / 8) 1)%Q
  end.

Definition _security_factor (m : Mutant) : Q :=
  match code_metrics m with
  | None => 0
  | Some metrics =>
      if is_security_critical metrics then 1
      else if is_public_api metrics then 0.3
      else 0
  end.

(** [min(values)] and [max(values)]: [ValueError] on the empty list. *)
Definition list_min (values : list Q) : option Q :=
  match values with
  | [] => None
  | v :: values' => Some (foldl Qmin v values')
  end.

Definition list_max (values : list Q) : option Q :=
  match values with
  | [] => None
  | v :: values' => Some (foldl Qmax v values')
  end.

(** One round of the loop [for factor_name, values in raw_factors.items()]. *)
Definition normalize_values (values : list Q) : option (list Q) :=
  min_val ← list_min values;
  max_val ← list_max values;
  if Qeq_bool (max_val - min_val) 0
  then Some (replicate (length values) 0.5%Q)
  else Some ((fun v => (v - min_val) / (max_val - min_val))%Q <$> values).

(** The loop [for i, mutant in enumerate(mutants)]: the five normalized
    lists have the length of [mutants] and are walked along with it, the
    heads being the entries at index [i]. *)
Fixpoint build_result (mutants : list Mutant) (nh nc ns nr nb : list Q)
    (result : gmap string Factors) : gmap string Factors :=
  match mutants, nh, nc, ns, nr, nb with
  | m :: mutants', h :: nh', c :: nc', s :: ns', r :: nr', b :: nb' =>
      build_result mutants' nh' nc' ns' nr' nb'
        (<[id m := mkFactors h c s r b]> result)
  | _, _, _, _, _, _ => result
  end.

(** [sum(self.WEIGHTS[f] * factors[f] for f in factors.keys())]: the sum
    starts from [0] and adds the products in key order. *)
Definition weighted (factors : Factors) : Q :=
  (0 + historical WEIGHTS * historical factors
     + complexity WEIGHTS * complexity factors
     + security WEIGHTS * security factors
     + recency WEIGHTS * recency factors
     + bug_history WEIGHTS * bug_history factors)%Q.

Definition _calculate_weighted_score (m : Mutant)
    (normalized : gmap string Factors) : option Q :=
  factors ← normalized !! id m;
  Some (weighted factors * 10)%Q.

Definition _weighted_sum (factors : Factors) : Q := (weighted factors * 10)%Q.

(** Order of [mutants.sort(key=lambda m: m.priority_score, reverse=True)]:
    [m] goes in front of [m'] when its score is strictly higher; equal
    scores keep their order, as a reversed stable sort does. *)
Definition score_before (m m' : Mutant) : bool :=
  negb (Qle_bool (priority_score m) (priority_score m')).

Section Collaborators.

(** [math.exp] of the standard library. *)
Variable math_exp : Q -> Q.
(** [self.code_analyzer.analyze_file]: it reads the file system. *)
Variable analyze_file : string -> CodeMetrics.
(** The [data] of [self.history_tracker] and the [_bug_history] of
    [self.code_analyzer]; scoring reads them and never writes them. *)
Variable history : gmap string HistoricalData.
Variable bugs : gmap string Z.

Definition _recency_factor (m : Mutant) : Q :=
  match code_metrics m with
  | None => 0
  | Some metrics =>
      let days := last_modified_days_ago metrics in
      math_exp (- inject_Z days / 10)
  end.

Definition _bug_history_factor (m : Mutant) : Q :=
  let bug_count := get_historical_bug_count bugs (file_path (location m)) in
  Qmin (inject_Z bug_count / 10) 1.

(** The body of the loop of [_precompute_metrics], on [self._metrics_cache]. *)
Definition attach_metrics (cache : gmap string CodeMetrics) (m : Mutant)
    : Mutant * gmap string CodeMetrics :=
  let path := file_path (location m) in
  let '(metrics, cache') :=
    match cache !! path with
    | Some metrics => (metrics, cache)
    | None =>
        let file_metrics := analyze_file path in
        (file_metrics, <[path := file_metrics]> cache)
    end in
  (set_historical_data (get_operator_history history (operator m))
     (set_code_metrics metrics m),
   cache').

Fixpoint _precompute_metrics (cache : gmap string CodeMetrics)
    (mutants : list Mutant) : list Mutant * gmap string CodeMetrics :=
  match mutants with
  | [] => ([], cache)
  | m :: mutants' =>
      let '(m', cache') := attach_metrics cache m in
      let '(rest, cache'') := _precompute_metrics cache' mutants' in
      (m' :: rest, cache'')
  end.

Definition _compute_factors_single (m : Mutant) : Factors :=
  mkFactors (_historical_factor m) (_complexity_factor m)
    (_security_factor m) (_recency_factor m) (_bug_history_factor m).

(** The entry of [raw_factors[name]] that belongs to [m]. *)
Definition raw_factor (name : FactorName) (m : Mutant) : Q :=
  factor_value name (_compute_factors_single m).

Definition _compute_normalized_factors (mutants : list Mutant)
    : option (gmap string Factors) :=
  nh ← normalize_values (_historical_factor <$> mutants);
  nc ← normalize_values (_complexity_factor <$> mutants);
  ns ← normalize_values (_security_factor <$> mutants);
  nr ← normalize_values (_recency_factor <$> mutants);
  nb ← normalize_values (_bug_history_factor <$> mutants);
  Some (build_result mutants nh nc ns nr nb ∅).

(** [score_all]: the scored and sorted list, with the metrics cache. *)
Definition score_all (cache : gmap string CodeMetrics) (mutants : list Mutant)
    : option (list Mutant * gmap string CodeMetrics) :=
  let '(mutants1, cache') := _precompute_metrics cache mutants in
  normalized_factors ← _compute_normalized_factors mutants1;
  mutants2 ← mapM (fun m =>
                     s ← _calculate_weighted_score m normalized_factors;
                     Some (set_priority_score s m)) mutants1;
  Some (stable_sort score_before mutants2, cache').

(** [score_single]; [context] is [[]] for [None]. *)
Definition score_single (cache : gmap string CodeMetrics) (mutant : Mutant)
    (context : list Mutant) : option (Q * gmap string CodeMetrics) :=
  match context with
  | _ :: _ =>
      '(scored, cache') ← score_all cache (mutant :: context);
      first ← head scored;
      Some (priority_score first, cache')
  | [] =>
      let '(mutants1, cache') := _precompute_metrics cache [mutant] in
      mutant1 ← head mutants1;
      let factors := _compute_factors_single mutant1 in
      Some (_weighted_sum factors, cache')
  end.

End Collaborators.

End MultiFactorScorer.

Import MultiFactorScorer.

(** ** Clustering ([core/subsumption/mutant_clusterer.py]) *)

Record MutantClusterer : Set := mkMutantClusterer {
  proximity_threshold : Z
}.

Definition default_proximity_threshold : Z := 10.

(** [f"cluster_{cluster_id}"] *)
Definition cluster_name (cluster_id : Z) : string :=
  "cluster_" +:+ pretty cluster_id.

(** [d[key] = v] on a dictionary, which keeps its keys in insertion
    order. *)
Fixpoint dict_set {V} (key : string) (v : V) (d : list (string * V))
    : list (string * V) :=
  match d with
  | [] => [(key, v)]
  | (k, v0) :: d' =>
      if decide (k = key) then (k, v) :: d' else (k, v0) :: dict_set key v d'
  end.

(** [if current_cluster: clusters[f"cluster_{cluster_id}"] = current_cluster;
    cluster_id += 1], on the pair of [clusters] and [cluster_id]. *)
Definition flush_cluster (current_cluster : list Mutant)
    (st : list (string * list Mutant) * Z) : list (string * list Mutant) * Z :=
  match current_cluster with
  | [] => st
  | _ :: _ => (dict_set (cluster_name st.2) current_cluster st.1, st.2 + 1)
  end.

(** The loop over the sorted mutants of one file, with [current_cluster]
    and [last_line]. *)
Fixpoint proximity_loop (threshold : Z) (file_mutants : list Mutant)
    (st : list (string * list Mutant) * Z) (current_cluster : list Mutant)
    (last_line : Z) : list (string * list Mutant) * Z * list Mutant :=
  match file_mutants with
  | [] => (st, current_cluster)
  | mutant :: rest =>
      let line := line_start (location mutant) in
      if threshold <? line - last_line
      then proximity_loop threshold rest (flush_cluster current_cluster st)
             [mutant] line
      else proximity_loop threshold rest st (current_cluster ++ [mutant]) line
  end.

(** One round of the loop over [file_groups.items()]. *)
Definition cluster_file (threshold : Z) (st : list (string * list Mutant) * Z)
    (file_mutants : list Mutant) : list (string * list Mutant) * Z :=
  let '(st', current_cluster) :=
    proximity_loop threshold (stable_sort line_before file_mutants) st
      [] (-999) in
  flush_cluster current_cluster st'.

Definition cluster (self : MutantClusterer) (mutants : list Mutant)
    : list (string * list Mutant) :=
  (foldl (fun st '(_, file_mutants) =>
            cluster_file (proximity_threshold self) st file_mutants)
         ([], 0) (group_by_file mutants)).1.

(** [select_representatives]: empty clusters are skipped. *)
Definition select_representatives (clusters : list (string * list Mutant))
    : list Mutant :=
  foldl (fun representatives '(_, cluster_mutants) =>
           match cluster_mutants with
           | [] => representatives
           | m :: others => representatives ++ [max_by_score m others]
           end)
        [] clusters.

(** ** Recording results ([core/scoring/history_tracker.py]) *)

#[global] Instance MutantStatus_eq_dec : EqDecision MutantStatus.
Proof. solve_decision. Defined.

(** The entry [update] creates for an operator it has no data for. *)
Definition empty_history (op : MutationOperator) : HistoricalData :=
  mkHistoricalData op 0 0 0 0.

(** One round of the loop of [HistoryTracker.update] on [self.data].  The
    division by [hist.times_killed] raises [ZeroDivisionError] when the
    counter, just incremented, is zero. *)
Definition update_one (data : gmap string HistoricalData) (mutant : Mutant)
    : option (gmap string HistoricalData) :=
  let op_key := operator_value (operator mutant) in
  let hist := default (empty_history (operator mutant)) (data !! op_key) in
  let generated := times_generated hist + 1 in
  match status mutant with
  | KILLED =>
      let killed := times_killed hist + 1 in
      let total_time :=
        (average_detection_time hist * inject_Z (killed - 1))%Q in
      if decide (killed = 0) then None
      else Some (<[op_key :=
                   mkHistoricalData (hd_operator hist) generated killed
                     (times_survived hist)
                     ((total_time + execution_time mutant) / inject_Z killed)]>
                 data)
  | SURVIVED =>
      Some (<[op_key :=
               mkHistoricalData (hd_operator hist) generated
                 (times_killed hist) (times_survived hist + 1)
                 (average_detection_time hist)]> data)
  | _ =>
      Some (<[op_key :=
               mkHistoricalData (hd_operator hist) generated
                 (times_killed hist) (times_survived hist)
                 (average_detection_time hist)]> data)
  end.

(** [HistoryTracker.update] *)
Fixpoint update (data : gmap string HistoricalData) (mutants : list Mutant)
    : option (gmap string HistoricalData) :=
  match mutants with
  | [] => Some data
  | mutant :: rest => data' ← update_one data mutant; update data' rest
  end.

(** ** Complexity metrics ([core/scoring/complexity_metrics.py]) *)

(** An AST node, a dictionary of which the functions read
    [node.get('type', '')] and [node.get('nesting', 0)]. *)
Record AstNode : Set := mkAstNode {
  node_type : option string;
  node_nesting : option Z
}.

(** The body of the loop of [calculate_cognitive_complexity]: three
    conditional increments of [score]. *)
Definition add_node_score (score : Z) (node : AstNode) : Z :=
  let type := default EmptyString (node_type node) in
  let nesting := default 0 (node_nesting node) in
  let score1 :=
    if bool_decide (type ∈ ["if"; "while"; "for"; "switch"; "catch"])
    then score + (1 + nesting) else score in
  let score2 :=
    if bool_decide (type ∈ ["and"; "or"]) then score1 + 1 else score1 in
  if bool_decide (type = "recursive_call")
  then score2 + (nesting + 1) else score2.

Definition calculate_cognitive_complexity (ast_nodes : list AstNode) : Z :=
  foldl add_node_score 0 ast_nodes.

Section Maintainability.

(** [math.log] of the standard library, on its domain. *)
Variable math_log : Q -> Q.

(** [math.log(x)] raises [ValueError] unless [x] is positive. *)
Definition checked_log (x : Q) : option Q :=
  if Qle_bool x 0 then None else Some (math_log x).

Definition calculate_maintainability_index (loc cyclomatic : Z)
    (halstead_volume : Q) : option Q :=
  if bool_decide (loc = 0) || Qeq_bool halstead_volume 0 then Some 50%Q
  else
    log_volume ← checked_log halstead_volume;
    log_loc ← checked_log (inject_Z loc);
    let mi :=
      (171 - 5.2 * log_volume - 0.23 * inject_Z cyclomatic
       - 16.2 * log_loc)%Q in
    Some (Qmax 0 (Qmin 100 mi)).

End Maintainability.

(** ** Results of a run ([MutationResults] in [core/models.py])

    The fields [execution_time] and [mutants] of the dataclass are
    [run_execution_time] and [run_mutants] here: the short names are
    projections of [Mutant]. *)

Record MutationResults : Set := mkMutationResults {
  project_name : string;
  total_mutants : Z;
  mutants_executed : Z;
  mutants_killed : Z;
  mutants_survived : Z;
  mutants_timeout : Z;
  mutants_error : Z;
  run_execution_time : Q;
  time_budget : Q;
  mutation_score : Q;
  estimated_full_score : Q;
  correlation_with_full : Q;
  run_mutants : list Mutant
}.

(** [a / b] on floats: [ZeroDivisionError] is [None]. *)
Definition fdiv (a b : Q) : option Q :=
  if Qeq_bool b 0 then None else Some (a / b)%Q.

Definition estimated_full_execution_time (r : MutationResults) : option Q :=
  if bool_decide (mutants_executed r = 0) then Some 0%Q
  else
    avg_time_per_mutant ←
      fdiv (run_execution_time r) (inject_Z (mutants_executed r));
    Some (avg_time_per_mutant * inject_Z (total_mutants r))%Q.

Definition time_saved_percent (r : MutationResults) : option Q :=
  estimate ← estimated_full_execution_time r;
  if Qeq_bool estimate 0 then Some 0%Q
  else
    ratio ← fdiv (run_execution_time r) estimate;
    Some ((1 - ratio) * 100)%Q.

(** ** Vocabulary of the statements *)

Definition unit_interval (x : Q) : Prop := (0 <= x <= 1)%Q.

(** The factors of a mutant in a batch where every factor is uniform. *)
Definition uniform_factors : Factors := mkFactors 0.5 0.5 0.5 0.5 0.5.

(** What the statements use of [math.exp]: on an argument that is not
    positive its value lies in [0, 1]. *)
Definition exp_like (math_exp : Q → Q) : Prop :=
  ∀ x, (x <= 0)%Q → (0 <= math_exp x <= 1)%Q.

(** "[score_single] without context returns the score that [score_all]
    gives the mutant on the singleton batch", for one mutant. *)
Definition singleton_agreement (math_exp : Q → Q)
    (analyze_file : string → CodeMetrics) (history : gmap string HistoricalData)
    (bugs : gmap string Z) (cache : gmap string CodeMetrics) (m : Mutant) : Prop :=
  ∀ s c m' c',
    score_single math_exp analyze_file history bugs cache m [] = Some (s, c) →
    score_all math_exp analyze_file history bugs cache [m] = Some ([m'], c') →
    (s == priority_score m')%Q.

(** A text without a colon, and a cache all of whose entries were put
    there by [_estimate_coverage]. *)
Definition colon_free (s : string) : Prop :=
  ∀ s1 s2, s ≠ s1 +:+ ":" +:+ s2.

Definition generated_cache (md5_int : string → Z)
    (cache : gmap string (gset string)) : Prop :=
  ∀ key tests, cache !! key = Some tests →
    ∃ m, key = location_str m ∧ tests = _generate_test_set md5_int m.

(** [m1] dominates [m2]: the three tests of the inner loop that do not
    involve the threshold. *)
Definition dominates (coverage_map : gmap string (gset string))
    (m1 m2 : Mutant) : bool :=
  _are_operators_related (operator m1) (operator m2)
  && bool_decide (coverage_get coverage_map (id m2)
                  ⊆ coverage_get coverage_map (id m1))
  && bool_decide (0 < size (coverage_get coverage_map (id m2)))%nat.

(** The state is closed on [l]: what a removed mutant dominates further
    down the list is removed too. *)
Fixpoint closed (coverage_map : gmap string (gset string))
    (removed : gset string) (l : list Mutant) : Prop :=
  match l with
  | [] => True
  | m1 :: later =>
      (id m1 ∈ removed →
       ∀ m2, m2 ∈ later → dominates coverage_map m1 m2 = true →
             id m2 ∈ removed)
      ∧ closed coverage_map removed later
  end.

(** "A mutant is removed by stage four only if a surviving related mutant
    has a covering set that is a [superset] of its own non-empty covering
    set, with Jaccard similarity at least the threshold." *)
Definition removal_justified (superset : gset string → gset string → Prop)
    (md5_int : string → Z) (self : SubsumptionAnalyzer)
    (mutants : list Mutant) : Prop :=
  let coverage_map :=
    (map_mutant_coverage md5_int (coverage_cache self) mutants).1 in
  let survivors := (_apply_coverage_subsumption md5_int self mutants).1 in
  ∀ B, B ∈ mutants → B ∉ survivors →
    ∃ A, A ∈ survivors
      ∧ _are_operators_related (operator A) (operator B) = true
      ∧ superset (coverage_get coverage_map (id A))
                 (coverage_get coverage_map (id B))
      ∧ coverage_get coverage_map (id B) ≠ ∅
      ∧ (similarity_threshold self
         <= jaccard (coverage_get coverage_map (id A))
                    (coverage_get coverage_map (id B)))%Q.

(** [mn] is the least and [mx] the greatest of [values], up to the equality
    of rationals. *)
Definition least_of (values : list Q) (mn : Q) : Prop :=
  (∃ v, v ∈ values ∧ (v == mn)%Q) ∧ ∀ v, v ∈ values → (mn <= v)%Q.

Definition greatest_of (values : list Q) (mx : Q) : Prop :=
  (∃ v, v ∈ values ∧ (v == mx)%Q) ∧ ∀ v, v ∈ values → (v <= mx)%Q.

(** The counters other than the one of stage [n] (1 to 4, in pipeline
    order) and the two totals are the same in [s] and [s']. *)
Definition same_counters_but (n : nat) (s s' : Stats) : Prop :=
  total_input s' = total_input s ∧ total_output s' = total_output s
  ∧ (n ≠ 1%nat → exact_duplicates s' = exact_duplicates s)
  ∧ (n ≠ 2%nat → location_clustered s' = location_clustered s)
  ∧ (n ≠ 3%nat → operator_subsumed s' = operator_subsumed s)
  ∧ (n ≠ 4%nat → coverage_subsumed s' = coverage_subsumed s).

(** [m2] is at most five lines away from [m1]: the test that keeps the
    inner loop of stage three going. *)
Definition within_window (m1 m2 : Mutant) : Prop :=
  Z.abs (line_start (location m2) - line_start (location m1)) ≤ 5.

(** A mutant after [score_all]: the input mutant [m] with the metrics of
    its file, the history of its operator and a score, nothing else
    changed. *)
Definition annotated (history : gmap string HistoricalData)
    (cache' : gmap string CodeMetrics) (m a : Mutant) : Prop :=
  ∃ metrics,
    cache' !! file_path (location m) = Some metrics
    ∧ a = set_priority_score (priority_score a)
            (set_historical_data (get_operator_history history (operator m))
               (set_code_metrics metrics m)).

(** Metrics and history counts that are not negative. *)
Definition plausible_metrics (c : CodeMetrics) : Prop :=
  0 ≤ cyclomatic_complexity c ∧ 0 ≤ cognitive_complexity c
  ∧ 0 ≤ nesting_depth c ∧ 0 ≤ number_of_parameters c
  ∧ 0 ≤ last_modified_days_ago c.

Definition plausible_history (h : HistoricalData) : Prop :=
  0 ≤ times_killed h ∧ 0 ≤ times_survived h.

(** The families of operators that [_are_operators_related] keeps
    together: the arithmetic ones, the conditional ones, the two on
    results of calls, and two operators on their own. *)
Inductive OperatorFamily : Set :=
  | arithmetic_family
  | conditional_family
  | call_result_family
  | logical_family
  | framework_family.

Definition operator_family (op : MutationOperator) : OperatorFamily :=
  match op with
  | ARITHMETIC_REPLACEMENT | INCREMENT_DECREMENT => arithmetic_family
  | CONDITIONAL_REPLACEMENT | NEGATE_CONDITIONAL
  | REMOVE_CONDITIONAL | BOUNDARY_CONDITION => conditional_family
  | RETURN_VALUE_REPLACEMENT | VOID_METHOD_CALL => call_result_family
  | LOGICAL_OPERATOR => logical_family
  | FRAMEWORK_SPECIFIC => framework_family
  end.

(** The largest float.  The raw factors divide integers by floats; Python
    converts the integer first and raises [OverflowError] when it is out of
    the range of floats, where the exact quotients of this development
    have a value.  Up to [max_float] every integer converts. *)
Definition max_float : Z := 2 ^ 1024 - 2 ^ 971.

Definition float_sized (n : Z) : Prop := Z.abs n ≤ max_float.

(** The integers that the raw factors divide are in the range of floats. *)
Definition float_sized_metrics (c : CodeMetrics) : Prop :=
  float_sized (cyclomatic_complexity c) ∧ float_sized (cognitive_complexity c)
  ∧ float_sized (nesting_depth c) ∧ float_sized (number_of_parameters c)
  ∧ float_sized (last_modified_days_ago c).

Definition float_sized_history (h : HistoricalData) : Prop :=
  float_sized (times_killed h) ∧ float_sized (times_generated h).

(** Neighbours in [c] are in line order and at most [t] lines apart. *)
Definition chained (t : Z) (c : list Mutant) : Prop :=
  ∀ c1 a b c2, c = c1 ++ a :: b :: c2 →
    0 ≤ line_start (location b) - line_start (location a) ≤ t.

(** [r] is the first mutant of [c] with the highest priority score. *)
Definition first_best (r : Mutant) (c : list Mutant) : Prop :=
  ∃ l1 l2, c = l1 ++ r :: l2
    ∧ (∀ m, m ∈ l1 → (priority_score m < priority_score r)%Q)
    ∧ (∀ m, m ∈ l2 → (priority_score m <= priority_score r)%Q).

(** The keys of a dictionary of [n] clusters. *)
Definition cluster_keys (n : nat) : list string :=
  (fun i => cluster_name (Z.of_nat i)) <$> seq 0 n.

(** The state of [cluster] between two files: the counter is the number of
    clusters, and the keys are numbered in order. *)
Definition numbered (st : list (string * list Mutant) * Z) : Prop :=
  st.2 = Z.of_nat (length st.1) ∧ st.1.*1 = cluster_keys (length st.1).

(** Neighbours in [c] are at most [t] lines apart. *)
Definition close_neighbours (t : Z) (c : list Mutant) : Prop :=
  ∀ c1 a b c2, c = c1 ++ a :: b :: c2 →
    line_start (location b) - line_start (location a) ≤ t.

(** From the last mutant of a list of [ps] to the first mutant of the next
    list there are more than [t] lines. *)
Definition separated (t : Z) (ps : list (list Mutant)) : Prop :=
  ∀ ps1 p q ps2 a b, ps = ps1 ++ p :: q :: ps2 →
    last p = Some a → head q = Some b →
    t < line_start (location b) - line_start (location a).

(** [ps] splits the list [sorted] into runs: no run is empty, neighbours in
    a run are at most [t] lines apart, and consecutive runs are more than
    [t] lines apart. *)
Definition runs_of (t : Z) (sorted : list Mutant) (ps : list (list Mutant))
    : Prop :=
  concat ps = sorted
  ∧ Forall (fun p => p ≠ []) ps
  ∧ Forall (close_neighbours t) ps
  ∧ separated t ps.

(** Counters of a history entry that fit together: none is negative, and
    the killed and the survived mutants are among the generated ones. *)
Definition consistent_history (h : HistoricalData) : Prop :=
  0 ≤ times_killed h ∧ 0 ≤ times_survived h
  ∧ times_killed h + times_survived h ≤ times_generated h.

(** The mutants of a list with operator [op], those of them with status
    [s], and the time the killed ones took. *)
Definition with_operator (op : MutationOperator) (mutants : list Mutant)
    : list Mutant :=
  filter (fun m => operator m = op) mutants.

Definition with_status (s : MutantStatus) (mutants : list Mutant)
    : list Mutant :=
  filter (fun m => status m = s) mutants.

Definition detection_time (mutants : list Mutant) : Q :=
  foldr (fun m t => (execution_time m + t)%Q) 0%Q (with_status KILLED mutants).

(** The entry of an operator, as [update] sees it. *)
Definition history_entry (data : gmap string HistoricalData)
    (op : MutationOperator) : HistoricalData :=
  default (empty_history op) (data !! operator_value op).

(** ** Concrete inputs *)

(** The mutant of [test_complexity_factor]: every metric at its cap. *)
Definition saturated_mutant : Mutant :=
  set_code_metrics (mkCodeMetrics 20 30 5 0 8 false false 999)
    (new_Mutant "m1" "test_1" (mkCodeLocation "test.py" 1 1 0 1)
       ARITHMETIC_REPLACEMENT "x" "y").

(** The two mutants of [test_score_all_basic], as built by the dataclass. *)
Definition arithmetic_mutant : Mutant :=
  new_Mutant "m1" "pit_1" (mkCodeLocation "test.py" 10 10 0 10)
    ARITHMETIC_REPLACEMENT "a + b" "a - b".

Definition boundary_mutant : Mutant :=
  new_Mutant "m2" "pit_2" (mkCodeLocation "test.py" 20 20 0 10)
    BOUNDARY_CONDITION "x < 10" "x <= 10".

(** An analyzer that finds no file to read: [analyze_file] then returns
    [CodeMetrics()]. *)
Definition no_analysis (path : string) : CodeMetrics := default_CodeMetrics.

(** A rational function with the shape of the exponential where scoring
    evaluates it: positive, 1 at 0, at most 1 below 0. *)
Definition exp_stand_in (x : Q) : Q :=
  if Qle_bool x 0 then (1 / (1 - x))%Q else (1 + x)%Q.

(** A digest for concrete runs: every text has the same 128-bit value. *)
Definition constant_digest (s : string) : Z :=
  250523820816170676552725841199347161898.

(** Coverage recorded by a coverage tool for line 20 of [test.py], as
    [load_actual_coverage] receives it. *)
Definition recorded_coverage : gmap string (gset string) :=
  {[ "test.py:20" := {[ "test_lower_bound"; "test_upper_bound" ]} ]}.

(** Two mutants on line 10 of one file, in different columns. *)
Definition sum_mutant : Mutant :=
  new_Mutant "m1" "pit_1" (mkCodeLocation "calc.py" 10 10 4 9)
    ARITHMETIC_REPLACEMENT "a + b" "a - b".

Definition product_mutant : Mutant :=
  new_Mutant "m2" "pit_2" (mkCodeLocation "calc.py" 10 10 14 19)
    ARITHMETIC_REPLACEMENT "c * d" "c / d".

(** The pair of the operator-subsumption scenario, two lines apart, and the
    same pair with the lines exchanged. *)
Definition boundary_at_10 : Mutant :=
  new_Mutant "m1" "1" (mkCodeLocation "test.py" 10 10 0 5)
    BOUNDARY_CONDITION "x < 10" "x <= 10".

Definition negate_at_12 : Mutant :=
  new_Mutant "m2" "2" (mkCodeLocation "test.py" 12 12 0 5)
    NEGATE_CONDITIONAL "x < 10" "x >= 10".

Definition negate_at_10 : Mutant :=
  new_Mutant "m2" "2" (mkCodeLocation "test.py" 10 10 0 5)
    NEGATE_CONDITIONAL "x < 10" "x >= 10".

Definition boundary_at_12 : Mutant :=
  new_Mutant "m1" "1" (mkCodeLocation "test.py" 12 12 0 5)
    BOUNDARY_CONDITION "x < 10" "x <= 10".

(** The mutants of [test_remove_exact_duplicates] and of
    [test_location_clustering]. *)
Definition duplicates_batch : list Mutant :=
  [ new_Mutant "m1" "1" (mkCodeLocation "test.py" 10 10 0 5)
      ARITHMETIC_REPLACEMENT "a + b" "a - b";
    new_Mutant "m2" "2" (mkCodeLocation "test.py" 10 10 0 5)
      ARITHMETIC_REPLACEMENT "a + b" "a - b";
    new_Mutant "m3" "3" (mkCodeLocation "test.py" 20 20 0 5)
      BOUNDARY_CONDITION "x < 10" "x <= 10" ].

Definition clustering_batch : list Mutant :=
  [ set_priority_score 8
      (new_Mutant "m1" "1" (mkCodeLocation "test.py" 10 10 0 5)
         ARITHMETIC_REPLACEMENT "a + b" "a - b");
    set_priority_score 6
      (new_Mutant "m2" "2" (mkCodeLocation "test.py" 10 10 0 5)
         BOUNDARY_CONDITION "x < 10" "x <= 10") ].

(** A batch in which two mutants share the identifier ["a"], with recorded
    coverage for each of its six lines. *)
Definition shared_id_batch : list Mutant :=
  (fun '(i, line, op) =>
     new_Mutant i i (mkCodeLocation "f.py" line line 0 1) op "p" "q") <$>
  [ ("x", 1, LOGICAL_OPERATOR); ("a", 2, LOGICAL_OPERATOR);
    ("a", 3, ARITHMETIC_REPLACEMENT); ("b1", 4, ARITHMETIC_REPLACEMENT);
    ("b2", 5, ARITHMETIC_REPLACEMENT); ("b3", 6, ARITHMETIC_REPLACEMENT) ].

Definition shared_id_coverage : gmap string (gset string) :=
  {[ "f.py:1" := {[ "t1"; "t2"; "t3"; "t4"; "t5"; "t6"; "t7"; "t8"; "t9"; "t10" ]};
     "f.py:2" := {[ "t1"; "t2"; "t3" ]};
     "f.py:3" := {[ "t1"; "t2"; "t3" ]};
     "f.py:4" := {[ "t1"; "t2" ]};
     "f.py:5" := {[ "t2"; "t3" ]};
     "f.py:6" := {[ "t1"; "t3" ]} ]}.

(** The two mutants of [test_score_all_basic] with the metrics and the
    history the test gives them: cyclomatic complexity 5 and 15, the other
    metrics at the defaults of [CodeMetrics]; 80 and 90 kills in 100. *)
Definition measured_arithmetic_mutant : Mutant :=
  set_historical_data (mkHistoricalData ARITHMETIC_REPLACEMENT 100 80 20 0)
    (set_code_metrics (mkCodeMetrics 5 0 0 0 0 false false 999)
       arithmetic_mutant).

Definition measured_boundary_mutant : Mutant :=
  set_historical_data (mkHistoricalData BOUNDARY_CONDITION 100 90 10 0)
    (set_code_metrics (mkCodeMetrics 15 0 0 0 0 false false 999)
       boundary_mutant).

Definition measured_batch : list Mutant :=
  [measured_arithmetic_mutant; measured_boundary_mutant].

(** Two arithmetic mutants with distinct identifiers on lines 3 and 4 of
    [f.py]: by [shared_id_coverage] two of the three tests of the first
    cover the second, so the similarity is 2/3. *)
Definition nested_coverage_batch : list Mutant :=
  (fun '(i, line, op) =>
     new_Mutant i i (mkCodeLocation "f.py" line line 0 1) op "p" "q") <$>
  [ ("a", 3, ARITHMETIC_REPLACEMENT); ("b1", 4, ARITHMETIC_REPLACEMENT) ].

(** A new analyzer, as [SubsumptionAnalyzer()] builds it. *)
Definition fresh_analyzer : SubsumptionAnalyzer :=
  new_SubsumptionAnalyzer ∅ default_similarity_threshold.

(** A mutant that was run and killed in two seconds. *)
Definition killed_mutant : Mutant :=
  mkMutant "m1" "1" (mkCodeLocation "test.py" 10 10 0 5)
    BOUNDARY_CONDITION "x < 10" "x <= 10" EmptyString KILLED 2%Q
    ["test_boundary"] None None None 0%Q 3%Q.

(** * Properties *)

(** ** Rational arithmetic on counts *)

Lemma inject_nat_pos (n : nat) : (0 < n)%nat → (0 < inject_Z (Z.of_nat n))%Q.
Proof. intros Hn. change 0%Q with (inject_Z 0). rewrite <- Zlt_Qlt. lia. Qed.

Lemma ratio_bounds (a b : nat) :
  (a ≤ b)%nat → (0 < b)%nat →
  (0 <= inject_Z (Z.of_nat a) / inject_Z (Z.of_nat b) <= 1)%Q.
Proof.
  intros Hab Hb. pose proof (inject_nat_pos b Hb) as Hpos. split.
  - apply Qle_shift_div_l; [done|]. rewrite Qmult_0_l.
    change 0%Q with (inject_Z 0). rewrite <- Zle_Qle. lia.
  - apply Qle_shift_div_r; [done|]. rewrite Qmult_1_l.
    rewrite <- Zle_Qle. lia.
Qed.

Lemma size_pos_nonempty (s : gset string) : (0 < size s)%nat ↔ s ≠ ∅.
Proof.
  split.
  - intros Hs ->. rewrite size_empty in Hs. lia.
  - intros Hne. destruct (decide (size s = 0%nat)) as [Hz|]; [|lia].
    by apply size_empty_iff, leibniz_equiv in Hz.
Qed.

(** ** [compute_similarity] *)

Lemma is_empty_true (s : gset string) : is_empty s = true ↔ s = ∅.
Proof. unfold is_empty. apply bool_decide_eq_true. Qed.

Lemma is_empty_false (s : gset string) : is_empty s = false ↔ s ≠ ∅.
Proof. unfold is_empty. apply bool_decide_eq_false. Qed.

Lemma union_nonempty_l (A B : gset string) : A ≠ ∅ → A ∪ B ≠ ∅.
Proof.
  intros HA HU. apply HA. apply leibniz_equiv. intros x. split.
  - intros Hx. rewrite <- HU. apply elem_of_union. by left.
  - intros Hx. by apply not_elem_of_empty in Hx.
Qed.

Lemma compute_similarity_nonempty (A B : gset string) :
  A ≠ ∅ → B ≠ ∅ → compute_similarity A B = jaccard A B.
Proof.
  intros HA HB. unfold compute_similarity, jaccard.
  rewrite (proj2 (is_empty_false A) HA), (proj2 (is_empty_false B) HB). simpl.
  destruct (Z.ltb_spec 0 (Z.of_nat (size (A ∪ B)))) as [|Hle]; [done|].
  exfalso. pose proof (proj2 (size_pos_nonempty _) (union_nonempty_l A B HA)).
  lia.
Qed.

Lemma jaccard_bounds (A B : gset string) :
  A ≠ ∅ → (0 <= jaccard A B <= 1)%Q.
Proof.
  intros HA. apply ratio_bounds.
  - apply subseteq_size. intros x Hx. apply elem_of_intersection in Hx as [Hx _].
    apply elem_of_union. by left.
  - by apply size_pos_nonempty, union_nonempty_l.
Qed.

Lemma compute_similarity_bounds (A B : gset string) :
  (0 <= compute_similarity A B <= 1)%Q.
Proof.
  destruct (decide (A = ∅)) as [->|HA]; destruct (decide (B = ∅)) as [->|HB].
  - done.
  - unfold compute_similarity. by rewrite (proj2 (is_empty_false B) HB).
  - unfold compute_similarity. by rewrite (proj2 (is_empty_false A) HA).
  - rewrite compute_similarity_nonempty by done. by apply jaccard_bounds.
Qed.

(** C7.  [compute_similarity] is symmetric; it is 1 on two empty sets, 0
    when exactly one set is empty, the Jaccard index |A∩B| / |A∪B| when
    neither is, and it always lies in [0, 1]. *)
Theorem compute_similarity_spec (A B : gset string) :
  compute_similarity A B = compute_similarity B A
  ∧ (A = ∅ → B = ∅ → compute_similarity A B = 1%Q)
  ∧ ((A = ∅ ∧ B ≠ ∅) ∨ (A ≠ ∅ ∧ B = ∅) → compute_similarity A B = 0%Q)
  ∧ (A ≠ ∅ → B ≠ ∅ →
     compute_similarity A B
     = (inject_Z (Z.of_nat (size (A ∩ B)))
        / inject_Z (Z.of_nat (size (A ∪ B))))%Q)
  ∧ (0 <= compute_similarity A B <= 1)%Q.
Proof.
  repeat apply conj.
  - unfold compute_similarity.
    assert (A ∩ B = B ∩ A) as ->.
    { apply leibniz_equiv. intros x. rewrite !elem_of_intersection. tauto. }
    assert (A ∪ B = B ∪ A) as ->.
    { apply leibniz_equiv. intros x. rewrite !elem_of_union. tauto. }
    by destruct (is_empty A), (is_empty B).
  - by intros -> ->.
  - unfold compute_similarity. intros [[-> HB]|[HA ->]].
    + by rewrite (proj2 (is_empty_false B) HB).
    + by rewrite (proj2 (is_empty_false A) HA).
  - apply compute_similarity_nonempty.
  - apply compute_similarity_bounds.
  - apply compute_similarity_bounds.
Qed.

(** ** [get_statistics] *)

(** C10.  [get_statistics] returns on every analyzer state.  With
    [total_input = 0] the quotient itself would raise, and the reported
    ['reduction_percent'] is 0; with [total_input > 0] it is
    (1 - total_output / total_input) × 100. *)
Theorem get_statistics_total (self : SubsumptionAnalyzer) :
  ∃ r, get_statistics self = Some r
    ∧ counters r = stats self
    ∧ (total_input (stats self) = 0 →
       truediv (total_output (stats self)) (total_input (stats self)) = None
       ∧ reduction_percent r = 0%Q)
    ∧ (0 < total_input (stats self) →
       reduction_percent r
       = ((1 - inject_Z (total_output (stats self))
               / inject_Z (total_input (stats self))) * 100)%Q).
Proof.
  unfold get_statistics, truediv.
  destruct (Z.ltb_spec 0 (total_input (stats self))) as [Hpos|Hle].
  - rewrite decide_False by lia. simpl. eexists. split; [done|].
    split; [done|]. split; [lia|done].
  - eexists. split; [done|]. split; [done|]. split; [|lia].
    intros ->. by rewrite decide_True.
Qed.

(** ** The complexity factor *)

Lemma complexity_factor_le_1 (m : Mutant) : (_complexity_factor m <= 1)%Q.
Proof.
  unfold _complexity_factor. destruct (code_metrics m) as [metrics|]; [|done].
  pose proof (Q.le_min_r (inject_Z (cyclomatic_complexity metrics) / 20) 1).
  pose proof (Q.le_min_r (inject_Z (cognitive_complexity metrics) / 30) 1).
  pose proof (Q.le_min_r (inject_Z (nesting_depth metrics) / 5) 1).
  pose proof (Q.le_min_r (inject_Z (number_of_parameters metrics) / 8) 1).
  lra.
Qed.

(** C9, as stated, fails: no metrics, however extreme, push the complexity
    factor above 1.0, because each of the four terms is capped by its
    [min(..., 1.0)] and the coefficients add up to 1. *)
Lemma complexity_factor_never_exceeds_one :
  ¬ ∃ m metrics, code_metrics m = Some metrics ∧ (1 < _complexity_factor m)%Q.
Proof.
  intros (m & metrics & _ & Hgt).
  pose proof (complexity_factor_le_1 m). lra.
Qed.

(** C9, amended.  With metrics attached the complexity factor is
    0.4·min(cyclomatic/20,1) + 0.3·min(cognitive/30,1) + 0.2·min(nesting/5,1)
    + 0.1·min(params/8,1); the sum is not clamped, and it never exceeds 1.0. *)
Theorem complexity_factor_formula (m : Mutant) (metrics : CodeMetrics) :
  code_metrics m = Some metrics →
  _complexity_factor m
  = (0.4 * Qmin (inject_Z (cyclomatic_complexity metrics) / 20) 1
     + 0.3 * Qmin (inject_Z (cognitive_complexity metrics) / 30) 1
     + 0.2 * Qmin (inject_Z (nesting_depth metrics) / 5) 1
     + 0.1 * Qmin (inject_Z (number_of_parameters metrics) / 8) 1)%Q
  ∧ (_complexity_factor m <= 1)%Q.
Proof.
  intros Hm. split; [|apply complexity_factor_le_1].
  unfold _complexity_factor. by rewrite Hm.
Qed.

Lemma complexity_factor_formula_witness :
  _complexity_factor saturated_mutant
  = (0.4 * Qmin (inject_Z 20 / 20) 1 + 0.3 * Qmin (inject_Z 30 / 30) 1
     + 0.2 * Qmin (inject_Z 5 / 5) 1 + 0.1 * Qmin (inject_Z 8 / 8) 1)%Q
  ∧ (_complexity_factor saturated_mutant <= 1)%Q.
Proof.
  apply (complexity_factor_formula saturated_mutant
           (mkCodeMetrics 20 30 5 0 8 false false 999)).
  reflexivity.
Defined.

(** With every metric at its cap the four terms add up to 1 as rationals.
    The code adds them as floats, and the binary64 sum
    0.4 + 0.3 + 0.2 + 0.1 is 0.9999999999999999, below 1. *)
Example complexity_factor_saturated : (_complexity_factor saturated_mutant == 1)%Q.
Proof. reflexivity. Qed.

(** ** Min-max normalization *)

Lemma foldl_Qmin_le (v : Q) (l : list Q) :
  (foldl Qmin v l <= v)%Q ∧ Forall (fun x => (foldl Qmin v l <= x)%Q) l.
Proof.
  revert v. induction l as [|a l IH]; intros v; simpl.
  - split; [apply Qle_refl|constructor].
  - destruct (IH (Qmin v a)) as [Hv Hl].
    pose proof (Q.le_min_l v a). pose proof (Q.le_min_r v a).
    split; [lra|]. constructor; [lra|done].
Qed.

Lemma foldl_Qmax_ge (v : Q) (l : list Q) :
  (v <= foldl Qmax v l)%Q ∧ Forall (fun x => (x <= foldl Qmax v l)%Q) l.
Proof.
  revert v. induction l as [|a l IH]; intros v; simpl.
  - split; [apply Qle_refl|constructor].
  - destruct (IH (Qmax v a)) as [Hv Hl].
    pose proof (Q.le_max_l v a). pose proof (Q.le_max_r v a).
    split; [lra|]. constructor; [lra|done].
Qed.

Lemma foldl_Qmin_elem (v : Q) (l : list Q) :
  ∃ x, x ∈ v :: l ∧ (foldl Qmin v l == x)%Q.
Proof.
  revert v. induction l as [|a l IH]; intros v; simpl.
  - exists v. split; [left|reflexivity].
  - destruct (IH (Qmin v a)) as (x & Hx & Heq).
    apply elem_of_cons in Hx as [->|Hx].
    + destruct (Q.min_dec v a) as [Hm|Hm].
      * exists v. split; [left|]. by rewrite Heq.
      * exists a. split; [right; left|]. by rewrite Heq.
    + exists x. split; [|done]. by do 2 right.
Qed.

Lemma foldl_Qmax_elem (v : Q) (l : list Q) :
  ∃ x, x ∈ v :: l ∧ (foldl Qmax v l == x)%Q.
Proof.
  revert v. induction l as [|a l IH]; intros v; simpl.
  - exists v. split; [left|reflexivity].
  - destruct (IH (Qmax v a)) as (x & Hx & Heq).
    apply elem_of_cons in Hx as [->|Hx].
    + destruct (Q.max_dec v a) as [Hm|Hm].
      * exists v. split; [left|]. by rewrite Heq.
      * exists a. split; [right; left|]. by rewrite Heq.
    + exists x. split; [|done]. by do 2 right.
Qed.

Lemma list_min_le (values : list Q) (mn : Q) :
  list_min values = Some mn → Forall (fun x => (mn <= x)%Q) values.
Proof.
  destruct values as [|v l]; [done|]. intros [= <-].
  destruct (foldl_Qmin_le v l). by constructor.
Qed.

Lemma list_max_ge (values : list Q) (mx : Q) :
  list_max values = Some mx → Forall (fun x => (x <= mx)%Q) values.
Proof.
  destruct values as [|v l]; [done|]. intros [= <-].
  destruct (foldl_Qmax_ge v l). by constructor.
Qed.

Lemma normalize_values_is_Some (values : list Q) :
  values ≠ [] → is_Some (normalize_values values).
Proof.
  destruct values as [|v l]; [done|]. intros _.
  unfold normalize_values. simpl. by destruct (Qeq_bool _ _).
Qed.

Lemma normalize_values_empty : normalize_values [] = None.
Proof. reflexivity. Qed.

Lemma normalize_values_length (values l : list Q) :
  normalize_values values = Some l → length l = length values.
Proof.
  unfold normalize_values.
  destruct (list_min values) as [mn|]; [|done].
  destruct (list_max values) as [mx|]; [|done]. simpl.
  destruct (Qeq_bool _ _); intros [= <-].
  - by rewrite length_replicate.
  - by rewrite length_fmap.
Qed.

(** Every normalized value lies in [0, 1]. *)
Lemma normalize_values_bounds (values l : list Q) :
  normalize_values values = Some l → Forall (fun x => (0 <= x <= 1)%Q) l.
Proof.
  unfold normalize_values.
  destruct (list_min values) as [mn|] eqn:Hmn; [|done].
  destruct (list_max values) as [mx|] eqn:Hmx; [|done]. simpl.
  apply list_min_le in Hmn. apply list_max_ge in Hmx.
  destruct (Qeq_bool (mx - mn) 0) eqn:Heq; intros [= <-].
  - apply Forall_replicate. split; lra.
  - apply Qeq_bool_neq in Heq. apply Forall_fmap.
    rewrite Forall_forall in Hmn, Hmx. apply Forall_forall. intros v Hv. simpl.
    specialize (Hmn v Hv). specialize (Hmx v Hv).
    assert (0 < mx - mn)%Q as Hpos.
    { destruct (Qlt_le_dec 0 (mx - mn)) as [|Hle]; [done|].
      exfalso. apply Heq. lra. }
    split.
    + apply Qle_shift_div_l; [done|]. lra.
    + apply Qle_shift_div_r; [done|]. lra.
Qed.

(** A uniform batch gets 0.5 throughout. *)
Lemma normalize_values_uniform (values l : list Q) :
  (∀ x y, x ∈ values → y ∈ values → (x == y)%Q) →
  normalize_values values = Some l →
  l = replicate (length values) 0.5%Q.
Proof.
  intros Hall. unfold normalize_values.
  destruct values as [|v vs]; [done|]. simpl.
  destruct (foldl_Qmin_elem v vs) as (x & Hx & Hmin).
  destruct (foldl_Qmax_elem v vs) as (y & Hy & Hmax).
  assert (foldl Qmax v vs - foldl Qmin v vs == 0)%Q as Hz.
  { rewrite Hmin, Hmax, (Hall y x Hy Hx). ring. }
  apply Qeq_bool_iff in Hz. rewrite Hz. by intros [= <-].
Qed.

(** In a batch that is not uniform the values are the min-max quotients. *)
Lemma normalize_values_quotients (values l : list Q) (mn mx : Q) :
  list_min values = Some mn → list_max values = Some mx →
  ¬ (mx - mn == 0)%Q →
  normalize_values values
  = Some ((fun v => (v - mn) / (mx - mn))%Q <$> values).
Proof.
  intros Hmn Hmx Hne. unfold normalize_values. rewrite Hmn, Hmx. simpl.
  destruct (Qeq_bool (mx - mn) 0) eqn:Heq; [|done].
  by apply Qeq_bool_iff in Heq.
Qed.

Lemma normalize_values_singleton (v : Q) : normalize_values [v] = Some [0.5%Q].
Proof.
  unfold normalize_values. simpl.
  assert (Qeq_bool (v - v) 0 = true) as ->; [|done].
  apply Qeq_bool_iff. ring.
Qed.

Lemma list_min_least (values : list Q) (mn0 mn : Q) :
  list_min values = Some mn0 → least_of values mn → (mn0 == mn)%Q.
Proof.
  intros Hmin [(v & Hv & Hvmn) Hle].
  pose proof (list_min_le _ _ Hmin) as Hlow. rewrite Forall_forall in Hlow.
  destruct values as [|v0 vs]; [done|]. injection Hmin as <-.
  destruct (foldl_Qmin_elem v0 vs) as (x & Hx & Heq).
  specialize (Hle x Hx). specialize (Hlow v Hv). lra.
Qed.

Lemma list_max_greatest (values : list Q) (mx0 mx : Q) :
  list_max values = Some mx0 → greatest_of values mx → (mx0 == mx)%Q.
Proof.
  intros Hmax [(v & Hv & Hvmx) Hge].
  pose proof (list_max_ge _ _ Hmax) as Hup. rewrite Forall_forall in Hup.
  destruct values as [|v0 vs]; [done|]. injection Hmax as <-.
  destruct (foldl_Qmax_elem v0 vs) as (x & Hx & Heq).
  specialize (Hge x Hx). specialize (Hup v Hv). lra.
Qed.

(** In a batch that is not uniform, the value at an index is the min-max
    quotient of the raw value at that index. *)
Lemma normalize_values_at (values l : list Q) (k : nat) (v x mn mx : Q) :
  normalize_values values = Some l →
  values !! k = Some v → l !! k = Some x →
  least_of values mn → greatest_of values mx → ¬ (mx - mn == 0)%Q →
  (x == (v - mn) / (mx - mn))%Q.
Proof.
  unfold normalize_values. intros Hn Hv Hx Hmn Hmx Hne.
  destruct (list_min values) as [mn0|] eqn:Hmin; [|done].
  destruct (list_max values) as [mx0|] eqn:Hmax; [|done]. simpl in Hn.
  pose proof (list_min_least _ _ _ Hmin Hmn) as Emn.
  pose proof (list_max_greatest _ _ _ Hmax Hmx) as Emx.
  destruct (Qeq_bool (mx0 - mn0) 0) eqn:Hz.
  { apply Qeq_bool_iff in Hz. destruct Hne. rewrite <- Emn, <- Emx. done. }
  injection Hn as <-. rewrite list_lookup_fmap, Hv in Hx. injection Hx as <-.
  by rewrite Emn, Emx.
Qed.

(** ** The per-mutant dictionary of normalized factors *)

Lemma build_result_values (P : Factors → Prop)
    (Ph Pc Ps Pr Pb : Q → Prop) (mutants : list Mutant)
    (nh nc ns nr nb : list Q) (result : gmap string Factors) :
  (∀ h c s r b, Ph h → Pc c → Ps s → Pr r → Pb b → P (mkFactors h c s r b)) →
  Forall Ph nh → Forall Pc nc → Forall Ps ns → Forall Pr nr → Forall Pb nb →
  map_Forall (fun _ => P) result →
  map_Forall (fun _ => P) (build_result mutants nh nc ns nr nb result).
Proof.
  intros HP. revert nh nc ns nr nb result.
  induction mutants as [|m mutants IH]; intros nh nc ns nr nb result
    Hh Hc Hs Hr Hb Hres; [done|].
  destruct Hh as [|h nh Hh Hnh]; [done|].
  destruct Hc as [|c nc Hc Hnc]; [done|].
  destruct Hs as [|s ns Hs Hns]; [done|].
  destruct Hr as [|r nr Hr Hnr]; [done|].
  destruct Hb as [|b nb Hb Hnb]; [done|].
  simpl. apply IH; try done.
  apply map_Forall_insert_2; [|done]. by apply HP.
Qed.

Lemma build_result_keeps (mutants : list Mutant) (nh nc ns nr nb : list Q)
    (result : gmap string Factors) (k : string) :
  is_Some (result !! k) →
  is_Some (build_result mutants nh nc ns nr nb result !! k).
Proof.
  revert nh nc ns nr nb result.
  induction mutants as [|m mutants IH]; intros nh nc ns nr nb result Hk; [done|].
  destruct nh as [|h nh]; [done|]. destruct nc as [|c nc]; [done|].
  destruct ns as [|s ns]; [done|]. destruct nr as [|r nr]; [done|].
  destruct nb as [|b nb]; [done|]. simpl. apply IH.
  destruct (decide (id m = k)) as [->|Hne].
  - rewrite lookup_insert_eq. by eexists.
  - by rewrite lookup_insert_ne.
Qed.

Lemma build_result_covers (mutants : list Mutant) (nh nc ns nr nb : list Q)
    (result : gmap string Factors) (m : Mutant) :
  length nh = length mutants → length nc = length mutants →
  length ns = length mutants → length nr = length mutants →
  length nb = length mutants → m ∈ mutants →
  is_Some (build_result mutants nh nc ns nr nb result !! id m).
Proof.
  revert nh nc ns nr nb result.
  induction mutants as [|m0 mutants IH]; intros nh nc ns nr nb result
    Lh Lc Ls Lr Lb Hm; [by apply elem_of_nil in Hm|].
  destruct nh as [|h nh]; [done|]. destruct nc as [|c nc]; [done|].
  destruct ns as [|s ns]; [done|]. destruct nr as [|r nr]; [done|].
  destruct nb as [|b nb]; [done|]. simpl in *.
  apply elem_of_cons in Hm as [->|Hm].
  - apply build_result_keeps. rewrite lookup_insert_eq. by eexists.
  - apply IH; try done; lia.
Qed.

(** The entry of an identifier comes from the last mutant that bears it. *)
Lemma build_result_entry (mutants : list Mutant) (nh nc ns nr nb : list Q)
    (result : gmap string Factors) (i : string) (factors : Factors) :
  length nh = length mutants → length nc = length mutants →
  length ns = length mutants → length nr = length mutants →
  length nb = length mutants →
  build_result mutants nh nc ns nr nb result !! i = Some factors →
  (∃ l1 bearer l2,
     mutants = l1 ++ bearer :: l2 ∧ id bearer = i ∧ (i ∉ (id <$> l2))
     ∧ nh !! length l1 = Some (historical factors)
     ∧ nc !! length l1 = Some (complexity factors)
     ∧ ns !! length l1 = Some (security factors)
     ∧ nr !! length l1 = Some (recency factors)
     ∧ nb !! length l1 = Some (bug_history factors))
  ∨ ((i ∉ (id <$> mutants)) ∧ result !! i = Some factors).
Proof.
  revert nh nc ns nr nb result.
  induction mutants as [|m mutants IH]; intros nh nc ns nr nb result
    Lh Lc Ls Lr Lb Hi.
  { right. split; [by intros ?%elem_of_nil|done]. }
  destruct nh as [|h nh]; [done|]. destruct nc as [|c nc]; [done|].
  destruct ns as [|s ns]; [done|]. destruct nr as [|r nr]; [done|].
  destruct nb as [|b nb]; [done|]. simpl in Lh, Lc, Ls, Lr, Lb, Hi.
  apply IH in Hi
    as [(l1 & bearer & l2 & -> & Hid & Hl2 & Hh & Hc & Hs & Hr & Hb)|[Hout Hi]];
    try lia.
  - left. by exists (m :: l1), bearer, l2.
  - destruct (decide (id m = i)) as [Heq|Hne].
    + left. rewrite <- Heq, lookup_insert_eq in Hi. injection Hi as <-.
      exists [], m, mutants. rewrite Heq. by repeat split.
    + right. rewrite lookup_insert_ne in Hi by done. split; [|done].
      rewrite fmap_cons. by apply not_elem_of_cons.
Qed.

(** ** Sorting *)

Lemma insert_by_Permutation {A} (before : A → A → bool) (x : A) (l : list A) :
  insert_by before x l ≡ₚ x :: l.
Proof.
  induction l as [|y l IH]; simpl; [done|].
  destruct (before y x); [|done].
  rewrite IH. apply Permutation_swap.
Qed.

Lemma stable_sort_Permutation {A} (before : A → A → bool) (l : list A) :
  stable_sort before l ≡ₚ l.
Proof.
  induction l as [|x l IH]; simpl; [done|].
  rewrite insert_by_Permutation. by constructor.
Qed.

Section ScorerProperties.

Variable math_exp : Q → Q.
Variable analyze_file : string → CodeMetrics.
Variable history : gmap string HistoricalData.
Variable bugs : gmap string Z.

Local Abbreviation raw_factor := (raw_factor math_exp bugs).
Local Abbreviation _compute_normalized_factors :=
  (_compute_normalized_factors math_exp bugs).
Local Abbreviation _precompute_metrics :=
  (_precompute_metrics analyze_file history).
Local Abbreviation score_all := (score_all math_exp analyze_file history bugs).
Local Abbreviation score_single :=
  (score_single math_exp analyze_file history bugs).

Lemma compute_normalized_factors_empty : _compute_normalized_factors [] = None.
Proof. reflexivity. Qed.

Lemma compute_normalized_factors_is_Some (mutants : list Mutant) :
  mutants ≠ [] → is_Some (_compute_normalized_factors mutants).
Proof.
  intros Hne. unfold MultiFactorScorer._compute_normalized_factors.
  assert (∀ f : Mutant → Q, is_Some (normalize_values (f <$> mutants))) as Hf.
  { intros f. apply normalize_values_is_Some. by destruct mutants. }
  destruct (Hf _historical_factor) as [nh ->].
  destruct (Hf _complexity_factor) as [nc ->].
  destruct (Hf _security_factor) as [ns ->].
  destruct (Hf (_recency_factor math_exp)) as [nr ->].
  destruct (Hf (_bug_history_factor bugs)) as [nb ->].
  simpl. by eexists.
Qed.

Lemma compute_normalized_factors_bounds (mutants : list Mutant)
    (normalized : gmap string Factors) :
  _compute_normalized_factors mutants = Some normalized →
  map_Forall (fun _ factors => ∀ name, unit_interval (factor_value name factors))
    normalized.
Proof.
  unfold MultiFactorScorer._compute_normalized_factors. intros H.
  destruct (normalize_values (_historical_factor <$> _)) as [nh|] eqn:Hh; [|done].
  destruct (normalize_values (_complexity_factor <$> _)) as [nc|] eqn:Hc; [|done].
  destruct (normalize_values (_security_factor <$> _)) as [ns|] eqn:Hs; [|done].
  destruct (normalize_values (_recency_factor _ <$> _)) as [nr|] eqn:Hr; [|done].
  destruct (normalize_values (_bug_history_factor _ <$> _)) as [nb|] eqn:Hb; [|done].
  simpl in H. injection H as <-.
  apply (build_result_values _ unit_interval unit_interval unit_interval
           unit_interval unit_interval);
    try (by eapply normalize_values_bounds).
  - intros h c s r b ????? []; done.
  - apply map_Forall_empty.
Qed.

Lemma compute_normalized_factors_uniform (name : FactorName)
    (mutants : list Mutant) (normalized : gmap string Factors) :
  (∀ m1 m2, m1 ∈ mutants → m2 ∈ mutants →
     (raw_factor name m1 == raw_factor name m2)%Q) →
  _compute_normalized_factors mutants = Some normalized →
  map_Forall (fun _ factors => factor_value name factors = 0.5%Q) normalized.
Proof.
  intros Hall. unfold MultiFactorScorer._compute_normalized_factors. intros H.
  destruct (normalize_values (_historical_factor <$> _)) as [nh|] eqn:Hh; [|done].
  destruct (normalize_values (_complexity_factor <$> _)) as [nc|] eqn:Hc; [|done].
  destruct (normalize_values (_security_factor <$> _)) as [ns|] eqn:Hs; [|done].
  destruct (normalize_values (_recency_factor _ <$> _)) as [nr|] eqn:Hr; [|done].
  destruct (normalize_values (_bug_history_factor _ <$> _)) as [nb|] eqn:Hb; [|done].
  simpl in H. injection H as <-.
  assert (∀ (f : Mutant → Q) l,
            (∀ m1 m2, m1 ∈ mutants → m2 ∈ mutants → (f m1 == f m2)%Q) →
            normalize_values (f <$> mutants) = Some l →
            Forall (fun x => x = 0.5%Q) l) as Hhalf.
  { intros f l Hf Hl. apply normalize_values_uniform in Hl as ->.
    - by apply Forall_replicate.
    - intros x y Hx Hy.
      apply list_elem_of_fmap in Hx as (m1 & -> & Hm1).
      apply list_elem_of_fmap in Hy as (m2 & -> & Hm2). by apply Hf. }
  pose (any := fun _ : Q => True).
  assert (∀ l, Forall any l) as Hany.
  { intros l. apply Forall_forall. by intros. }
  destruct name.
  - apply (build_result_values _ (fun x => x = 0.5%Q) any any any any);
      solve [eauto | apply map_Forall_empty | (simpl; intros; subst; done)].
  - apply (build_result_values _ any (fun x => x = 0.5%Q) any any any);
      solve [eauto | apply map_Forall_empty | (simpl; intros; subst; done)].
  - apply (build_result_values _ any any (fun x => x = 0.5%Q) any any);
      solve [eauto | apply map_Forall_empty | (simpl; intros; subst; done)].
  - apply (build_result_values _ any any any (fun x => x = 0.5%Q) any);
      solve [eauto | apply map_Forall_empty | (simpl; intros; subst; done)].
  - apply (build_result_values _ any any any any (fun x => x = 0.5%Q));
      solve [eauto | apply map_Forall_empty | (simpl; intros; subst; done)].
Qed.

Lemma compute_normalized_factors_covers (mutants : list Mutant)
    (normalized : gmap string Factors) (m : Mutant) :
  _compute_normalized_factors mutants = Some normalized →
  m ∈ mutants → is_Some (normalized !! id m).
Proof.
  unfold MultiFactorScorer._compute_normalized_factors. intros H Hm.
  destruct (normalize_values (_historical_factor <$> _)) as [nh|] eqn:Hh; [|done].
  destruct (normalize_values (_complexity_factor <$> _)) as [nc|] eqn:Hc; [|done].
  destruct (normalize_values (_security_factor <$> _)) as [ns|] eqn:Hs; [|done].
  destruct (normalize_values (_recency_factor _ <$> _)) as [nr|] eqn:Hr; [|done].
  destruct (normalize_values (_bug_history_factor _ <$> _)) as [nb|] eqn:Hb; [|done].
  simpl in H. injection H as <-.
  apply normalize_values_length in Hh, Hc, Hs, Hr, Hb.
  rewrite length_fmap in Hh, Hc, Hs, Hr, Hb.
  by apply build_result_covers.
Qed.

(** Every entry holds the min-max quotients of the last mutant that bears
    its identifier. *)
Lemma compute_normalized_factors_quotients (mutants : list Mutant)
    (normalized : gmap string Factors) (i : string) (factors : Factors) :
  _compute_normalized_factors mutants = Some normalized →
  normalized !! i = Some factors →
  ∃ l1 bearer l2,
    mutants = l1 ++ bearer :: l2 ∧ id bearer = i ∧ (i ∉ (id <$> l2))
    ∧ ∀ name mn mx,
        least_of (raw_factor name <$> mutants) mn →
        greatest_of (raw_factor name <$> mutants) mx →
        ¬ (mx - mn == 0)%Q →
        (factor_value name factors
         == (raw_factor name bearer - mn) / (mx - mn))%Q.
Proof.
  unfold MultiFactorScorer._compute_normalized_factors. intros H Hi.
  destruct (normalize_values (_historical_factor <$> _)) as [nh|] eqn:Hh; [|done].
  destruct (normalize_values (_complexity_factor <$> _)) as [nc|] eqn:Hc; [|done].
  destruct (normalize_values (_security_factor <$> _)) as [ns|] eqn:Hs; [|done].
  destruct (normalize_values (_recency_factor _ <$> _)) as [nr|] eqn:Hr; [|done].
  destruct (normalize_values (_bug_history_factor _ <$> _)) as [nb|] eqn:Hb; [|done].
  simpl in H. injection H as <-.
  pose proof (normalize_values_length _ _ Hh) as Lh.
  pose proof (normalize_values_length _ _ Hc) as Lc.
  pose proof (normalize_values_length _ _ Hs) as Ls.
  pose proof (normalize_values_length _ _ Hr) as Lr.
  pose proof (normalize_values_length _ _ Hb) as Lb.
  rewrite length_fmap in Lh, Lc, Ls, Lr, Lb.
  apply (build_result_entry _ _ _ _ _ _ _ _ _ Lh Lc Ls Lr Lb) in Hi
    as [(l1 & bearer & l2 & Heq & Hid & Hl2 & Eh & Ec & Es & Er & Eb)|[_ Hi]];
    [|by rewrite lookup_empty in Hi].
  exists l1, bearer, l2. split; [done|]. split; [done|]. split; [done|].
  assert (∀ f : Mutant → Q, (f <$> mutants) !! length l1 = Some (f bearer))
    as Hat.
  { intros f. rewrite list_lookup_fmap, Heq.
    rewrite lookup_app_r, Nat.sub_diag by lia. done. }
  intros name mn mx Hmn Hmx Hne. destruct name.
  - exact (normalize_values_at _ _ _ _ _ _ _ Hh (Hat _) Eh Hmn Hmx Hne).
  - exact (normalize_values_at _ _ _ _ _ _ _ Hc (Hat _) Ec Hmn Hmx Hne).
  - exact (normalize_values_at _ _ _ _ _ _ _ Hs (Hat _) Es Hmn Hmx Hne).
  - exact (normalize_values_at _ _ _ _ _ _ _ Hr (Hat _) Er Hmn Hmx Hne).
  - exact (normalize_values_at _ _ _ _ _ _ _ Hb (Hat _) Eb Hmn Hmx Hne).
Qed.

(** C2.  On a non-empty batch [_compute_normalized_factors] returns, and
    every mutant of the batch has an entry.  Every normalized value of
    every factor lies in [0, 1]; a factor whose raw values are all equal in
    the batch is 0.5 for every mutant; and when the least raw value [mn] and
    the greatest [mx] of a factor differ, the value is the quotient
    (v - mn) / (mx - mn) of the raw value [v] of the mutant, the last one of
    the batch with this identifier. *)
Theorem normalized_factors_spec (mutants : list Mutant) :
  mutants ≠ [] →
  ∃ normalized,
    _compute_normalized_factors mutants = Some normalized
    ∧ ∀ m, m ∈ mutants →
        ∃ factors,
          normalized !! id m = Some factors
          ∧ (∀ name,
               (0 <= factor_value name factors <= 1)%Q
               ∧ ((∀ m1 m2, m1 ∈ mutants → m2 ∈ mutants →
                     (raw_factor name m1 == raw_factor name m2)%Q) →
                  factor_value name factors = 0.5%Q))
          ∧ ∃ l1 bearer l2,
              mutants = l1 ++ bearer :: l2
              ∧ id bearer = id m ∧ (id m ∉ (id <$> l2))
              ∧ ∀ name mn mx,
                  least_of (raw_factor name <$> mutants) mn →
                  greatest_of (raw_factor name <$> mutants) mx →
                  ¬ (mx - mn == 0)%Q →
                  (factor_value name factors
                   == (raw_factor name bearer - mn) / (mx - mn))%Q.
Proof.
  intros Hne.
  destruct (compute_normalized_factors_is_Some mutants Hne) as [normalized Hn].
  exists normalized. split; [done|]. intros m Hm.
  destruct (compute_normalized_factors_covers _ _ _ Hn Hm) as [factors Hf].
  exists factors. split; [done|]. split.
  - intros name. split.
    + by apply (compute_normalized_factors_bounds _ _ Hn _ _ Hf).
    + intros Hall.
      by apply (compute_normalized_factors_uniform name _ _ Hall Hn _ _ Hf).
  - by apply (compute_normalized_factors_quotients _ _ _ _ Hn Hf).
Qed.

(** ** [score_all] and [score_single] *)

Lemma precompute_metrics_length (cache : gmap string CodeMetrics)
    (mutants : list Mutant) :
  length (_precompute_metrics cache mutants).1 = length mutants.
Proof.
  revert cache. induction mutants as [|m mutants IH]; intros cache; [done|].
  simpl. destruct (attach_metrics _ _ cache m) as [m1 cache1].
  specialize (IH cache1).
  destruct (_precompute_metrics cache1 mutants) as [rest cache2].
  simpl in *. by rewrite IH.
Qed.

Lemma weighted_bounds (factors : Factors) :
  (∀ name, unit_interval (factor_value name factors)) →
  (0 <= weighted factors * 10 <= 10)%Q.
Proof.
  intros H.
  pose proof (H Historical) as [? ?]. pose proof (H Complexity) as [? ?].
  pose proof (H Security) as [? ?]. pose proof (H Recency) as [? ?].
  pose proof (H BugHistory) as [? ?].
  unfold weighted, WEIGHTS. simpl in *. lra.
Qed.

Lemma score_all_empty (cache : gmap string CodeMetrics) :
  score_all cache [] = None.
Proof. reflexivity. Qed.

(** [score_all] returns on every non-empty batch. *)
Lemma score_all_is_Some (cache : gmap string CodeMetrics) (mutants : list Mutant) :
  mutants ≠ [] → is_Some (score_all cache mutants).
Proof.
  intros Hne. unfold MultiFactorScorer.score_all.
  pose proof (precompute_metrics_length cache mutants) as Hlen.
  destruct (_precompute_metrics cache mutants) as [mutants1 cache1]. simpl in Hlen.
  assert (mutants1 ≠ []) as Hne1.
  { intros ->. destruct mutants; [done|]. simpl in Hlen. lia. }
  destruct (compute_normalized_factors_is_Some mutants1 Hne1) as [normalized Hn].
  rewrite Hn. simpl.
  assert (is_Some (mapM (fun m =>
            s ← _calculate_weighted_score m normalized;
            Some (set_priority_score s m)) mutants1)) as [mutants2 ->].
  { apply mapM_is_Some. apply Forall_forall. intros m Hm.
    destruct (compute_normalized_factors_covers _ _ _ Hn Hm) as [factors Hf].
    simpl. unfold _calculate_weighted_score. rewrite Hf. simpl. by eexists. }
  simpl. by eexists.
Qed.

(** Whenever [score_all] returns, every mutant of the returned list has its
    [priority_score] in [0, 10]. *)
Lemma score_all_scores_in_range (cache cache' : gmap string CodeMetrics)
    (mutants scored : list Mutant) :
  score_all cache mutants = Some (scored, cache') →
  Forall (fun m => (0 <= priority_score m <= 10)%Q) scored.
Proof.
  unfold MultiFactorScorer.score_all.
  destruct (_precompute_metrics cache mutants) as [mutants1 cache1].
  destruct (_compute_normalized_factors mutants1) as [normalized|] eqn:Hn; [|done].
  simpl.
  destruct (mapM _ mutants1) as [mutants2|] eqn:Hm; [|done].
  simpl. intros [= <- <-].
  rewrite stable_sort_Permutation.
  apply mapM_Some in Hm.
  pose proof (compute_normalized_factors_bounds _ _ Hn) as Hbounds. clear Hn.
  induction Hm as [|m m2 l l2 Hy _ IH]; [constructor|].
  constructor; [|done].
  unfold _calculate_weighted_score in Hy. simpl in Hy.
  destruct (normalized !! id m) as [factors|] eqn:Hf; [|done].
  simpl in Hy. injection Hy as <-. simpl.
  apply weighted_bounds. apply (Hbounds _ _ Hf).
Qed.

(** On a singleton batch every factor is uniform, so every normalized value
    is 0.5 and the score is 5. *)
Lemma uniform_score : (weighted uniform_factors * 10 == 5)%Q.
Proof. reflexivity. Qed.

Lemma score_all_singleton (cache : gmap string CodeMetrics) (m : Mutant) :
  score_all cache [m]
  = Some ([set_priority_score (weighted uniform_factors * 10)
             (attach_metrics analyze_file history cache m).1],
          (attach_metrics analyze_file history cache m).2).
Proof.
  unfold MultiFactorScorer.score_all. simpl.
  destruct (attach_metrics analyze_file history cache m) as [m1 cache1]. simpl.
  unfold MultiFactorScorer._compute_normalized_factors. simpl.
  rewrite !normalize_values_singleton. simpl.
  unfold _calculate_weighted_score. rewrite lookup_insert_eq. reflexivity.
Qed.

Lemma score_single_no_context (cache : gmap string CodeMetrics) (m : Mutant) :
  score_single cache m []
  = Some (_weighted_sum
            (_compute_factors_single math_exp bugs
               (attach_metrics analyze_file history cache m).1),
          (attach_metrics analyze_file history cache m).2).
Proof.
  unfold MultiFactorScorer.score_single. simpl.
  by destruct (attach_metrics analyze_file history cache m) as [m1 cache1].
Qed.

(** C3, amended.  Without context [score_single] returns ten times the
    weighted sum of the raw factors of the mutant, whereas [score_all] on
    the singleton batch scores the mutant 5.0 whatever its factors are. *)
Theorem score_single_and_singleton_batch (cache : gmap string CodeMetrics)
    (m : Mutant) :
  let m1 := (attach_metrics analyze_file history cache m).1 in
  let cache1 := (attach_metrics analyze_file history cache m).2 in
  score_single cache m []
  = Some ((weighted (_compute_factors_single math_exp bugs m1) * 10)%Q, cache1)
  ∧ ∃ m', score_all cache [m] = Some ([m'], cache1)
          ∧ (priority_score m' == 5)%Q.
Proof.
  split; [apply score_single_no_context|].
  eexists. split; [apply score_all_singleton|]. apply uniform_score.
Qed.

End ScorerProperties.

(** ** Scoring on concrete batches *)

Lemma normalized_factors_spec_witness :
  ∃ normalized,
    _compute_normalized_factors exp_stand_in ∅ measured_batch = Some normalized
    ∧ ∀ m, m ∈ measured_batch →
        ∃ factors,
          normalized !! id m = Some factors
          ∧ (∀ name,
               (0 <= factor_value name factors <= 1)%Q
               ∧ ((∀ m1 m2, m1 ∈ measured_batch → m2 ∈ measured_batch →
                     (raw_factor exp_stand_in ∅ name m1
                      == raw_factor exp_stand_in ∅ name m2)%Q) →
                  factor_value name factors = 0.5%Q))
          ∧ ∃ l1 bearer l2,
              measured_batch = l1 ++ bearer :: l2
              ∧ id bearer = id m ∧ (id m ∉ (id <$> l2))
              ∧ ∀ name mn mx,
                  least_of (raw_factor exp_stand_in ∅ name <$> measured_batch)
                    mn →
                  greatest_of
                    (raw_factor exp_stand_in ∅ name <$> measured_batch) mx →
                  ¬ (mx - mn == 0)%Q →
                  (factor_value name factors
                   == (raw_factor exp_stand_in ∅ name bearer - mn)
                      / (mx - mn))%Q.
Proof.
  apply (normalized_factors_spec exp_stand_in ∅ measured_batch).
  discriminate.
Defined.

(** On this batch the kill rates are 0.8 and 0.9 and the complexity factors
    0.1 and 0.3, so these two factors become 0 for the first mutant and 1
    for the second; the other three factors are uniform. *)
Example measured_batch_normalized :
  ∃ f1 f2,
    _compute_normalized_factors exp_stand_in ∅ measured_batch
    = Some (<[ "m2" := f2 ]> (<[ "m1" := f1 ]> ∅))
    ∧ (historical f1 == 0)%Q ∧ (historical f2 == 1)%Q
    ∧ (complexity f1 == 0)%Q ∧ (complexity f2 == 1)%Q
    ∧ security f1 = 0.5%Q ∧ recency f2 = 0.5%Q ∧ bug_history f1 = 0.5%Q.
Proof. eexists _, _. split; [reflexivity|]. by vm_compute. Qed.

(** C3, as stated, fails.  On the boundary-condition mutant of
    [test_score_all_basic], with an analyzer that returns the default
    metrics and the default history, [score_single] without context returns
    2.55 + 1.5·exp(-99.9), which is at most 4.05, while [score_all] on the
    singleton batch gives 5.0; this holds for every exponential whose values
    at non-positive arguments lie in [0, 1]. *)
Lemma score_single_disagrees_with_singleton_batch :
  ¬ ∃ math_exp,
      exp_like math_exp
      ∧ singleton_agreement math_exp no_analysis default_history ∅ ∅
          boundary_mutant.
Proof.
  intros (e & He & H).
  specialize (H _ _ _ _
    (score_single_no_context e no_analysis default_history ∅ ∅ boundary_mutant)
    (score_all_singleton e no_analysis default_history ∅ ∅ boundary_mutant)).
  assert (_compute_factors_single e ∅
            (attach_metrics no_analysis default_history ∅ boundary_mutant).1
          = mkFactors (inject_Z 85 / inject_Z 100)
              (_complexity_factor
                 (set_code_metrics default_CodeMetrics boundary_mutant))
              0 (e (- inject_Z 999 / 10)%Q) (Qmin (inject_Z 0 / 10) 1)) as Hf
    by reflexivity.
  rewrite Hf in H. clear Hf.
  destruct (He (- inject_Z 999 / 10)%Q) as [H0 H1]; [done|].
  unfold _weighted_sum, weighted, WEIGHTS in H. simpl in H.
  assert (_complexity_factor
            (set_code_metrics default_CodeMetrics boundary_mutant) == 0)%Q
    as Hc by reflexivity.
  assert (Qmin (inject_Z 0 / 10) 1 == 0)%Q as Hb by reflexivity.
  assert (inject_Z 85 / inject_Z 100 == 0.85)%Q as Hh by reflexivity.
  rewrite Hc, Hb, Hh in H. lra.
Qed.

(** ** Coverage estimation *)

Lemma colon_free_empty : colon_free EmptyString.
Proof. intros [|c s1] s2; discriminate. Qed.

Lemma colon_free_cons (c : ascii) (s : string) :
  c ≠ ":"%char → colon_free s → colon_free (String c s).
Proof.
  intros Hc Hs [|c1 s1] s2; simpl; intros [= ? ?]; [done|].
  by eapply Hs.
Qed.

Lemma pretty_N_char_not_colon (x : N) : pretty_N_char x ≠ ":"%char.
Proof. unfold pretty_N_char. by repeat case_match. Qed.

Lemma pretty_N_go_colon_free (x : N) (s : string) :
  colon_free s → colon_free (pretty_N_go x s).
Proof.
  revert s. induction (N.lt_wf_0 x) as [x _ IH]; intros s Hs.
  assert (x = 0 ∨ 0 < x)%N as [->|Hx] by lia.
  - by rewrite pretty_N_go_0.
  - rewrite pretty_N_go_step by done. apply IH.
    + by apply N.div_lt.
    + apply colon_free_cons; [apply pretty_N_char_not_colon|done].
Qed.

Lemma pretty_N_colon_free (x : N) : colon_free (pretty x).
Proof.
  unfold pretty, pretty_N. case_decide.
  - apply colon_free_cons; [done|apply colon_free_empty].
  - apply pretty_N_go_colon_free, colon_free_empty.
Qed.

Lemma pretty_Z_colon_free (z : Z) : colon_free (pretty z).
Proof.
  destruct z as [|p|p]; unfold pretty, pretty_Z.
  - apply colon_free_cons; [done|apply colon_free_empty].
  - apply pretty_N_colon_free.
  - apply colon_free_cons; [done|]. apply pretty_N_colon_free.
Qed.

Lemma location_key_inj (p1 p2 : string) (z1 z2 : Z) :
  p1 +:+ ":" +:+ pretty z1 = p2 +:+ ":" +:+ pretty z2 → p1 = p2 ∧ z1 = z2.
Proof.
  revert p2. induction p1 as [|c1 p1 IH]; intros [|c2 p2]; simpl; intros H.
  - injection H as H. split; [done|]. by apply (inj pretty).
  - injection H as _ H. by destruct (pretty_Z_colon_free z1 p2 (pretty z2)).
  - injection H as _ H. by destruct (pretty_Z_colon_free z2 p1 (pretty z1)).
  - injection H as -> H. by destruct (IH _ H) as [-> ->].
Qed.

Lemma location_str_inj (m m' : Mutant) :
  location_str m = location_str m' →
  file_path (location m) = file_path (location m')
  ∧ line_start (location m) = line_start (location m').
Proof. apply location_key_inj. Qed.

Lemma foldl_add_names {A} (f : A → string) (l : list A) (acc : gset string) :
  foldl (fun test_names i => {[ f i ]} ∪ test_names) acc l
  = list_to_set (f <$> l) ∪ acc.
Proof.
  revert acc. induction l as [|x l IH]; intros acc; simpl.
  - apply leibniz_equiv. intros y. rewrite elem_of_union, elem_of_empty. tauto.
  - rewrite IH. apply leibniz_equiv. intros y.
    rewrite !elem_of_union, elem_of_singleton. tauto.
Qed.

Lemma test_name_inj (path : string) (a b : Z) :
  test_name path a = test_name path b → a = b.
Proof.
  unfold test_name. intros H.
  do 3 apply (inj (String.app _)) in H. by apply (inj pretty).
Qed.

Section CoverageMapperProperties.
Variable md5_int : string → Z.

Lemma generate_test_set_list (m : Mutant) :
  _generate_test_set md5_int m
  = list_to_set
      ((fun i => test_name (file_path (location m))
                   ((md5_int (location_str m) + i) `mod` 1000))
       <$> seqZ 0 (3 + md5_int (location_str m) `mod` 6)).
Proof.
  unfold _generate_test_set. rewrite foldl_add_names.
  apply leibniz_equiv. intros y. rewrite elem_of_union, elem_of_empty. tauto.
Qed.

Lemma generate_test_set_size (m : Mutant) :
  size (_generate_test_set md5_int m)
  = Z.to_nat (3 + md5_int (location_str m) `mod` 6).
Proof.
  rewrite generate_test_set_list, size_list_to_set.
  - by rewrite length_fmap, length_seqZ.
  - apply NoDup_fmap_2_strong; [|apply NoDup_seqZ].
    intros i j Hi Hj Heq. apply test_name_inj in Heq.
    apply elem_of_seqZ in Hi, Hj.
    revert Hi Hj Heq. generalize (md5_int (location_str m)). intros h Hi Hj Heq.
    Z.div_mod_to_equations. lia.
Qed.

Lemma generate_test_set_size_bounds (m : Mutant) :
  (3 ≤ size (_generate_test_set md5_int m) ≤ 8)%nat.
Proof.
  rewrite generate_test_set_size.
  pose proof (Z.mod_pos_bound (md5_int (location_str m)) 6). lia.
Qed.

(** The generated set depends on the mutant through its file path and its
    start line only. *)
Lemma generate_test_set_location (m m' : Mutant) :
  file_path (location m) = file_path (location m') →
  line_start (location m) = line_start (location m') →
  _generate_test_set md5_int m = _generate_test_set md5_int m'.
Proof.
  intros Hp Hl. unfold _generate_test_set, location_str. by rewrite Hp, Hl.
Qed.

Lemma generated_cache_empty : generated_cache md5_int ∅.
Proof. intros key tests H. by rewrite lookup_empty in H. Qed.

Lemma estimate_coverage_generated (cache : gmap string (gset string))
    (m : Mutant) :
  generated_cache md5_int cache →
  (_estimate_coverage md5_int cache m).1 = _generate_test_set md5_int m
  ∧ generated_cache md5_int (_estimate_coverage md5_int cache m).2.
Proof.
  intros Hc. unfold _estimate_coverage.
  destruct (cache !! location_str m) as [tests|] eqn:Hl; simpl.
  - split; [|done].
    destruct (Hc _ _ Hl) as (m0 & Hkey & ->).
    apply location_str_inj in Hkey as [Hp Hline].
    symmetry. by apply generate_test_set_location.
  - split; [done|]. intros key tests Hk.
    destruct (decide (location_str m = key)) as [<-|Hne].
    + rewrite lookup_insert_eq in Hk. injection Hk as <-. by exists m.
    + rewrite lookup_insert_ne in Hk by done. by apply Hc.
Qed.

(** A second call at the same file and line sees the entry the first call
    found or left, whatever the cache held. *)
Lemma estimate_coverage_repeat (cache : gmap string (gset string))
    (m m' : Mutant) :
  file_path (location m') = file_path (location m) →
  line_start (location m') = line_start (location m) →
  _estimate_coverage md5_int (_estimate_coverage md5_int cache m).2 m'
  = ((_estimate_coverage md5_int cache m).1,
     (_estimate_coverage md5_int cache m).2).
Proof.
  intros Hp Hline.
  assert (location_str m' = location_str m) as Hkey.
  { unfold location_str. by rewrite Hp, Hline. }
  unfold _estimate_coverage. rewrite Hkey.
  destruct (cache !! location_str m) as [tests|] eqn:Hl; simpl.
  - by rewrite Hl.
  - by rewrite lookup_insert_eq.
Qed.

(** C8, amended.  On a cache whose entries all come from the estimator (the
    empty cache of a new mapper, and every cache it grows into), the
    estimator returns the set generated from the file path and start line of
    the mutant, of 3 to 8 test identifiers, and leaves such a cache; and on
    any cache a second call at the same file path and start line returns
    the set of the first. *)
Theorem estimate_coverage_spec (cache : gmap string (gset string)) (m : Mutant) :
  (generated_cache md5_int cache →
   (3 ≤ size (_estimate_coverage md5_int cache m).1 ≤ 8)%nat
   ∧ (∀ m', file_path (location m') = file_path (location m) →
            line_start (location m') = line_start (location m) →
            (_estimate_coverage md5_int cache m).1
            = _generate_test_set md5_int m')
   ∧ generated_cache md5_int (_estimate_coverage md5_int cache m).2)
  ∧ (∀ m', file_path (location m') = file_path (location m) →
           line_start (location m') = line_start (location m) →
           (_estimate_coverage md5_int
              (_estimate_coverage md5_int cache m).2 m').1
           = (_estimate_coverage md5_int cache m).1).
Proof.
  split.
  - intros Hc. destruct (estimate_coverage_generated cache m Hc) as [-> Hc'].
    split; [apply generate_test_set_size_bounds|]. split; [|done].
    intros m' Hp Hline. symmetry. by apply generate_test_set_location.
  - intros m' Hp Hline. by rewrite estimate_coverage_repeat.
Qed.

(** [map_mutant_coverage] keeps such a cache, and every set of the map it
    returns has 3 to 8 elements. *)
Lemma map_mutant_coverage_generated (cache : gmap string (gset string))
    (mutants : list Mutant) :
  generated_cache md5_int cache →
  map_Forall (fun _ tests => (3 ≤ size tests ≤ 8)%nat)
    (map_mutant_coverage md5_int cache mutants).1
  ∧ generated_cache md5_int (map_mutant_coverage md5_int cache mutants).2.
Proof.
  unfold map_mutant_coverage.
  assert (map_Forall (fun _ tests => (3 ≤ size tests ≤ 8)%nat)
            (∅ : gmap string (gset string))) as Hcm by apply map_Forall_empty.
  revert Hcm. generalize (∅ : gmap string (gset string)) as coverage_map.
  revert cache. induction mutants as [|m mutants IH];
    intros cache coverage_map Hcm Hc; [done|].
  simpl. destruct (estimate_coverage_generated cache m Hc) as [Htests Hc'].
  destruct (_estimate_coverage md5_int cache m) as [tests cache'].
  simpl in Htests, Hc'. apply IH; [|done].
  apply map_Forall_insert_2; [|done].
  rewrite Htests. apply generate_test_set_size_bounds.
Qed.

End CoverageMapperProperties.

Lemma estimate_coverage_spec_witness :
  (3 ≤ size (_estimate_coverage constant_digest ∅ boundary_mutant).1 ≤ 8)%nat.
Proof.
  apply (estimate_coverage_spec constant_digest ∅ boundary_mutant).
  apply generated_cache_empty.
Defined.

(** C8, as stated, fails once [load_actual_coverage] has put an entry at the
    key of the mutant: the estimator returns that entry, here two recorded
    tests, whatever the digest is. *)
Lemma estimate_coverage_overridden :
  ¬ ∃ md5_int,
      (3 ≤ size (_estimate_coverage md5_int
                   (load_actual_coverage ∅ recorded_coverage)
                   boundary_mutant).1 ≤ 8)%nat.
Proof.
  intros (md5_int & H).
  assert (_estimate_coverage md5_int
            (load_actual_coverage ∅ recorded_coverage) boundary_mutant
          = ({[ "test_lower_bound"; "test_upper_bound" ]},
             load_actual_coverage ∅ recorded_coverage)) as Heq by reflexivity.
  rewrite Heq in H. vm_compute in H. lia.
Qed.

(** ** Stage three on a pair of mutants *)

Lemma group_by_file_pair (x y : Mutant) :
  file_path (location x) = file_path (location y) →
  group_by_file [x; y] = [(file_path (location x), [x; y])].
Proof.
  intros Hp. unfold group_by_file. simpl. by rewrite decide_True.
Qed.

Lemma stable_sort_pair {A} (before : A → A → bool) (x y : A) :
  stable_sort before [x; y] = if before y x then [y; x] else [x; y].
Proof. reflexivity. Qed.

Lemma apply_operator_subsumption_pair (self : SubsumptionAnalyzer) (x y : Mutant) :
  file_path (location x) = file_path (location y) →
  (_apply_operator_subsumption self [x; y]).1
  = filter (fun m => id m ∉ (scan_file (stable_sort line_before [x; y])
                               (∅, stats self)).1) [x; y].
Proof.
  intros Hp. unfold _apply_operator_subsumption.
  by rewrite group_by_file_pair.
Qed.

(** The boundary-condition mutant in front: the scan removes the other one
    exactly when it lies within the window. *)
Lemma scan_file_boundary_first (b n : Mutant) (st : Stats) :
  operator b = BOUNDARY_CONDITION → operator n = NEGATE_CONDITIONAL →
  (scan_file [b; n] (∅, st)).1
  = if 5 <? Z.abs (line_start (location n) - line_start (location b))
    then ∅ else {[ id n ]} ∪ ∅.
Proof.
  intros Hb Hn. simpl. rewrite Hb, Hn. simpl.
  rewrite decide_False by apply not_elem_of_empty.
  by destruct (5 <? _).
Qed.

(** The negate-conditional mutant in front: nothing is removed. *)
Lemma scan_file_negate_first (b n : Mutant) (st : Stats) :
  operator b = BOUNDARY_CONDITION → operator n = NEGATE_CONDITIONAL →
  (scan_file [n; b] (∅, st)).1 = ∅.
Proof. intros Hb Hn. simpl. by rewrite Hb, Hn. Qed.

Lemma filter_pair_none (x y : Mutant) :
  filter (fun m => id m ∉ (∅ : gset string)) [x; y] = [x; y].
Proof.
  rewrite !filter_cons, !decide_True by apply not_elem_of_empty. done.
Qed.

Lemma filter_pair_second (x y : Mutant) :
  id x ≠ id y →
  filter (fun m => id m ∉ ({[ id y ]} ∪ ∅ : gset string)) [x; y] = [x].
Proof.
  intros Hne. rewrite !filter_cons.
  rewrite decide_True, decide_False; [done| |].
  - intros H. apply H. apply elem_of_union. left. by apply elem_of_singleton.
  - intros [H|H]%elem_of_union; [by apply elem_of_singleton in H|].
    by apply not_elem_of_empty in H.
Qed.

Lemma filter_pair_first (x y : Mutant) :
  id x ≠ id y →
  filter (fun m => id m ∉ ({[ id x ]} ∪ ∅ : gset string)) [x; y] = [y].
Proof.
  intros Hne. rewrite !filter_cons.
  rewrite decide_False, decide_True; [done| |].
  - intros [H|H]%elem_of_union; [apply elem_of_singleton in H; congruence|].
    by apply not_elem_of_empty in H.
  - intros H. apply H. apply elem_of_union. left. by apply elem_of_singleton.
Qed.

(** C6, amended.  A boundary-condition mutant [b] and a negate-conditional
    mutant [n] of one file, with distinct identifiers.  With a line gap of
    at most 5, [n] is removed and only [b] survives when [b] comes first in
    line order (a lower start line, or the same start line and [b] listed
    first).  With a gap of 6 or more both survive; both survive too when [n]
    comes first in line order. *)
Theorem operator_subsumption_pair (self : SubsumptionAnalyzer) (b n : Mutant) :
  operator b = BOUNDARY_CONDITION → operator n = NEGATE_CONDITIONAL →
  file_path (location b) = file_path (location n) → id b ≠ id n →
  let gap := Z.abs (line_start (location n) - line_start (location b)) in
  (gap ≤ 5 → line_start (location b) ≤ line_start (location n) →
   (_apply_operator_subsumption self [b; n]).1 = [b])
  ∧ (gap ≤ 5 → line_start (location b) < line_start (location n) →
     (_apply_operator_subsumption self [n; b]).1 = [b])
  ∧ (6 ≤ gap →
     (_apply_operator_subsumption self [b; n]).1 = [b; n]
     ∧ (_apply_operator_subsumption self [n; b]).1 = [n; b])
  ∧ (line_start (location n) < line_start (location b) →
     (_apply_operator_subsumption self [b; n]).1 = [b; n])
  ∧ (line_start (location n) ≤ line_start (location b) →
     (_apply_operator_subsumption self [n; b]).1 = [n; b]).
Proof.
  intros Hb Hn Hp Hid gap. subst gap.
  rewrite !apply_operator_subsumption_pair, !stable_sort_pair by done.
  unfold line_before.
  destruct (Z.ltb_spec (line_start (location n)) (line_start (location b)))
    as [Hlt|Hge];
  destruct (Z.ltb_spec (line_start (location b)) (line_start (location n)))
    as [Hlt'|Hge']; try lia;
  rewrite ?scan_file_boundary_first, ?scan_file_negate_first by done;
  destruct (Z.ltb_spec 5
              (Z.abs (line_start (location n) - line_start (location b))))
    as [Hfar|Hnear];
  repeat split; intros; try lia;
  rewrite ?filter_pair_none; try done;
  rewrite ?filter_pair_second, ?filter_pair_first by done; done.
Qed.

Lemma operators_related_trans (a b c : MutationOperator) :
  _are_operators_related a b = true → _are_operators_related b c = true →
  _are_operators_related a c = true.
Proof. destruct a, b; try discriminate; destruct c; done. Qed.

Lemma operators_related_refl (a : MutationOperator) :
  _are_operators_related a a = true.
Proof. by destruct a. Qed.

Lemma NoDup_fmap_elem_inj {A B} (f : A → B) (l : list A) (x y : A) :
  NoDup (f <$> l) → x ∈ l → y ∈ l → f x = f y → x = y.
Proof.
  induction l as [|a l IH]; simpl; intros Hnd Hx Hy Heq;
    [by apply elem_of_nil in Hx|].
  apply NoDup_cons in Hnd as [Ha Hnd].
  apply elem_of_cons in Hx as [->|Hx]; apply elem_of_cons in Hy as [->|Hy].
  - done.
  - destruct Ha. rewrite Heq. by apply list_elem_of_fmap_2.
  - destruct Ha. rewrite <- Heq. by apply list_elem_of_fmap_2.
  - by apply IH.
Qed.

Lemma filter_length_mono {A} (P Q : A → Prop)
    `{!∀ x, Decision (P x)} `{!∀ x, Decision (Q x)} (l : list A) :
  (∀ x, P x → Q x) → (length (filter P l) ≤ length (filter Q l))%nat.
Proof.
  intros HPQ. induction l as [|x l IH]; [done|].
  rewrite !filter_cons.
  destruct (decide (P x)) as [HP|HP].
  - rewrite decide_True by auto. simpl. lia.
  - case_decide; simpl; lia.
Qed.

Section StageFour.
Variable coverage_map : gmap string (gset string).

Local Abbreviation cov := (coverage_get coverage_map).

Lemma dominates_trans (m1 m2 m3 : Mutant) :
  dominates coverage_map m1 m2 = true → dominates coverage_map m2 m3 = true →
  dominates coverage_map m1 m3 = true.
Proof.
  unfold dominates. rewrite !andb_true_iff, !bool_decide_eq_true.
  intros [[Hr1 Hs1] _] [[Hr2 Hs2] Hn]. split_and!.
  - by eapply operators_related_trans.
  - by etrans.
  - done.
Qed.

(** One step of the inner loop. *)
Lemma compare_later_cons (threshold : Q) (m1 m2 : Mutant) (later : list Mutant)
    (st : gset string * Stats) :
  compare_later threshold coverage_map m1 (cov (id m1)) (m2 :: later) st
  = if decide (id m2 ∈ st.1)
    then compare_later threshold coverage_map m1 (cov (id m1)) later st
    else if dominates coverage_map m1 m2
              && Qle_bool threshold (jaccard (cov (id m1)) (cov (id m2)))
    then compare_later threshold coverage_map m1 (cov (id m1)) later
           ({[id m2]} ∪ st.1, bump_coverage_subsumed st.2)
    else compare_later threshold coverage_map m1 (cov (id m1)) later st.
Proof.
  simpl. unfold dominates. destruct (decide (id m2 ∈ st.1)); [done|].
  destruct (_are_operators_related (operator m1) (operator m2)); simpl; [|done].
  destruct (bool_decide (cov (id m2) ⊆ cov (id m1))); simpl; [|done].
  by destruct (bool_decide (0 < size (cov (id m2)))%nat).
Qed.

Lemma compare_later_mono (threshold : Q) (m1 : Mutant) (later : list Mutant)
    (st : gset string * Stats) :
  st.1 ⊆ (compare_later threshold coverage_map m1 (cov (id m1)) later st).1.
Proof.
  revert st. induction later as [|m2 later IH]; intros st; [done|].
  rewrite compare_later_cons.
  repeat case_match; try apply IH.
  etrans; [|apply IH]. simpl. apply union_subseteq_r.
Qed.

(** What the inner loop adds: identifiers of mutants of [later] that [m1]
    dominates with enough similarity. *)
Lemma compare_later_added (threshold : Q) (m1 : Mutant) (later : list Mutant)
    (st : gset string * Stats) (x : string) :
  x ∈ (compare_later threshold coverage_map m1 (cov (id m1)) later st).1 →
  x ∈ st.1
  ∨ ∃ m2, m2 ∈ later ∧ id m2 = x ∧ dominates coverage_map m1 m2 = true
          ∧ (threshold <= jaccard (cov (id m1)) (cov (id m2)))%Q.
Proof.
  revert st. induction later as [|m2 later IH]; intros st; [by left|].
  rewrite compare_later_cons. intros Hx.
  assert (∀ st', x ∈ (compare_later threshold coverage_map m1 (cov (id m1))
                        later st').1 →
                 x ∈ st'.1 ∨ ∃ m0, m0 ∈ m2 :: later ∧ id m0 = x
                    ∧ dominates coverage_map m1 m0 = true
                    ∧ (threshold <= jaccard (cov (id m1)) (cov (id m0)))%Q)
    as IH'.
  { intros st' H. destruct (IH _ H) as [|(m0 & ? & ?)]; [by left|].
    right. exists m0. split; [by right|done]. }
  destruct (decide (id m2 ∈ st.1)); [by apply IH'|].
  destruct (dominates coverage_map m1 m2) eqn:Hd; simpl in Hx; [|by apply IH'].
  destruct (Qle_bool threshold _) eqn:Hq; [|by apply IH'].
  destruct (IH' _ Hx) as [Hin|]; [|by right]. simpl in Hin.
  apply elem_of_union in Hin as [Hin|]; [|by left].
  apply elem_of_singleton in Hin as ->. right. exists m2.
  split; [by left|]. split; [done|]. split; [done|]. by apply Qle_bool_iff.
Qed.

Lemma compare_pairs_mono (threshold : Q) (mutants : list Mutant) (st : gset string * Stats) :
  st.1 ⊆ (compare_pairs threshold coverage_map mutants st).1.
Proof.
  revert st. induction mutants as [|m1 later IH]; intros st; [done|].
  simpl. case_decide; [apply IH|].
  etrans; [|apply IH]. apply compare_later_mono.
Qed.

(** The outer loop adds identifiers of the list only. *)
Lemma compare_pairs_ids (threshold : Q) (mutants : list Mutant) (st : gset string * Stats)
    (x : string) :
  x ∈ (compare_pairs threshold coverage_map mutants st).1 →
  x ∈ st.1 ∨ x ∈ (id <$> mutants).
Proof.
  revert st. induction mutants as [|m1 later IH]; intros st; [by left|].
  simpl. case_decide; intros Hx.
  - destruct (IH _ Hx); [by left|]. right. by right.
  - destruct (IH _ Hx) as [Hin|]; [|right; by right].
    destruct (compare_later_added _ _ _ _ _ Hin) as [|(m2 & Hm2 & <- & _)];
      [by left|].
    right. right. by apply list_elem_of_fmap_2.
Qed.

(** Every identifier the outer loop adds belongs to a mutant that is
    dominated, with enough similarity, by a mutant in front of it that is
    not removed itself. *)
Lemma compare_pairs_added (threshold : Q) (mutants : list Mutant) (st : gset string * Stats)
    (x : string) :
  NoDup (id <$> mutants) →
  x ∈ (compare_pairs threshold coverage_map mutants st).1 →
  x ∈ st.1
  ∨ ∃ l1 m1 l2 m2 l3,
      mutants = l1 ++ m1 :: l2 ++ m2 :: l3
      ∧ id m2 = x
      ∧ (id m1 ∉ (compare_pairs threshold coverage_map mutants st).1)
      ∧ dominates coverage_map m1 m2 = true
      ∧ (threshold <= jaccard (cov (id m1)) (cov (id m2)))%Q.
Proof.
  revert st. induction mutants as [|m1 later IH]; intros st Hnd; [by left|].
  apply NoDup_cons in Hnd as [Hfresh Hnd]. simpl.
  destruct (decide (id m1 ∈ st.1)) as [Hin|Hout]; intros Hx.
  - destruct (IH _ Hnd Hx) as [|(l1 & a & l2 & b & l3 & -> & ?)]; [by left|].
    right. by exists (m1 :: l1), a, l2, b, l3.
  - destruct (IH _ Hnd Hx) as [Hin|(l1 & a & l2 & b & l3 & -> & ?)].
    + destruct (compare_later_added _ _ _ _ _ Hin)
        as [|(m2 & Hm2 & <- & Hd & Hq)]; [by left|].
      right. apply list_elem_of_split in Hm2 as (l2 & l3 & ->).
      exists [], m1, l2, m2, l3. split; [done|]. split; [done|].
      split; [|done]. intros Hm1.
      apply compare_pairs_ids in Hm1 as [Hm1|Hm1]; [|done].
      apply compare_later_added in Hm1 as [|(m0 & Hm0 & Hid & _)]; [done|].
      apply Hfresh. rewrite <- Hid. by apply list_elem_of_fmap_2.
    + right. by exists (m1 :: l1), a, l2, b, l3.
Qed.


Lemma jaccard_nonneg (c1 c2 : gset string) : (0 <= jaccard c1 c2)%Q.
Proof.
  unfold jaccard, Qdiv. apply Qmult_le_0_compat.
  - change 0%Q with (inject_Z 0). rewrite <- Zle_Qle. lia.
  - apply Qinv_le_0_compat.
    change 0%Q with (inject_Z 0). rewrite <- Zle_Qle. lia.
Qed.

(** With threshold 0 the inner loop removes every mutant of [later] that
    [m1] dominates. *)
Lemma compare_later_zero_complete (m1 m2 : Mutant) (later : list Mutant)
    (st : gset string * Stats) :
  m2 ∈ later → dominates coverage_map m1 m2 = true →
  id m2 ∈ (compare_later 0 coverage_map m1 (cov (id m1)) later st).1.
Proof.
  intros Hm2 Hd. revert st.
  induction later as [|m later IH]; intros st; [by apply elem_of_nil in Hm2|].
  rewrite compare_later_cons.
  apply elem_of_cons in Hm2 as [<-|Hm2].
  - destruct (decide (id m2 ∈ st.1)) as [Hin|Hout].
    + by apply compare_later_mono.
    + rewrite Hd. simpl.
      assert (Qle_bool 0 (jaccard (cov (id m1)) (cov (id m2))) = true) as ->.
      { apply Qle_bool_iff, jaccard_nonneg. }
      apply compare_later_mono. simpl. apply elem_of_union. left.
      by apply elem_of_singleton.
  - repeat case_match; by apply IH.
Qed.

Lemma closed_after_zero (m1 : Mutant) (rest l : list Mutant)
    (st : gset string * Stats) :
  NoDup (id <$> rest) → (∀ m, m ∈ l → m ∈ rest) →
  closed coverage_map st.1 l →
  closed coverage_map
    (compare_later 0 coverage_map m1 (cov (id m1)) rest st).1 l.
Proof.
  intros Hnd. induction l as [|m l IH]; intros Hsub Hcl; [done|].
  destruct Hcl as [Hm Hcl]. split.
  - intros Hin m2 Hm2 Hd.
    apply compare_later_added in Hin as [Hin|(m' & Hm' & Hid & Hd' & _)].
    + apply compare_later_mono. by apply (Hm Hin m2).
    + assert (m' = m) as ->.
      { apply (NoDup_fmap_elem_inj id rest); [done..| |done].
        apply Hsub. by left. }
      apply compare_later_zero_complete.
      * apply Hsub. by right.
      * by eapply dominates_trans.
  - apply IH; [|done]. intros m0 Hm0. apply Hsub. by right.
Qed.

(** Whatever a run at [threshold] removes, the run at 0 removes. *)
Lemma compare_pairs_zero_covers (threshold : Q) (mutants : list Mutant)
    (st st0 : gset string * Stats) :
  NoDup (id <$> mutants) → st.1 ⊆ st0.1 → closed coverage_map st0.1 mutants →
  (compare_pairs threshold coverage_map mutants st).1
  ⊆ (compare_pairs 0 coverage_map mutants st0).1.
Proof.
  revert st st0. induction mutants as [|m1 rest IH]; intros st st0 Hnd Hsub Hcl;
    [done|].
  apply NoDup_cons in Hnd as [Hfresh Hnd]. destruct Hcl as [Hm1 Hcl]. simpl.
  destruct (decide (id m1 ∈ st.1)) as [Hin|Hout].
  - rewrite decide_True by (by apply Hsub). by apply IH.
  - destruct (decide (id m1 ∈ st0.1)) as [Hin0|Hout0].
    + apply IH; [done| |done]. intros x Hx.
      apply compare_later_added in Hx as [Hx|(m2 & Hm2 & <- & Hd & _)].
      * by apply Hsub.
      * by apply (Hm1 Hin0 m2).
    + apply IH; [done| |].
      * intros x Hx.
        apply compare_later_added in Hx as [Hx|(m2 & Hm2 & <- & Hd & _)].
        -- apply compare_later_mono. by apply Hsub.
        -- by apply compare_later_zero_complete.
      * by apply closed_after_zero.
Qed.

(** The run on a pair whose first mutant subsumes the second. *)
Lemma compare_pairs_pair (threshold : Q) (a b : Mutant) (st : Stats) :
  dominates coverage_map a b = true →
  Qle_bool threshold (jaccard (cov (id a)) (cov (id b))) = true →
  (compare_pairs threshold coverage_map [a; b] (∅, st)).1 = {[ id b ]} ∪ ∅.
Proof.
  intros Hd Hq. cbn [compare_pairs].
  destruct (decide (id a ∈ (∅, st).1)) as [Hin|_];
    [by apply not_elem_of_empty in Hin|].
  rewrite compare_later_cons.
  destruct (decide (id b ∈ (∅, st).1)) as [Hin|_];
    [by apply not_elem_of_empty in Hin|].
  rewrite Hd, Hq. cbn.
  destruct (decide (id b ∈ {[id b]} ∪ ∅)) as [|Hout]; [done|].
  destruct Hout. apply elem_of_union. left. by apply elem_of_singleton.
Qed.

Lemma closed_empty (mutants : list Mutant) : closed coverage_map ∅ mutants.
Proof.
  induction mutants as [|m l IH]; [done|]. split; [|done].
  intros H. by apply not_elem_of_empty in H.
Qed.

End StageFour.

Section CoverageSubsumptionProperties.
Variable md5_int : string → Z.

Lemma apply_coverage_subsumption_survivors (self : SubsumptionAnalyzer)
    (mutants : list Mutant) :
  (_apply_coverage_subsumption md5_int self mutants).1
  = filter (fun m =>
              id m ∉ (compare_pairs (similarity_threshold self)
                        (map_mutant_coverage md5_int (coverage_cache self)
                           mutants).1
                        mutants (∅, stats self)).1)
      mutants.
Proof.
  unfold _apply_coverage_subsumption.
  by destruct (map_mutant_coverage md5_int (coverage_cache self) mutants).
Qed.

(** C4, amended.  On mutants with distinct identifiers, stage four removes a
    mutant B only if a surviving related mutant A has a covering set that
    includes B's non-empty covering set (equal sets count) with Jaccard
    similarity at least the configured threshold. *)
Theorem coverage_subsumption_removals (self : SubsumptionAnalyzer)
    (mutants : list Mutant) :
  NoDup (id <$> mutants) →
  removal_justified (fun c1 c2 => c2 ⊆ c1) md5_int self mutants.
Proof.
  intros Hnd. unfold removal_justified.
  rewrite apply_coverage_subsumption_survivors.
  set (coverage_map :=
         (map_mutant_coverage md5_int (coverage_cache self) mutants).1).
  intros B HB Hgone.
  assert (id B ∈ (compare_pairs (similarity_threshold self) coverage_map
                    mutants (∅, stats self)).1) as Hin.
  { destruct (decide (id B ∈ (compare_pairs (similarity_threshold self)
                coverage_map mutants (∅, stats self)).1)) as [|Hout]; [done|].
    destruct Hgone. by apply list_elem_of_filter. }
  apply compare_pairs_added in Hin
    as [Hin|(l1 & A & l2 & B' & l3 & Heq & Hid & Hsurv & Hd & Hq)]; [| |done].
  { by apply not_elem_of_empty in Hin. }
  assert (A ∈ mutants) as HA.
  { rewrite Heq. apply elem_of_app. right. by left. }
  assert (B' = B) as ->.
  { apply (NoDup_fmap_elem_inj id mutants); [done| |done..].
    rewrite Heq. apply elem_of_app. right. right.
    apply elem_of_app. right. by left. }
  unfold dominates in Hd.
  rewrite !andb_true_iff, !bool_decide_eq_true in Hd.
  destruct Hd as [[Hrel Hsub] Hsize].
  exists A. split_and!; try done.
  - by apply list_elem_of_filter.
  - by apply size_pos_nonempty.
Qed.

(** C5, amended.  On mutants with distinct identifiers, from the same coverage cache,
    stage four at threshold 0 leaves at most as many survivors as at any
    other threshold. *)
Theorem coverage_subsumption_threshold_zero
    (cache : gmap string (gset string)) (threshold : Q) (st st0 : Stats)
    (mutants : list Mutant) :
  NoDup (id <$> mutants) →
  (length (_apply_coverage_subsumption md5_int
             (mkSubsumptionAnalyzer cache 0 st0) mutants).1
   ≤ length (_apply_coverage_subsumption md5_int
               (mkSubsumptionAnalyzer cache threshold st) mutants).1)%nat.
Proof.
  intros Hnd. rewrite !apply_coverage_subsumption_survivors. simpl.
  apply filter_length_mono. intros m Hm Hin. apply Hm.
  revert Hin. apply compare_pairs_zero_covers; [done..|].
  apply closed_empty.
Qed.

(** The condition on the identifiers is needed: removal is by identifier.
    In [shared_id_batch] the run at threshold 0 removes the identifier ["a"]
    through its first bearer, so the second bearer never removes "b1", "b2"
    and "b3", which it does at threshold 0.5. *)
Example shared_identifier_runs :
  id <$> (_apply_coverage_subsumption md5_int
            (mkSubsumptionAnalyzer (load_actual_coverage ∅ shared_id_coverage)
               0 (mkStats 0 0 0 0 0 0))
            shared_id_batch).1 = ["x"; "b1"; "b2"; "b3"]
  ∧ id <$> (_apply_coverage_subsumption md5_int
              (mkSubsumptionAnalyzer (load_actual_coverage ∅ shared_id_coverage)
                 0.5 (mkStats 0 0 0 0 0 0))
              shared_id_batch).1 = ["x"; "a"; "a"].
Proof. split; vm_compute; reflexivity. Qed.

(** Two mutants on the same line of the same file get the same set. *)
Lemma coverage_map_same_location (a b : Mutant) :
  location_str a = location_str b →
  (map_mutant_coverage md5_int ∅ [a; b]).1
  = <[id b := _generate_test_set md5_int a]>
      (<[id a := _generate_test_set md5_int a]> ∅).
Proof.
  intros Hkey. unfold map_mutant_coverage, _estimate_coverage. simpl.
  rewrite lookup_empty. simpl. by rewrite <- Hkey, lookup_insert_eq.
Qed.

End CoverageSubsumptionProperties.

Lemma jaccard_self (c : gset string) : c ≠ ∅ → (jaccard c c == 1)%Q.
Proof.
  intros Hc. unfold jaccard.
  assert (c ∩ c = c) as ->.
  { apply leibniz_equiv. intros x. rewrite elem_of_intersection. tauto. }
  assert (c ∪ c = c) as ->.
  { apply leibniz_equiv. intros x. rewrite elem_of_union. tauto. }
  apply Qmult_inv_r.
  apply size_pos_nonempty, inject_nat_pos in Hc. lra.
Qed.

Lemma coverage_subsumption_removals_witness :
  removal_justified (fun c1 c2 => c2 ⊆ c1) constant_digest
    (new_SubsumptionAnalyzer ∅ default_similarity_threshold)
    [sum_mutant; product_mutant].
Proof.
  apply (coverage_subsumption_removals constant_digest
           (new_SubsumptionAnalyzer ∅ default_similarity_threshold)
           [sum_mutant; product_mutant]).
  apply (bool_decide_unpack _). vm_compute. exact I.
Defined.

Lemma coverage_subsumption_threshold_zero_witness :
  (length (_apply_coverage_subsumption constant_digest
             (mkSubsumptionAnalyzer (load_actual_coverage ∅ shared_id_coverage)
                0 (mkStats 0 0 0 0 0 0))
             nested_coverage_batch).1
   ≤ length (_apply_coverage_subsumption constant_digest
               (mkSubsumptionAnalyzer
                  (load_actual_coverage ∅ shared_id_coverage)
                  default_similarity_threshold (mkStats 0 0 0 0 0 0))
               nested_coverage_batch).1)%nat.
Proof.
  apply (coverage_subsumption_threshold_zero constant_digest
           (load_actual_coverage ∅ shared_id_coverage)
           default_similarity_threshold (mkStats 0 0 0 0 0 0)
           (mkStats 0 0 0 0 0 0) nested_coverage_batch).
  apply (bool_decide_unpack _). vm_compute. exact I.
Defined.

(** On this batch the threshold decides: at 0 the second mutant is removed,
    at the default 0.90 the similarity 2/3 is too low and both survive. *)
Example nested_coverage_runs :
  id <$> (_apply_coverage_subsumption constant_digest
            (mkSubsumptionAnalyzer (load_actual_coverage ∅ shared_id_coverage)
               0 (mkStats 0 0 0 0 0 0))
            nested_coverage_batch).1 = ["a"]
  ∧ id <$> (_apply_coverage_subsumption constant_digest
              (mkSubsumptionAnalyzer
                 (load_actual_coverage ∅ shared_id_coverage)
                 default_similarity_threshold (mkStats 0 0 0 0 0 0))
              nested_coverage_batch).1 = ["a"; "b1"].
Proof. split; vm_compute; reflexivity. Qed.

(** C5, as stated, fails.  "For every input collection" includes
    collections in which two mutants share an identifier.  In
    [shared_id_batch] the run at threshold 0 leaves four survivors and the
    run at threshold 0.5 leaves three, whatever the digest: the coverage of
    all six lines is in the cache. *)
Lemma threshold_zero_with_shared_identifier :
  ¬ ∀ (md5_int : string → Z) (cache : gmap string (gset string))
      (threshold : Q) (st st0 : Stats) (mutants : list Mutant),
      (0 < threshold)%Q →
      (length (_apply_coverage_subsumption md5_int
                 (mkSubsumptionAnalyzer cache 0 st0) mutants).1
       ≤ length (_apply_coverage_subsumption md5_int
                   (mkSubsumptionAnalyzer cache threshold st) mutants).1)%nat.
Proof.
  intros H.
  specialize (H constant_digest (load_actual_coverage ∅ shared_id_coverage)
                0.5%Q (mkStats 0 0 0 0 0 0) (mkStats 0 0 0 0 0 0)
                shared_id_batch eq_refl).
  vm_compute in H. lia.
Qed.

(** C4, as stated, fails.  Two related mutants on one line of one file have
    the same covering set, whatever the digest; the second is removed
    although no set is a proper superset of its own. *)
Lemma equal_coverage_is_removed :
  ¬ ∃ md5_int,
      removal_justified (fun c1 c2 => c2 ⊂ c1) md5_int
        (new_SubsumptionAnalyzer ∅ default_similarity_threshold)
        [sum_mutant; product_mutant].
Proof.
  intros (md5_int & H). unfold removal_justified in H.
  rewrite apply_coverage_subsumption_survivors in H.
  unfold new_SubsumptionAnalyzer in H.
  cbn [coverage_cache similarity_threshold stats] in H.
  rewrite coverage_map_same_location in H by reflexivity.
  set (G := _generate_test_set md5_int sum_mutant) in H.
  set (cm := <[id product_mutant := G]> (<[id sum_mutant := G]> ∅)) in H.
  assert (coverage_get cm (id sum_mutant) = G) as Ha.
  { unfold coverage_get, cm.
    rewrite lookup_insert_ne by done. by rewrite lookup_insert_eq. }
  assert (coverage_get cm (id product_mutant) = G) as Hb.
  { unfold coverage_get, cm. by rewrite lookup_insert_eq. }
  assert (G ≠ ∅) as HG.
  { apply size_pos_nonempty.
    pose proof (generate_test_set_size_bounds md5_int sum_mutant). unfold G. lia. }
  assert ((compare_pairs default_similarity_threshold cm
             [sum_mutant; product_mutant] (∅, mkStats 0 0 0 0 0 0)).1
          = {[ id product_mutant ]} ∪ ∅) as HR.
  { apply compare_pairs_pair.
    - unfold dominates. rewrite Ha, Hb.
      rewrite !andb_true_iff, !bool_decide_eq_true. split_and!; [done..|].
      by apply size_pos_nonempty.
    - rewrite Ha, Hb. apply Qle_bool_iff. by rewrite (jaccard_self G HG). }
  rewrite HR in H.
  rewrite (filter_pair_second sum_mutant product_mutant) in H by done.
  destruct (H product_mutant) as (A & HA & _ & Hstrict & _).
  - right. by left.
  - intros Hin. apply list_elem_of_singleton in Hin. discriminate.
  - apply list_elem_of_singleton in HA as ->. rewrite Ha, Hb in Hstrict.
    by destruct Hstrict as [_ []].
Qed.

(** ** Stage three on the concrete pairs *)

Lemma operator_subsumption_pair_witness :
  (_apply_operator_subsumption
     (new_SubsumptionAnalyzer ∅ default_similarity_threshold)
     [boundary_at_10; negate_at_12]).1 = [boundary_at_10].
Proof.
  refine (proj1 (operator_subsumption_pair
                   (new_SubsumptionAnalyzer ∅ default_similarity_threshold)
                   boundary_at_10 negate_at_12 _ _ _ _) _ _);
    [reflexivity | reflexivity | reflexivity | discriminate
    | simpl; lia | simpl; lia].
Defined.

(** C6, as stated, fails.  With the negate-conditional mutant on line 10 and
    the boundary-condition mutant on line 12 the gap is 2, and both mutants
    survive, in either input order. *)
Lemma negate_before_boundary_survives :
  (_apply_operator_subsumption
     (new_SubsumptionAnalyzer ∅ default_similarity_threshold)
     [negate_at_10; boundary_at_12]).1 = [negate_at_10; boundary_at_12]
  ∧ (_apply_operator_subsumption
       (new_SubsumptionAnalyzer ∅ default_similarity_threshold)
       [boundary_at_12; negate_at_10]).1 = [boundary_at_12; negate_at_10].
Proof. split; vm_compute; reflexivity. Qed.

(** ** The pipeline on the batches of the test suite *)

Example remove_exact_duplicates_test :
  let r := _remove_exact_duplicates
             (new_SubsumptionAnalyzer ∅ default_similarity_threshold)
             duplicates_batch in
  id <$> r.1 = ["m1"; "m3"] ∧ exact_duplicates (stats r.2) = 1.
Proof. split; vm_compute; reflexivity. Qed.

Example location_clustering_test :
  let r := _cluster_by_location
             (new_SubsumptionAnalyzer ∅ default_similarity_threshold)
             clustering_batch in
  id <$> r.1 = ["m1"] ∧ location_clustered (stats r.2) = 1.
Proof. split; vm_compute; reflexivity. Qed.

Example operator_subsumption_gap_six :
  id <$> (_apply_operator_subsumption
            (new_SubsumptionAnalyzer ∅ default_similarity_threshold)
            [ new_Mutant "m1" "1" (mkCodeLocation "test.py" 10 10 0 5)
                BOUNDARY_CONDITION "x < 10" "x <= 10";
              new_Mutant "m2" "2" (mkCodeLocation "test.py" 16 16 0 5)
                NEGATE_CONDITIONAL "x < 10" "x >= 10" ]).1
  = ["m1"; "m2"].
Proof. vm_compute. reflexivity. Qed.

Example filter_redundant_test :
  (fun r : list Mutant * SubsumptionAnalyzer => (map id r.1, stats r.2))
    <$> filter_redundant constant_digest
          (new_SubsumptionAnalyzer ∅ default_similarity_threshold)
          duplicates_batch
  = Some (["m1"; "m3"], mkStats 3 1 0 0 0 2).
Proof. vm_compute. reflexivity. Qed.

(** On the empty list the percentage at the end of [filter_redundant]
    divides by zero. *)
Lemma filter_redundant_empty (md5_int : string → Z)
    (self : SubsumptionAnalyzer) :
  filter_redundant md5_int self [] = None.
Proof. reflexivity. Qed.

(** * The rest of the pipeline, the scorer and the trackers *)

(** ** Grouping with [group_append] *)

Lemma filter_none {A} (P : A → Prop) `{!∀ x, Decision (P x)} (l : list A) :
  (∀ x, x ∈ l → ¬ P x) → filter P l = [].
Proof.
  induction l as [|x l IH]; intros Hall; [done|].
  rewrite filter_cons, decide_False by (apply Hall; left).
  apply IH. intros y Hy. apply Hall. by right.
Qed.

Section Grouping.
Context {K : Type} `{EqDecision K}.
Variable key : Mutant → K.

Local Abbreviation grouped l :=
  (foldl (fun groups m => group_append (key m) m groups) [] l).

Lemma group_append_keys (k : K) (m : Mutant) (groups : list (K * list Mutant)) :
  (group_append k m groups).*1
  = if decide (k ∈ groups.*1) then groups.*1 else groups.*1 ++ [k].
Proof.
  induction groups as [|[k0 g] groups IH]; [done|].
  cbn [group_append]. rewrite fmap_cons. cbn [fst].
  destruct (decide (k0 = k)) as [->|Hne]; rewrite fmap_cons; cbn [fst].
  - rewrite decide_True; [done|left].
  - rewrite IH. destruct (decide (k ∈ groups.*1)) as [Hin|Hout].
    + rewrite decide_True; [done|by right].
    + rewrite decide_False; [done|].
      intros [?|?]%elem_of_cons; congruence.
Qed.

Lemma group_append_NoDup (k : K) (m : Mutant) (groups : list (K * list Mutant)) :
  NoDup groups.*1 → NoDup (group_append k m groups).*1.
Proof.
  intros Hnd. rewrite group_append_keys. case_decide; [done|].
  apply NoDup_app. split_and!; [done| |apply NoDup_singleton].
  intros x Hx Hx'. apply list_elem_of_singleton in Hx' as ->. done.
Qed.

Lemma grouped_snoc (l : list Mutant) (m : Mutant) :
  grouped (l ++ [m]) = group_append (key m) m (grouped l).
Proof. by rewrite foldl_app. Qed.

Lemma grouped_NoDup (l : list Mutant) : NoDup (grouped l).*1.
Proof.
  induction l as [|m l IH] using rev_ind; [apply NoDup_nil_2|].
  rewrite grouped_snoc. by apply group_append_NoDup.
Qed.

Lemma grouped_keys (l : list Mutant) (k : K) :
  k ∈ (grouped l).*1 ↔ ∃ m, m ∈ l ∧ key m = k.
Proof.
  induction l as [|m l IH] using rev_ind.
  - split; [by intros ?%elem_of_nil|by intros (m & ?%elem_of_nil & _)].
  - rewrite grouped_snoc, group_append_keys.
    destruct (decide (key m ∈ (grouped l).*1)) as [Hin|Hout].
    + rewrite IH. split.
      * intros (m0 & Hm0 & <-). exists m0. split; [|done].
        apply elem_of_app. by left.
      * intros (m0 & [Hm0| ->%list_elem_of_singleton]%elem_of_app & <-).
        -- by exists m0.
        -- by apply IH.
    + rewrite elem_of_app, list_elem_of_singleton, IH. split.
      * intros [(m0 & Hm0 & <-)| ->].
        -- exists m0. split; [|done]. apply elem_of_app. by left.
        -- exists m. split; [|done]. apply elem_of_app. right. by left.
      * intros (m0 & [Hm0| ->%list_elem_of_singleton]%elem_of_app & <-).
        -- left. by exists m0.
        -- by right.
Qed.

Lemma group_append_content (l : list Mutant) (m : Mutant)
    (groups : list (K * list Mutant)) :
  NoDup groups.*1 →
  (key m ∉ groups.*1 → filter (fun m0 => key m0 = key m) l = []) →
  Forall (fun kg => kg.2 = filter (fun m0 => key m0 = kg.1) l ∧ kg.2 ≠ [])
    groups →
  Forall (fun kg => kg.2 = filter (fun m0 => key m0 = kg.1) (l ++ [m])
                    ∧ kg.2 ≠ [])
    (group_append (key m) m groups).
Proof.
  induction groups as [|[k0 g] groups IH]; intros Hnd Hcover Hall.
  - constructor; [|constructor]. simpl. split; [|done].
    rewrite filter_app, filter_cons, filter_nil, decide_True by done.
    rewrite Hcover; [done|]. apply not_elem_of_nil.
  - rewrite fmap_cons in Hnd, Hcover. cbn [fst] in Hnd, Hcover.
    apply NoDup_cons in Hnd as [Hk0 Hnd].
    apply Forall_cons in Hall as [[Hg Hne] Hall]. cbn [fst snd] in Hg, Hne.
    cbn [group_append]. destruct (decide (k0 = key m)) as [->|Hdiff].
    + constructor; cbn [fst snd].
      * rewrite filter_app, filter_cons, filter_nil, decide_True by done.
        rewrite <- Hg. split; [done|]. by destruct g.
      * rewrite Forall_forall in Hall. apply Forall_forall.
        intros [k1 g1] Hin. destruct (Hall _ Hin) as [Hg1 Hne1].
        cbn [fst snd] in *. split; [|done].
        rewrite filter_app, filter_cons, filter_nil, decide_False, app_nil_r;
          [done|].
        intros Heq. apply Hk0. rewrite Heq.
        by apply (list_elem_of_fmap_2 fst) in Hin.
    + constructor; cbn [fst snd].
      * rewrite filter_app, filter_cons, filter_nil, decide_False, app_nil_r
          by congruence. done.
      * apply IH; [done| |done]. intros Hout. apply Hcover.
        intros [?|?]%elem_of_cons; [congruence|done].
Qed.

(** Each group is the part of the list with its key, in the order of the
    list, and it is not empty. *)
Lemma grouped_content (l : list Mutant) (k : K) (g : list Mutant) :
  (k, g) ∈ grouped l → g = filter (fun m => key m = k) l ∧ g ≠ [].
Proof.
  intros Hin.
  assert (Forall (fun kg => kg.2 = filter (fun m0 => key m0 = kg.1) l
                            ∧ kg.2 ≠ []) (grouped l)) as Hall.
  { clear. induction l as [|m l IH] using rev_ind; [constructor|].
    rewrite grouped_snoc. apply group_append_content;
      [apply grouped_NoDup| |done].
    intros Hout. apply filter_none.
    intros m0 Hm0 Heq. apply Hout, grouped_keys. by exists m0. }
  rewrite Forall_forall in Hall. apply (Hall _ Hin).
Qed.

Lemma grouped_total (l : list Mutant) (m : Mutant) :
  m ∈ l → ∃ g, (key m, g) ∈ grouped l ∧ m ∈ g.
Proof.
  intros Hm.
  assert (key m ∈ (grouped l).*1) as Hk by (apply grouped_keys; by exists m).
  apply list_elem_of_fmap in Hk as ([k g] & Hk & Hin). simpl in Hk. subst k.
  exists g. split; [done|]. destruct (grouped_content _ _ _ Hin) as [-> _].
  by apply list_elem_of_filter.
Qed.

Lemma group_append_concat (k : K) (m : Mutant) (groups : list (K * list Mutant)) :
  concat (group_append k m groups).*2 ≡ₚ m :: concat groups.*2.
Proof.
  induction groups as [|[k0 g] groups IH]; simpl; [done|].
  destruct (decide (k0 = k)); simpl.
  - rewrite <- app_assoc. simpl. symmetry. apply Permutation_middle.
  - rewrite IH. symmetry. apply Permutation_middle.
Qed.

Lemma grouped_concat (l : list Mutant) : concat (grouped l).*2 ≡ₚ l.
Proof.
  induction l as [|m l IH] using rev_ind; [done|].
  rewrite grouped_snoc, group_append_concat, IH.
  by rewrite <- Permutation_cons_append.
Qed.

End Grouping.

(** ** Sorted output of [stable_sort] *)

Section StableSort.
Context {A : Type}.
Variable before : A → A → bool.
Hypothesis before_asym : ∀ x y, before x y = true → before y x = false.
Hypothesis before_negtrans :
  ∀ x y z, before y x = false → before z y = false → before z x = false.

(** [x] may stand in front of [y]. *)
Local Abbreviation ordered := (fun x y => before y x = false).

Lemma insert_by_sorted (x : A) (l : list A) :
  StronglySorted ordered l → StronglySorted ordered (insert_by before x l).
Proof.
  induction 1 as [|y l Hl IH Hy]; simpl.
  - repeat constructor.
  - destruct (before y x) eqn:Hyx.
    + constructor; [done|].
      rewrite insert_by_Permutation. constructor; [|done].
      by apply before_asym.
    + constructor; [by constructor|]. constructor; [done|].
      eapply Forall_impl; [exact Hy|]. intros z Hz. simpl in *.
      by eapply before_negtrans.
Qed.

Lemma stable_sort_sorted (l : list A) :
  StronglySorted ordered (stable_sort before l).
Proof.
  induction l as [|x l IH]; simpl; [constructor|]. by apply insert_by_sorted.
Qed.

(** A list that is in order is left as it is. *)
Lemma stable_sort_fixed (l : list A) :
  StronglySorted ordered l → stable_sort before l = l.
Proof.
  induction 1 as [|x l Hl IH Hx]; [done|]. simpl.
  fold (stable_sort before l). rewrite IH.
  destruct l as [|y l]; [done|]. simpl.
  apply Forall_cons in Hx as [Hxy _]. by rewrite Hxy.
Qed.

End StableSort.

Lemma line_before_asym (m m' : Mutant) :
  line_before m m' = true → line_before m' m = false.
Proof. unfold line_before. rewrite Z.ltb_lt, Z.ltb_ge. lia. Qed.

Lemma line_before_negtrans (x y z : Mutant) :
  line_before y x = false → line_before z y = false → line_before z x = false.
Proof. unfold line_before. rewrite !Z.ltb_ge. lia. Qed.

Lemma score_before_asym (m m' : Mutant) :
  score_before m m' = true → score_before m' m = false.
Proof.
  unfold score_before. rewrite negb_true_iff, negb_false_iff.
  intros H. apply Qle_bool_iff.
  destruct (Qlt_le_dec (priority_score m') (priority_score m)) as [Hlt|Hle].
  - by apply Qlt_le_weak.
  - apply Qle_bool_iff in Hle. congruence.
Qed.

Lemma score_before_negtrans (x y z : Mutant) :
  score_before y x = false → score_before z y = false →
  score_before z x = false.
Proof.
  unfold score_before. rewrite !negb_false_iff, !Qle_bool_iff.
  intros H1 H2. eapply Qle_trans; eauto.
Qed.

(** ** Stage one: [_remove_exact_duplicates] *)

Section StageOne.

Local Abbreviation dedup_loop st0 l :=
  (foldl (fun '(seen, unique, st) m =>
            let key := duplicate_key m in
            if decide (key ∉ (seen : gset _))
            then ({[key]} ∪ seen, unique ++ [m], st)
            else (seen, unique, bump_exact_duplicates st))
         (∅, [], st0) l).

Lemma dedup_loop_spec (st0 : Stats) (l : list Mutant) :
  let '(seen, unique, st) := dedup_loop st0 l in
  (∀ k, k ∈ seen ↔ k ∈ (duplicate_key <$> unique))
  ∧ (∀ k, k ∈ seen ↔ k ∈ (duplicate_key <$> l))
  ∧ unique `sublist_of` l
  ∧ NoDup (duplicate_key <$> unique)
  ∧ (∀ l1 m l2, l = l1 ++ m :: l2 →
       duplicate_key m ∉ (duplicate_key <$> l1) → m ∈ unique)
  ∧ exact_duplicates st
    = exact_duplicates st0 + (Z.of_nat (length l) - Z.of_nat (length unique))
  ∧ same_counters_but 1 st0 st.
Proof.
  induction l as [|m l IH] using rev_ind.
  - assert (∀ k : string * Z * Z * string * string * string,
              k ∈ (∅ : gset _) ↔ k ∈ ([] : list _)) as Hempty.
    { intros k. split; [by intros ?%not_elem_of_empty|by intros ?%elem_of_nil]. }
    simpl. split; [done|]. split; [done|]. split; [done|].
    split; [constructor|]. split; [|split; [lia|by repeat split]].
    intros [|??] ?? Heq; discriminate.
  - rewrite foldl_app. simpl.
    destruct (dedup_loop st0 l) as [[seen unique] st].
    destruct IH as (Hu & Hl & Hsub & Hnd & Hfirst & Hcount & Hsame).
    destruct (decide (duplicate_key m ∉ seen)) as [Hnew|Hold].
    + split_and!.
      * intros k. rewrite fmap_app, elem_of_app, elem_of_union, Hu.
        rewrite elem_of_singleton. simpl. rewrite list_elem_of_singleton. tauto.
      * intros k. rewrite fmap_app, elem_of_app, elem_of_union, Hl.
        rewrite elem_of_singleton. simpl. rewrite list_elem_of_singleton. tauto.
      * by apply sublist_app.
      * rewrite fmap_app. apply NoDup_app. split_and!; [done| |apply NoDup_singleton].
        intros k Hk Hk'. apply list_elem_of_singleton in Hk' as ->.
        by apply Hnew, Hu.
      * intros l1 x l2 Heq Hfresh. apply elem_of_app.
        destruct l2 as [|y l2 _] using rev_ind.
        -- apply app_inj_tail in Heq as [-> ->]. right. by left.
        -- rewrite app_comm_cons, app_assoc in Heq.
           apply app_inj_tail in Heq as [-> ->]. left. by eapply Hfirst.
      * rewrite !length_app. simpl. lia.
      * done.
    + assert (duplicate_key m ∈ seen) as Hin.
      { destruct (decide (duplicate_key m ∈ seen)); [done|]. by destruct Hold. }
      split_and!.
      * done.
      * intros k. rewrite fmap_app, elem_of_app, Hl. simpl.
        rewrite list_elem_of_singleton. split; [by left|].
        intros [?| ->]; [done|]. by apply Hl.
      * by apply sublist_inserts_r.
      * done.
      * intros l1 x l2 Heq Hfresh.
        destruct l2 as [|y l2 _] using rev_ind.
        -- apply app_inj_tail in Heq as [-> ->]. destruct Hfresh. by apply Hl.
        -- rewrite app_comm_cons, app_assoc in Heq.
           apply app_inj_tail in Heq as [-> ->]. by eapply Hfirst.
      * rewrite length_app. simpl. lia.
      * destruct Hsame as (? & ? & ? & ? & ? & ?). by repeat split.
Qed.

Lemma dedup_loop_fixed (st0 : Stats) (l : list Mutant) :
  NoDup (duplicate_key <$> l) →
  (dedup_loop st0 l).1.2 = l ∧ (dedup_loop st0 l).2 = st0.
Proof.
  induction l as [|m l IH] using rev_ind; [done|].
  rewrite fmap_app. intros [Hnd [Hfresh _]]%NoDup_app.
  rewrite foldl_app. simpl. pose proof (dedup_loop_spec st0 l) as Hspec.
  destruct (dedup_loop st0 l) as [[seen unique] st].
  destruct (IH Hnd) as [Hu Hst]. simpl in Hu, Hst. subst unique st.
  destruct Hspec as (_ & Hl & _).
  rewrite decide_True; [done|].
  intros Hin%Hl. apply (Hfresh _ Hin). simpl. by left.
Qed.

Lemma remove_exact_duplicates_props (self : SubsumptionAnalyzer)
    (mutants : list Mutant) :
  let unique := (_remove_exact_duplicates self mutants).1 in
  let self' := (_remove_exact_duplicates self mutants).2 in
  unique `sublist_of` mutants
  ∧ NoDup (duplicate_key <$> unique)
  ∧ (∀ m, m ∈ mutants → duplicate_key m ∈ (duplicate_key <$> unique))
  ∧ (∀ l1 m l2, mutants = l1 ++ m :: l2 →
       duplicate_key m ∉ (duplicate_key <$> l1) → m ∈ unique)
  ∧ exact_duplicates (stats self')
    = exact_duplicates (stats self)
      + (Z.of_nat (length mutants) - Z.of_nat (length unique))
  ∧ same_counters_but 1 (stats self) (stats self')
  ∧ coverage_cache self' = coverage_cache self
  ∧ similarity_threshold self' = similarity_threshold self.
Proof.
  unfold _remove_exact_duplicates.
  pose proof (dedup_loop_spec (stats self) mutants) as Hspec.
  destruct (dedup_loop (stats self) mutants) as [[seen unique] st].
  destruct Hspec as (Hu & Hl & Hsub & Hnd & Hfirst & Hcount & Hsame). simpl.
  split; [done|]. split; [done|]. split.
  { intros m Hm. apply Hu, Hl. by apply list_elem_of_fmap_2. }
  split; [done|]. split; [done|]. split; [done|]. done.
Qed.

(** X1.  Exact-duplicate removal keeps, in input order, the first mutant of
    every duplicate key and nothing else, and counts what it drops. *)
Theorem remove_exact_duplicates_spec (self : SubsumptionAnalyzer)
    (mutants : list Mutant) :
  let '(unique, self') := _remove_exact_duplicates self mutants in
  unique `sublist_of` mutants
  ∧ NoDup (duplicate_key <$> unique)
  ∧ (∀ m, m ∈ mutants → duplicate_key m ∈ (duplicate_key <$> unique))
  ∧ (∀ l1 m l2, mutants = l1 ++ m :: l2 →
       duplicate_key m ∉ (duplicate_key <$> l1) → m ∈ unique)
  ∧ exact_duplicates (stats self')
    = exact_duplicates (stats self)
      + (Z.of_nat (length mutants) - Z.of_nat (length unique)).
Proof.
  pose proof (remove_exact_duplicates_props self mutants) as H.
  destruct (_remove_exact_duplicates self mutants) as [unique self'].
  cbn [fst snd] in H. destruct H as (? & ? & ? & ? & ? & _). done.
Qed.

(** A list without duplicate keys passes unchanged, and nothing is counted. *)
Lemma remove_exact_duplicates_fixed (self : SubsumptionAnalyzer)
    (mutants : list Mutant) :
  NoDup (duplicate_key <$> mutants) →
  _remove_exact_duplicates self mutants = (mutants, self).
Proof.
  intros Hnd. unfold _remove_exact_duplicates.
  destruct (dedup_loop_fixed (stats self) mutants Hnd) as [Hu Hst].
  destruct (dedup_loop (stats self) mutants) as [[seen unique] st].
  simpl in *. subst. by destruct self.
Qed.

(** X2.  Exact-duplicate removal is idempotent: run on its own output it
    returns that list and counts nothing. *)
Theorem remove_exact_duplicates_idempotent (self : SubsumptionAnalyzer)
    (mutants : list Mutant) :
  let '(unique, self') := _remove_exact_duplicates self mutants in
  _remove_exact_duplicates self' unique = (unique, self').
Proof.
  pose proof (remove_exact_duplicates_props self mutants) as H.
  destruct (_remove_exact_duplicates self mutants) as [unique self'].
  cbn [fst snd] in H. destruct H as (_ & Hnd & _).
  by apply remove_exact_duplicates_fixed.
Qed.

End StageOne.

(** ** Stage two: [_cluster_by_location] *)

(** [max_by_score] returns the first mutant with the highest score. *)
Lemma max_by_score_spec (first : Mutant) (others : list Mutant) :
  ∃ l1 l2,
    first :: others = l1 ++ max_by_score first others :: l2
    ∧ (∀ m, m ∈ l1 →
         (priority_score m < priority_score (max_by_score first others))%Q)
    ∧ (∀ m, m ∈ l2 →
         (priority_score m <= priority_score (max_by_score first others))%Q).
Proof.
  unfold max_by_score.
  induction others as [|x others IH] using rev_ind.
  - exists [], []. split; [done|]. split; by intros ? ?%elem_of_nil.
  - rewrite foldl_app. simpl.
    destruct IH as (l1 & l2 & Heq & Hl1 & Hl2).
    set (best := foldl _ first others) in *.
    destruct (Qle_bool (priority_score x) (priority_score best)) eqn:Hle.
    + apply Qle_bool_iff in Hle. exists l1, (l2 ++ [x]).
      split; [by rewrite app_comm_cons, Heq, <- app_assoc|].
      split; [done|]. intros m [Hm| ->%list_elem_of_singleton]%elem_of_app;
        [by apply Hl2|done].
    + assert (priority_score best < priority_score x)%Q as Hlt.
      { apply Qnot_le_lt. intros H%Qle_bool_iff. congruence. }
      exists (first :: others), []. split; [by rewrite app_comm_cons|].
      split; [|by intros ? ?%elem_of_nil].
      intros m Hm. rewrite Heq in Hm.
      apply elem_of_app in Hm as [Hm|[->|Hm]%elem_of_cons].
      * specialize (Hl1 _ Hm). lra.
      * done.
      * specialize (Hl2 _ Hm). lra.
Qed.

Section StageTwo.

(** The mutant a group contributes. *)
Local Abbreviation pick group :=
  (match group with [] => None | m :: others => Some (max_by_score m others) end).

Local Abbreviation select_loop st0 groups :=
  (foldl (fun '(selected, st) '(_, group) =>
            match group with
            | [] => (selected, st)
            | [m] => (selected ++ [m], st)
            | m :: others =>
                (selected ++ [max_by_score m others],
                 add_location_clustered (Z.of_nat (length group) - 1) st)
            end)
         ([], st0) (groups : list (string * Z * Z * list Mutant))).

Lemma select_loop_spec (st0 : Stats) (groups : list (string * Z * Z * list Mutant)) :
  Forall (fun kg => kg.2 ≠ []) groups →
  let '(selected, st) := select_loop st0 groups in
  Forall2 (fun s kg => pick kg.2 = Some s) selected groups
  ∧ location_clustered st
    = location_clustered st0
      + (Z.of_nat (length (concat groups.*2)) - Z.of_nat (length groups))
  ∧ same_counters_but 2 st0 st.
Proof.
  induction groups as [|[k g] groups IH] using rev_ind; intros Hne.
  - simpl. split; [constructor|]. split; [lia|by repeat split].
  - apply Forall_app in Hne as [Hne Hg]. apply Forall_cons in Hg as [Hg _].
    simpl in Hg. rewrite foldl_app. simpl.
    destruct (select_loop st0 groups) as [selected st].
    destruct (IH Hne) as (Hsel & Hcount & Hsame).
    rewrite fmap_app, concat_app, !length_app. simpl. rewrite app_nil_r.
    destruct g as [|m [|m' others]]; [by destruct Hg| |].
    + split; [|split; [simpl; lia|done]].
      apply Forall2_app; [done|]. by repeat constructor.
    + split; [|split].
      * apply Forall2_app; [done|]. by repeat constructor.
      * simpl. simpl in Hcount. lia.
      * destruct Hsame as (? & ? & ? & ? & ? & ?). by repeat split.
Qed.


Lemma picks_submseteq (selected : list Mutant)
    (groups : list (string * Z * Z * list Mutant)) :
  Forall2 (fun s kg => pick kg.2 = Some s) selected groups →
  selected ⊆+ concat groups.*2.
Proof.
  induction 1 as [|s [k g] selected groups Hs _ IH]; [done|].
  simpl in *. destruct g as [|m others]; [done|]. injection Hs as <-.
  destruct (max_by_score_spec m others) as (l1 & l2 & -> & _).
  change (?x :: selected) with ([x] ++ selected).
  apply submseteq_app; [|done].
  apply singleton_submseteq_l, elem_of_app. right. by left.
Qed.

Lemma cluster_by_location_props (self : SubsumptionAnalyzer)
    (mutants : list Mutant) :
  let selected := (_cluster_by_location self mutants).1 in
  let self' := (_cluster_by_location self mutants).2 in
  selected ⊆+ mutants
  ∧ NoDup (location_key <$> selected)
  ∧ (∀ m, m ∈ mutants →
       ∃ s, s ∈ selected ∧ location_key s = location_key m
            ∧ (priority_score m <= priority_score s)%Q)
  ∧ (∀ s, s ∈ selected →
       ∃ l1 l2,
         filter (fun m => location_key m = location_key s) mutants
         = l1 ++ s :: l2
         ∧ (∀ m, m ∈ l1 → (priority_score m < priority_score s)%Q)
         ∧ (∀ m, m ∈ l2 → (priority_score m <= priority_score s)%Q))
  ∧ location_clustered (stats self')
    = location_clustered (stats self)
      + (Z.of_nat (length mutants) - Z.of_nat (length selected))
  ∧ same_counters_but 2 (stats self) (stats self')
  ∧ coverage_cache self' = coverage_cache self
  ∧ similarity_threshold self' = similarity_threshold self.
Proof.
  unfold _cluster_by_location.
  set (groups := foldl (fun groups m => group_append (location_key m) m groups)
                   [] mutants).
  assert (Forall (fun kg => kg.2 ≠ []) groups) as Hne.
  { apply Forall_forall. intros [k g] Hin.
    by destruct (grouped_content location_key _ _ _ Hin). }
  pose proof (select_loop_spec (stats self) groups Hne) as Hspec.
  destruct (select_loop (stats self) groups) as [selected st].
  destruct Hspec as (Hsel & Hcount & Hsame). simpl.
  assert (∀ s k g, (k, g) ∈ groups → pick g = Some s →
            location_key s = k
            ∧ ∃ l1 l2,
                filter (fun m => location_key m = k) mutants = l1 ++ s :: l2
                ∧ (∀ m, m ∈ l1 → (priority_score m < priority_score s)%Q)
                ∧ (∀ m, m ∈ l2 → (priority_score m <= priority_score s)%Q))
    as Hpick.
  { intros s k g Hin Hs. destruct (grouped_content location_key _ _ _ Hin)
      as [Hg _].
    destruct g as [|m others]; [done|]. injection Hs as <-.
    destruct (max_by_score_spec m others) as (l1 & l2 & Heq & Hl1 & Hl2).
    split; [|exists l1, l2; by rewrite <- Hg].
    assert (max_by_score m others ∈ m :: others) as Hmem.
    { rewrite Heq. apply elem_of_app. right. by left. }
    rewrite Hg in Hmem. by apply list_elem_of_filter in Hmem as [? _]. }
  split; [|split; [|split; [|split; [|split; [|done]]]]].
  - rewrite <- (grouped_concat location_key mutants).
    by apply picks_submseteq.
  - assert (location_key <$> selected = groups.*1) as ->;
      [|apply grouped_NoDup].
    apply list_eq. intros i. rewrite !list_lookup_fmap.
    destruct (groups !! i) as [[k g]|] eqn:Hgi.
    + destruct (Forall2_lookup_r _ _ _ _ _ Hsel Hgi) as (s & Hsi & Hs).
      rewrite Hsi. simpl. f_equal.
      apply (Hpick s k g); [by eapply list_elem_of_lookup_2|done].
    + apply lookup_ge_None in Hgi. rewrite <- (Forall2_length _ _ _ Hsel) in Hgi.
      apply lookup_ge_None in Hgi. by rewrite Hgi.
  - intros m Hm.
    destruct (grouped_total location_key mutants m Hm) as (g & Hin & Hmg).
    apply list_elem_of_lookup in Hin as [i Hi].
    destruct (Forall2_lookup_r _ _ _ _ _ Hsel Hi) as (s & Hsi & Hs).
    simpl in Hs. exists s. split; [by eapply list_elem_of_lookup_2|].
    apply list_elem_of_lookup_2 in Hi.
    destruct (Hpick s _ g Hi Hs) as (Hk & l1 & l2 & Heq & Hl1 & Hl2).
    split; [done|].
    destruct (grouped_content location_key _ _ _ Hi) as [Hg _].
    rewrite Hg, Heq in Hmg.
    apply elem_of_app in Hmg as [Hmg|[->|Hmg]%elem_of_cons].
    + apply Qlt_le_weak. by apply Hl1.
    + apply Qle_refl.
    + by apply Hl2.
  - intros s Hs. apply list_elem_of_lookup in Hs as [i Hi].
    destruct (Forall2_lookup_l _ _ _ _ _ Hsel Hi) as ([k g] & Hgi & Hp).
    simpl in Hp. apply list_elem_of_lookup_2 in Hgi.
    destruct (Hpick s k g Hgi Hp) as (<- & Hrest). done.
  - rewrite Hcount. unfold groups at 1.
    rewrite (grouped_concat location_key mutants).
    by rewrite (Forall2_length _ _ _ Hsel).
Qed.

(** X3.  Location clustering keeps one mutant for every location of the
    input: the first one, in input order, with the highest priority score at
    that location. No mutant is kept twice, and the counter grows by the
    number of mutants dropped. *)
Theorem cluster_by_location_spec (self : SubsumptionAnalyzer)
    (mutants : list Mutant) :
  let '(selected, self') := _cluster_by_location self mutants in
  selected ⊆+ mutants
  ∧ NoDup (location_key <$> selected)
  ∧ (∀ m, m ∈ mutants →
       ∃ s, s ∈ selected ∧ location_key s = location_key m
            ∧ (priority_score m <= priority_score s)%Q)
  ∧ (∀ s, s ∈ selected →
       ∃ l1 l2,
         filter (fun m => location_key m = location_key s) mutants
         = l1 ++ s :: l2
         ∧ (∀ m, m ∈ l1 → (priority_score m < priority_score s)%Q)
         ∧ (∀ m, m ∈ l2 → (priority_score m <= priority_score s)%Q))
  ∧ location_clustered (stats self')
    = location_clustered (stats self)
      + (Z.of_nat (length mutants) - Z.of_nat (length selected)).
Proof.
  pose proof (cluster_by_location_props self mutants) as H.
  destruct (_cluster_by_location self mutants) as [selected self'].
  cbn [fst snd] in H. destruct H as (? & ? & ? & ? & ? & _). done.
Qed.

End StageTwo.

(** ** Stage three: [_apply_operator_subsumption] *)

Lemma StronglySorted_app_cons {A} (R : A → A → Prop) (l1 l2 : list A) (a b : A) :
  StronglySorted R (l1 ++ a :: l2) → b ∈ l2 → R a b.
Proof.
  induction l1 as [|x l1 IH]; simpl; intros Hs Hb.
  - apply StronglySorted_inv in Hs as [_ Hall].
    rewrite Forall_forall in Hall. by apply Hall.
  - apply StronglySorted_inv in Hs as [Hs _]. by apply IH.
Qed.

Lemma StronglySorted_app_l {A} (R : A → A → Prop) (l1 l2 : list A) (a b : A) :
  StronglySorted R (l1 ++ a :: l2) → b ∈ l1 → R b a.
Proof.
  induction l1 as [|x l1 IH]; simpl; intros Hs Hb;
    [by apply elem_of_nil in Hb|].
  apply StronglySorted_inv in Hs as [Hs Hall].
  apply elem_of_cons in Hb as [->|Hb]; [|by apply IH].
  rewrite Forall_forall in Hall. apply Hall, elem_of_app. right. by left.
Qed.

(** No operator both subsumes and is subsumed. *)
Lemma subsumptions_no_chain (a b c : MutationOperator) :
  b ∈ OPERATOR_SUBSUMPTIONS a → c ∈ OPERATOR_SUBSUMPTIONS b → False.
Proof.
  destruct a; simpl; intros Hb;
    try (by apply elem_of_nil in Hb);
    apply list_elem_of_singleton in Hb as ->; simpl;
    by intros ?%elem_of_nil.
Qed.

Lemma filter_ext_in {A} (P Q : A → Prop)
    `{!∀ x, Decision (P x)} `{!∀ x, Decision (Q x)} (l : list A) :
  (∀ x, x ∈ l → P x ↔ Q x) → filter P l = filter Q l.
Proof.
  induction l as [|a l IH]; intros Hext; [done|].
  rewrite !filter_cons.
  assert (filter P l = filter Q l) as ->
    by (apply IH; intros x Hx; apply Hext; by right).
  destruct (decide (P a)) as [HP|HP].
  - rewrite decide_True; [done|]. apply Hext; [left|done].
  - rewrite decide_False; [done|]. intros HQ. apply HP, Hext; [left|done].
Qed.

(** Filtering by identifier drops as many mutants as there are identifiers
    in the set, when identifiers are not shared. *)
Lemma filter_ids_length (removed : gset string) (l : list Mutant) :
  NoDup (id <$> l) → (∀ x, x ∈ removed → x ∈ (id <$> l)) →
  (length (filter (fun m => id m ∉ removed) l) + size removed = length l)%nat.
Proof.
  revert removed. induction l as [|m l IH]; intros removed Hnd Hsub.
  - assert (removed = ∅) as ->; [|done].
    apply leibniz_equiv. intros x. split; [|by intros ?%not_elem_of_empty].
    intros Hx. by apply Hsub, elem_of_nil in Hx.
  - rewrite fmap_cons in Hnd. apply NoDup_cons in Hnd as [Hfresh Hnd].
    rewrite filter_cons. destruct (decide (id m ∉ removed)) as [Hout|Hin].
    + simpl. rewrite IH; [done..|]. intros x Hx.
      specialize (Hsub x Hx). rewrite fmap_cons in Hsub.
      apply elem_of_cons in Hsub as [->|]; done.
    + assert (id m ∈ removed) as Hin'
        by (destruct (decide (id m ∈ removed)); [done|by destruct Hin]).
      rewrite (filter_ext_in _ (fun m0 => id m0 ∉ removed ∖ {[id m]})).
      * assert (size removed = S (size (removed ∖ {[id m]}))) as ->.
        { rewrite size_difference, size_singleton.
          - assert (size removed ≠ 0)%nat; [|lia].
            intros Hz%size_empty_iff. by apply Hz in Hin'.
          - by intros x ->%elem_of_singleton. }
        simpl. rewrite <- (IH (removed ∖ {[id m]})); [lia|done|].
        intros x [Hx Hne]%elem_of_difference. specialize (Hsub x Hx).
        rewrite fmap_cons in Hsub. apply elem_of_cons in Hsub as [->|]; [|done].
        destruct Hne. by apply elem_of_singleton.
      * intros x Hx. rewrite elem_of_difference, elem_of_singleton.
        split; [tauto|]. intros Hn Hxr. apply Hn. split; [done|].
        intros Heq. apply Hfresh. rewrite <- Heq. by apply list_elem_of_fmap_2.
Qed.

Lemma same_counters_but_refl (n : nat) (s : Stats) : same_counters_but n s s.
Proof. by repeat split. Qed.

Lemma same_counters_but_trans (n : nat) (s1 s2 s3 : Stats) :
  same_counters_but n s1 s2 → same_counters_but n s2 s3 →
  same_counters_but n s1 s3.
Proof.
  intros (H1 & H2 & H3 & H4 & H5 & H6) (G1 & G2 & G3 & G4 & G5 & G6).
  repeat split; intros; congruence || (etrans; [by auto|by auto]).
Qed.

Section StageThree.

Lemma scan_window_mono (m1 : Mutant) (ops : list MutationOperator)
    (later : list Mutant) (st : gset string * Stats) :
  st.1 ⊆ (scan_window m1 ops later st).1.
Proof.
  revert st. induction later as [|m2 later IH]; intros st; [done|]. simpl.
  repeat case_match; try done; try apply IH.
  etrans; [|apply IH]. simpl. apply union_subseteq_r.
Qed.

Lemma scan_window_added (m1 : Mutant) (ops : list MutationOperator)
    (later : list Mutant) (st : gset string * Stats) (x : string) :
  x ∈ (scan_window m1 ops later st).1 →
  x ∈ st.1
  ∨ ∃ m2, m2 ∈ later ∧ id m2 = x ∧ operator m2 ∈ ops ∧ within_window m1 m2.
Proof.
  revert st. induction later as [|m2 later IH]; intros st; [by left|].
  simpl. intros Hx.
  assert (∀ st', x ∈ (scan_window m1 ops later st').1 →
            x ∈ st'.1 ∨ ∃ m0, m0 ∈ m2 :: later ∧ id m0 = x
                               ∧ operator m0 ∈ ops ∧ within_window m1 m0)
    as IH'.
  { intros st' H. destruct (IH _ H) as [|(m0 & ? & ?)]; [by left|].
    right. exists m0. split; [by right|done]. }
  destruct (decide (id m2 ∈ st.1)); [by apply IH'|].
  destruct (Z.ltb_spec 5 (Z.abs (line_start (location m2)
                                 - line_start (location m1)))) as [|Hnear];
    [by left|].
  destruct (bool_decide (operator m2 ∈ ops)) eqn:Hop; [|by apply IH'].
  apply bool_decide_eq_true in Hop.
  destruct (IH' _ Hx) as [Hin|]; [|by right]. simpl in Hin.
  apply elem_of_union in Hin as [Hin|]; [|by left].
  apply elem_of_singleton in Hin as ->. right. exists m2.
  split; [by left|done].
Qed.

(** The inner loop counts every identifier it adds. *)
Lemma scan_window_count (m1 : Mutant) (ops : list MutationOperator)
    (later : list Mutant) (st : gset string * Stats) :
  operator_subsumed (scan_window m1 ops later st).2 + Z.of_nat (size st.1)
  = operator_subsumed st.2 + Z.of_nat (size (scan_window m1 ops later st).1)
  ∧ same_counters_but 3 st.2 (scan_window m1 ops later st).2.
Proof.
  revert st. induction later as [|m2 later IH]; intros st;
    [split; [done|by repeat split]|].
  simpl. destruct (decide (id m2 ∈ st.1)) as [|Hout]; [apply IH|].
  destruct (5 <? _); [split; [done|by repeat split]|].
  destruct (bool_decide _); [|apply IH].
  destruct (IH ({[id m2]} ∪ st.1, bump_operator_subsumed st.2))
    as [Hc (? & ? & ? & ? & ? & ?)].
  cbn [fst snd] in *. rewrite size_union, size_singleton in Hc.
  - destruct st as [rem [a b c d e f]]. cbn in *.
    split; [lia|]. repeat split; intros; try done; etrans; eauto.
  - intros x ->%elem_of_singleton. done.
Qed.

(** A mutant inside the window whose operator is subsumed is reached when
    everything in front of it is inside the window too. *)
Lemma scan_window_reaches (m1 B : Mutant) (ops : list MutationOperator)
    (l2 l3 : list Mutant) (st : gset string * Stats) :
  (∀ m, m ∈ l2 → within_window m1 m) → within_window m1 B →
  operator B ∈ ops →
  id B ∈ (scan_window m1 ops (l2 ++ B :: l3) st).1.
Proof.
  intros Hl2 HB Hop. revert st.
  induction l2 as [|m l2 IH]; intros st; simpl.
  - destruct (decide (id B ∈ st.1)); [by apply scan_window_mono|].
    unfold within_window in HB.
    destruct (Z.ltb_spec 5 (Z.abs (line_start (location B)
                                   - line_start (location m1)))); [lia|].
    rewrite bool_decide_eq_true_2 by done.
    apply scan_window_mono. simpl. apply elem_of_union. left.
    by apply elem_of_singleton.
  - assert (within_window m1 m) as Hm by (apply Hl2; left).
    assert (∀ m0, m0 ∈ l2 → within_window m1 m0) as Hl2'
      by (intros; apply Hl2; by right).
    unfold within_window in Hm.
    destruct (decide (id m ∈ st.1)); [by apply IH|].
    destruct (Z.ltb_spec 5 (Z.abs (line_start (location m)
                                   - line_start (location m1)))); [lia|].
    destruct (bool_decide _); by apply IH.
Qed.

Lemma scan_file_mono (l : list Mutant) (st : gset string * Stats) :
  st.1 ⊆ (scan_file l st).1.
Proof.
  revert st. induction l as [|m1 l IH]; intros st; [done|]. simpl.
  case_match; [apply IH|]. etrans; [|apply IH]. apply scan_window_mono.
Qed.

Lemma scan_file_added (l : list Mutant) (st : gset string * Stats) (x : string) :
  x ∈ (scan_file l st).1 →
  x ∈ st.1
  ∨ ∃ l1 m1 l2 m2 l3,
      l = l1 ++ m1 :: l2 ++ m2 :: l3 ∧ id m2 = x
      ∧ operator m2 ∈ OPERATOR_SUBSUMPTIONS (operator m1)
      ∧ within_window m1 m2.
Proof.
  revert st. induction l as [|m1 l IH]; intros st; [by left|]. simpl.
  assert (∀ st', x ∈ (scan_file l st').1 →
            x ∈ st'.1
            ∨ ∃ l1 a l2 b l3,
                m1 :: l = l1 ++ a :: l2 ++ b :: l3 ∧ id b = x
                ∧ operator b ∈ OPERATOR_SUBSUMPTIONS (operator a)
                ∧ within_window a b) as IH'.
  { intros st' H. destruct (IH _ H) as [|(l1 & a & l2 & b & l3 & -> & ?)];
      [by left|].
    right. by exists (m1 :: l1), a, l2, b, l3. }
  destruct (bool_decide _); [apply IH'|]. intros Hx.
  destruct (IH' _ Hx) as [Hin|]; [|by right].
  apply scan_window_added in Hin as [|(m2 & Hm2 & Hid & Hop & Hw)]; [by left|].
  right. apply list_elem_of_split in Hm2 as (l2 & l3 & ->).
  by exists [], m1, l2, m2, l3.
Qed.

Lemma scan_file_count (l : list Mutant) (st : gset string * Stats) :
  operator_subsumed (scan_file l st).2 + Z.of_nat (size st.1)
  = operator_subsumed st.2 + Z.of_nat (size (scan_file l st).1)
  ∧ same_counters_but 3 st.2 (scan_file l st).2.
Proof.
  revert st. induction l as [|m1 l IH]; intros st;
    [split; [done|by repeat split]|].
  simpl. destruct (bool_decide _); [apply IH|].
  destruct (IH (scan_window m1 (OPERATOR_SUBSUMPTIONS (operator m1)) l st))
    as [Hc Hs].
  destruct (scan_window_count m1 (OPERATOR_SUBSUMPTIONS (operator m1)) l st)
    as [Hc' Hs'].
  split; [lia|]. by eapply same_counters_but_trans.
Qed.

Lemma scan_file_reaches (l1 l2 l3 : list Mutant) (A B : Mutant)
    (st : gset string * Stats) :
  operator B ∈ OPERATOR_SUBSUMPTIONS (operator A) →
  (∀ m, m ∈ l2 → within_window A m) → within_window A B →
  id B ∈ (scan_file (l1 ++ A :: l2 ++ B :: l3) st).1.
Proof.
  intros Hop Hl2 HB. revert st.
  induction l1 as [|m l1 IH]; intros st; simpl.
  - rewrite bool_decide_eq_false_2.
    + apply scan_file_mono. by apply scan_window_reaches.
    + intros Heq. rewrite Heq in Hop. by apply elem_of_nil in Hop.
  - destruct (bool_decide _); apply IH.
Qed.

Local Abbreviation file_loop st0 groups :=
  (foldl (fun st '(_, file_mutants) =>
            scan_file (stable_sort line_before file_mutants) st)
         st0 (groups : list (string * list Mutant))).

Lemma file_loop_mono (groups : list (string * list Mutant))
    (st : gset string * Stats) :
  st.1 ⊆ (file_loop st groups).1.
Proof.
  revert st. induction groups as [|[k fm] groups IH]; intros st; [done|].
  simpl. etrans; [|apply IH]. apply scan_file_mono.
Qed.

Lemma file_loop_added (groups : list (string * list Mutant))
    (st : gset string * Stats) (x : string) :
  x ∈ (file_loop st groups).1 →
  x ∈ st.1
  ∨ ∃ k fm l1 m1 l2 m2 l3,
      (k, fm) ∈ groups
      ∧ stable_sort line_before fm = l1 ++ m1 :: l2 ++ m2 :: l3 ∧ id m2 = x
      ∧ operator m2 ∈ OPERATOR_SUBSUMPTIONS (operator m1)
      ∧ within_window m1 m2.
Proof.
  revert st. induction groups as [|[k fm] groups IH]; intros st; [by left|].
  simpl. intros Hx. destruct (IH _ Hx) as [Hin|(k' & fm' & H)].
  - apply scan_file_added in Hin as [|(l1 & m1 & l2 & m2 & l3 & H)];
      [by left|].
    right. exists k, fm, l1, m1, l2, m2, l3. split; [by left|done].
  - right. exists k', fm'.
    destruct H as (l1 & m1 & l2 & m2 & l3 & Hin & H).
    exists l1, m1, l2, m2, l3. split; [by right|done].
Qed.

Lemma file_loop_count (groups : list (string * list Mutant))
    (st : gset string * Stats) :
  operator_subsumed (file_loop st groups).2 + Z.of_nat (size st.1)
  = operator_subsumed st.2 + Z.of_nat (size (file_loop st groups).1)
  ∧ same_counters_but 3 st.2 (file_loop st groups).2.
Proof.
  revert st. induction groups as [|[k fm] groups IH]; intros st;
    [split; [done|by repeat split]|].
  simpl.
  destruct (IH (scan_file (stable_sort line_before fm) st)) as [Hc Hs].
  destruct (scan_file_count (stable_sort line_before fm) st) as [Hc' Hs'].
  split; [lia|]. by eapply same_counters_but_trans.
Qed.

Lemma file_loop_reaches (groups : list (string * list Mutant))
    (st : gset string * Stats) (k : string) (fm l1 l2 l3 : list Mutant)
    (A B : Mutant) :
  (k, fm) ∈ groups →
  stable_sort line_before fm = l1 ++ A :: l2 ++ B :: l3 →
  operator B ∈ OPERATOR_SUBSUMPTIONS (operator A) →
  (∀ m, m ∈ l2 → within_window A m) → within_window A B →
  id B ∈ (file_loop st groups).1.
Proof.
  intros Hin Hsort Hop Hl2 HB. revert st.
  induction groups as [|[k' fm'] groups IH]; intros st;
    [by apply elem_of_nil in Hin|].
  simpl. apply elem_of_cons in Hin as [[= <- <-]|Hin]; [|by apply IH].
  apply file_loop_mono. rewrite Hsort. by apply scan_file_reaches.
Qed.

(** What the loop of stage three adds, in terms of the input list. *)
Lemma file_loop_sound (mutants : list Mutant) (st0 : Stats) (x : string) :
  x ∈ (file_loop (∅, st0) (group_by_file mutants)).1 →
  ∃ m1 m2, m1 ∈ mutants ∧ m2 ∈ mutants ∧ id m2 = x
    ∧ file_path (location m1) = file_path (location m2)
    ∧ operator m2 ∈ OPERATOR_SUBSUMPTIONS (operator m1)
    ∧ 0 ≤ line_start (location m2) - line_start (location m1) ≤ 5.
Proof.
  intros Hx. apply file_loop_added in Hx
    as [Hx|(k & fm & l1 & m1 & l2 & m2 & l3 & Hin & Hsort & Hid & Hop & Hw)];
    [by apply not_elem_of_empty in Hx|].
  unfold group_by_file in Hin.
  destruct (grouped_content (fun m => file_path (location m)) _ _ _ Hin)
    as [Hfm _].
  assert (∀ m, m ∈ l1 ++ m1 :: l2 ++ m2 :: l3 →
               m ∈ mutants ∧ file_path (location m) = k) as Hmem.
  { intros m Hm. rewrite <- Hsort, stable_sort_Permutation, Hfm in Hm.
    by apply list_elem_of_filter in Hm as [? ?]. }
  destruct (Hmem m1) as [? ?];
    [apply elem_of_app; right; by left|].
  destruct (Hmem m2) as [? ?];
    [apply elem_of_app; right; right; apply elem_of_app; right; by left|].
  exists m1, m2. repeat split; [done|done|done|congruence|done| |].
  - pose proof (stable_sort_sorted line_before line_before_asym
                  line_before_negtrans fm) as Hs.
    rewrite Hsort in Hs.
    assert (line_before m2 m1 = false) as Hord.
    { apply (StronglySorted_app_cons _ _ _ _ _ Hs).
      apply elem_of_app. right. by left. }
    unfold line_before in Hord. apply Z.ltb_ge in Hord. lia.
  - unfold within_window in Hw. lia.
Qed.

Lemma file_loop_ids (mutants : list Mutant) (st0 : Stats) (x : string) :
  x ∈ (file_loop (∅, st0) (group_by_file mutants)).1 → x ∈ (id <$> mutants).
Proof.
  intros (m1 & m2 & _ & Hm2 & <- & _)%file_loop_sound.
  by apply list_elem_of_fmap_2.
Qed.

(** What stage three does, for the pipeline and for the theorems below. *)
Lemma apply_operator_subsumption_props (self : SubsumptionAnalyzer)
    (mutants : list Mutant) :
  NoDup (id <$> mutants) →
  let kept := (_apply_operator_subsumption self mutants).1 in
  let self' := (_apply_operator_subsumption self mutants).2 in
  sublist kept mutants
  ∧ (∀ m, m ∈ mutants → m ∉ kept →
       ∃ m1, m1 ∈ kept
         ∧ file_path (location m1) = file_path (location m)
         ∧ operator m ∈ OPERATOR_SUBSUMPTIONS (operator m1)
         ∧ 0 ≤ line_start (location m) - line_start (location m1) ≤ 5)
  ∧ operator_subsumed (stats self')
    = operator_subsumed (stats self)
      + (Z.of_nat (length mutants) - Z.of_nat (length kept))
  ∧ same_counters_but 3 (stats self) (stats self')
  ∧ coverage_cache self' = coverage_cache self
  ∧ similarity_threshold self' = similarity_threshold self.
Proof.
  intros Hnd. unfold _apply_operator_subsumption.
  cbn [fst snd stats coverage_cache similarity_threshold].
  set (removed := (file_loop (∅, stats self) (group_by_file mutants)).1).
  split; [apply sublist_filter|]. split.
  { intros m Hm Hout.
    assert (id m ∈ removed) as Hrem.
    { destruct (decide (id m ∈ removed)) as [|Hn]; [done|].
      destruct Hout. by apply list_elem_of_filter. }
    destruct (file_loop_sound _ _ _ Hrem)
      as (m1 & m2 & Hm1 & Hm2 & Hid & Hfile & Hop & Hline).
    assert (m2 = m) as -> by (by eapply NoDup_fmap_elem_inj).
    exists m1. repeat split; [|done|done|lia|lia].
    apply list_elem_of_filter. split; [|done]. intros Hrem1.
    destruct (file_loop_sound _ _ _ Hrem1)
      as (a & b & Ha & Hb & Hidb & _ & Hopb & _).
    assert (b = m1) as -> by (by eapply NoDup_fmap_elem_inj).
    by eapply subsumptions_no_chain. }
  destruct (file_loop_count (group_by_file mutants) (∅, stats self))
    as [Hc Hs]. cbn [fst snd] in Hc, Hs. rewrite size_empty in Hc.
  pose proof (filter_ids_length removed mutants Hnd
    (file_loop_ids mutants (stats self))) as Hlen.
  fold removed in Hc. split; [lia|done].
Qed.

(** X4.  Stage three removes a mutant only when a mutant it keeps, in the
    same file and at most five lines above (or on the same line), has an
    operator that subsumes the operator of the removed one. *)
Theorem operator_subsumption_sound (self : SubsumptionAnalyzer)
    (mutants : list Mutant) (m : Mutant) :
  NoDup (id <$> mutants) →
  m ∈ mutants → m ∉ (_apply_operator_subsumption self mutants).1 →
  ∃ m1, m1 ∈ (_apply_operator_subsumption self mutants).1
    ∧ file_path (location m1) = file_path (location m)
    ∧ operator m ∈ OPERATOR_SUBSUMPTIONS (operator m1)
    ∧ 0 ≤ line_start (location m) - line_start (location m1) ≤ 5.
Proof.
  intros Hnd.
  destruct (apply_operator_subsumption_props self mutants Hnd)
    as (_ & Hsound & _).
  apply Hsound.
Qed.

(** X5.  Stage three removes every mutant that has, in the same file and one
    to five lines above it, a mutant whose operator subsumes its own. *)
Theorem operator_subsumption_complete (self : SubsumptionAnalyzer)
    (mutants : list Mutant) (A B : Mutant) :
  A ∈ mutants → B ∈ mutants →
  file_path (location A) = file_path (location B) →
  operator B ∈ OPERATOR_SUBSUMPTIONS (operator A) →
  0 < line_start (location B) - line_start (location A) ≤ 5 →
  B ∉ (_apply_operator_subsumption self mutants).1.
Proof.
  intros HA HB Hfile Hop Hline. unfold _apply_operator_subsumption.
  cbn [fst]. intros [Hkeep _]%list_elem_of_filter. apply Hkeep. clear Hkeep.
  destruct (grouped_total (fun m => file_path (location m)) _ _ HA)
    as (fm & Hin & HAfm).
  destruct (grouped_content (fun m => file_path (location m)) _ _ _ Hin)
    as [Hfm _].
  assert (B ∈ fm) as HBfm by (rewrite Hfm; by apply list_elem_of_filter).
  pose proof (stable_sort_sorted line_before line_before_asym
                line_before_negtrans fm) as Hs.
  assert (A ∈ stable_sort line_before fm) as HAs
    by (by rewrite stable_sort_Permutation).
  assert (B ∈ stable_sort line_before fm) as HBs
    by (by rewrite stable_sort_Permutation).
  apply list_elem_of_split in HAs as (l1 & r & Hsort).
  rewrite Hsort in HBs, Hs.
  assert (B ∈ r) as HBr.
  { apply elem_of_app in HBs as [HBl|HBs].
    - pose proof (StronglySorted_app_l _ _ _ _ _ Hs HBl) as Hord.
      unfold line_before in Hord. apply Z.ltb_ge in Hord. lia.
    - apply elem_of_cons in HBs as [->|]; [lia|done]. }
  apply list_elem_of_split in HBr as (l2 & l3 & ->).
  eapply file_loop_reaches; [exact Hin|exact Hsort|done| |].
  - intros m Hm.
    assert (line_before m A = false) as H1.
    { apply (StronglySorted_app_cons _ _ _ _ _ Hs).
      apply elem_of_app. by left. }
    assert (line_before B m = false) as H2.
    { replace (l1 ++ A :: l2 ++ B :: l3)
        with ((l1 ++ A :: l2) ++ B :: l3) in Hs
        by (by rewrite <- app_assoc).
      apply (StronglySorted_app_l _ _ _ _ _ Hs).
      apply elem_of_app. right. by right. }
    unfold line_before in H1, H2. apply Z.ltb_ge in H1, H2.
    unfold within_window. lia.
  - unfold within_window. lia.
Qed.

(** X6.  The counter of stage three grows by the number of mutants the stage
    removes; the other counters, the cache and the threshold stay, and the
    survivors keep the order of the input. *)
Theorem operator_subsumption_counts (self : SubsumptionAnalyzer)
    (mutants : list Mutant) :
  NoDup (id <$> mutants) →
  let '(kept, self') := _apply_operator_subsumption self mutants in
  sublist kept mutants
  ∧ operator_subsumed (stats self')
    = operator_subsumed (stats self)
      + (Z.of_nat (length mutants) - Z.of_nat (length kept))
  ∧ same_counters_but 3 (stats self) (stats self')
  ∧ coverage_cache self' = coverage_cache self
  ∧ similarity_threshold self' = similarity_threshold self.
Proof.
  intros Hnd.
  pose proof (apply_operator_subsumption_props self mutants Hnd) as H.
  destruct (_apply_operator_subsumption self mutants) as [kept self'].
  cbn [fst snd] in H. destruct H as (? & _ & ? & ? & ? & ?). done.
Qed.

End StageThree.

(** ** The cache and the map of [map_mutant_coverage] *)

Section CoverageMapProperties.
Variable md5_int : string → Z.

Lemma estimate_coverage_lookup (cache : gmap string (gset string)) (m : Mutant) :
  (_estimate_coverage md5_int cache m).2 !! location_str m
  = Some (_estimate_coverage md5_int cache m).1.
Proof.
  unfold _estimate_coverage.
  destruct (cache !! location_str m) eqn:Hl; simpl; [done|].
  by rewrite lookup_insert_eq.
Qed.

Lemma estimate_coverage_extends (cache : gmap string (gset string)) (m : Mutant) :
  cache ⊆ (_estimate_coverage md5_int cache m).2.
Proof.
  unfold _estimate_coverage.
  destruct (cache !! location_str m) eqn:Hl; simpl; [done|].
  by apply insert_subseteq.
Qed.

Lemma estimate_coverage_hit (cache : gmap string (gset string)) (m : Mutant)
    (tests : gset string) :
  cache !! location_str m = Some tests →
  _estimate_coverage md5_int cache m = (tests, cache).
Proof. intros H. unfold _estimate_coverage. by rewrite H. Qed.

Local Abbreviation coverage_loop acc l :=
  (foldl (fun '(coverage_map, cache) m =>
            let '(tests, cache') := _estimate_coverage md5_int cache m in
            (<[id m := tests]> coverage_map, cache'))
         acc l).

Lemma coverage_loop_spec (cm0 cache0 : gmap string (gset string))
    (l : list Mutant) :
  let '(cm, cache) := coverage_loop (cm0, cache0) l in
  cache0 ⊆ cache
  ∧ (∀ m, m ∈ l → is_Some (cache !! location_str m))
  ∧ (∀ i, cm !! i
          = match last (filter (fun m => id m = i) l) with
            | Some m => cache !! location_str m
            | None => cm0 !! i
            end).
Proof.
  induction l as [|m l IH] using rev_ind.
  { simpl. split; [done|]. split; [by intros ? ?%elem_of_nil|done]. }
  rewrite foldl_app. simpl.
  destruct (coverage_loop (cm0, cache0) l) as [cm cache].
  destruct IH as (Hext & Hin & Hcm).
  pose proof (estimate_coverage_lookup cache m) as Hl.
  pose proof (estimate_coverage_extends cache m) as He.
  destruct (_estimate_coverage md5_int cache m) as [tests cache'].
  simpl in Hl, He. split; [by etrans|]. split.
  - intros m0 [Hm0|Hm0]%elem_of_app.
    + destruct (Hin m0 Hm0) as [t Ht]. exists t.
      by eapply lookup_weaken.
    + apply list_elem_of_singleton in Hm0 as ->. by eexists.
  - intros i. rewrite filter_app, filter_cons, filter_nil.
    destruct (decide (id m = i)) as [<-|Hne].
    + by rewrite lookup_insert_eq, last_snoc.
    + rewrite lookup_insert_ne by done. rewrite app_nil_r, Hcm.
      destruct (last (filter (fun m0 => id m0 = i) l)) as [m0|] eqn:Hlast;
        [|done].
      apply last_Some in Hlast as [l' Hlast].
      assert (m0 ∈ l) as Hm0.
      { assert (m0 ∈ filter (fun m1 => id m1 = i) l) as H.
        { rewrite Hlast. apply elem_of_app. right. by left. }
        by apply list_elem_of_filter in H as [_ ?]. }
      destruct (Hin m0 Hm0) as [t Ht]. rewrite Ht.
      symmetry. by eapply lookup_weaken.
Qed.

(** On a cache that has the key of every mutant of the list, the loop only
    reads. *)
Lemma coverage_loop_hits (cm0 cache : gmap string (gset string))
    (l : list Mutant) :
  (∀ m, m ∈ l → is_Some (cache !! location_str m)) →
  (coverage_loop (cm0, cache) l).2 = cache.
Proof.
  induction l as [|m l IH] using rev_ind; [done|]. intros Hin.
  rewrite foldl_app. simpl.
  assert ((coverage_loop (cm0, cache) l).2 = cache) as Hc.
  { apply IH. intros m0 Hm0. apply Hin, elem_of_app. by left. }
  destruct (coverage_loop (cm0, cache) l) as [cm cache']. simpl in Hc.
  subst cache'. destruct (Hin m) as [t Ht];
    [apply elem_of_app; right; by left|].
  by rewrite (estimate_coverage_hit _ _ _ Ht).
Qed.

End CoverageMapProperties.

(** ** Stage four: [_apply_coverage_subsumption] *)

Section StageFourLoops.
Variable coverage_map : gmap string (gset string).

Local Abbreviation cov := (coverage_get coverage_map).

Lemma compare_later_count (threshold : Q) (m1 : Mutant) (later : list Mutant)
    (st : gset string * Stats) :
  let st' := compare_later threshold coverage_map m1 (cov (id m1)) later st in
  coverage_subsumed st'.2 + Z.of_nat (size st.1)
  = coverage_subsumed st.2 + Z.of_nat (size st'.1)
  ∧ same_counters_but 4 st.2 st'.2.
Proof.
  revert st. induction later as [|m2 later IH]; intros st;
    [split; [done|apply same_counters_but_refl]|].
  cbn zeta. rewrite compare_later_cons.
  destruct (decide (id m2 ∈ st.1)) as [|Hout]; [apply IH|].
  destruct (dominates coverage_map m1 m2 && _); [|apply IH].
  destruct (IH ({[id m2]} ∪ st.1, bump_coverage_subsumed st.2))
    as [Hc (? & ? & ? & ? & ? & ?)].
  cbn [fst snd] in *. rewrite size_union, size_singleton in Hc.
  - destruct st as [rem [a b c d e f]]. cbn in *.
    split; [lia|]. repeat split; intros; try done; etrans; eauto.
  - intros x ->%elem_of_singleton. done.
Qed.

Lemma compare_pairs_count (threshold : Q) (mutants : list Mutant)
    (st : gset string * Stats) :
  let st' := compare_pairs threshold coverage_map mutants st in
  coverage_subsumed st'.2 + Z.of_nat (size st.1)
  = coverage_subsumed st.2 + Z.of_nat (size st'.1)
  ∧ same_counters_but 4 st.2 st'.2.
Proof.
  revert st. induction mutants as [|m1 later IH]; intros st;
    [split; [done|apply same_counters_but_refl]|].
  cbn zeta. simpl. destruct (decide (id m1 ∈ st.1)); [apply IH|].
  destruct (IH (compare_later threshold coverage_map m1 (cov (id m1)) later st))
    as [Hc Hs].
  destruct (compare_later_count threshold m1 later st) as [Hc' Hs'].
  split; [lia|]. by eapply same_counters_but_trans.
Qed.

(** The inner loop removes every mutant of [later] that [m1] dominates with
    enough similarity. *)
Lemma compare_later_complete (threshold : Q) (m1 m2 : Mutant)
    (later : list Mutant) (st : gset string * Stats) :
  m2 ∈ later → dominates coverage_map m1 m2 = true →
  (threshold <= jaccard (cov (id m1)) (cov (id m2)))%Q →
  id m2 ∈ (compare_later threshold coverage_map m1 (cov (id m1)) later st).1.
Proof.
  intros Hm2 Hd Hq. revert st.
  induction later as [|m later IH]; intros st; [by apply elem_of_nil in Hm2|].
  rewrite compare_later_cons.
  apply elem_of_cons in Hm2 as [<-|Hm2].
  - destruct (decide (id m2 ∈ st.1)) as [Hin|Hout].
    + by apply compare_later_mono.
    + rewrite Hd. simpl.
      rewrite (proj2 (Qle_bool_iff _ _) Hq).
      apply compare_later_mono. simpl. apply elem_of_union. left.
      by apply elem_of_singleton.
  - repeat case_match; by apply IH.
Qed.

Lemma compare_pairs_complete (threshold : Q) (l1 l2 : list Mutant)
    (A B : Mutant) (st : gset string * Stats) :
  B ∈ l2 → dominates coverage_map A B = true →
  (threshold <= jaccard (cov (id A)) (cov (id B)))%Q →
  id A ∉ (compare_pairs threshold coverage_map (l1 ++ A :: l2) st).1 →
  id B ∈ (compare_pairs threshold coverage_map (l1 ++ A :: l2) st).1.
Proof.
  intros HB Hd Hq. revert st.
  induction l1 as [|m l1 IH]; intros st; simpl.
  - destruct (decide (id A ∈ st.1)) as [Hin|Hout]; intros HA.
    + destruct HA. by apply compare_pairs_mono.
    + apply compare_pairs_mono. by apply compare_later_complete.
  - destruct (decide (id m ∈ st.1)); apply IH.
Qed.

(** Under distinct identifiers the first mutant of the list is not
    removed. *)
Lemma compare_pairs_head (threshold : Q) (m : Mutant) (rest : list Mutant)
    (st0 : Stats) :
  NoDup (id <$> m :: rest) →
  id m ∉ (compare_pairs threshold coverage_map (m :: rest) (∅, st0)).1.
Proof.
  intros Hnd Hin.
  apply compare_pairs_added in Hin
    as [Hin|(l1 & a & l2 & b & l3 & Heq & Hid & _)]; [| |done].
  { by apply not_elem_of_empty in Hin. }
  rewrite fmap_cons in Hnd. apply NoDup_cons in Hnd as [Hfresh _].
  apply Hfresh. rewrite <- Hid. apply list_elem_of_fmap_2.
  destruct l1 as [|x l1]; injection Heq as -> ->.
  - apply elem_of_app. right. by left.
  - apply elem_of_app. right. right. apply elem_of_app. right. by left.
Qed.

End StageFourLoops.

Section StageFourTheorems.
Variable md5_int : string → Z.

Lemma compare_pairs_removed_ids (threshold : Q)
    (coverage_map : gmap string (gset string)) (mutants : list Mutant)
    (st0 : Stats) (x : string) :
  x ∈ (compare_pairs threshold coverage_map mutants (∅, st0)).1 →
  x ∈ (id <$> mutants).
Proof.
  intros [Hx|Hx]%compare_pairs_ids; [|done].
  by apply not_elem_of_empty in Hx.
Qed.

(** What the pipeline needs of stage four. *)
Lemma apply_coverage_subsumption_props (self : SubsumptionAnalyzer)
    (mutants : list Mutant) :
  NoDup (id <$> mutants) →
  let kept := (_apply_coverage_subsumption md5_int self mutants).1 in
  let self' := (_apply_coverage_subsumption md5_int self mutants).2 in
  sublist kept mutants
  ∧ head kept = head mutants
  ∧ coverage_subsumed (stats self')
    = coverage_subsumed (stats self)
      + (Z.of_nat (length mutants) - Z.of_nat (length kept))
  ∧ same_counters_but 4 (stats self) (stats self')
  ∧ similarity_threshold self' = similarity_threshold self
  ∧ coverage_cache self'
    = (map_mutant_coverage md5_int (coverage_cache self) mutants).2.
Proof.
  intros Hnd. unfold _apply_coverage_subsumption.
  destruct (map_mutant_coverage md5_int (coverage_cache self) mutants)
    as [coverage_map cache'].
  cbn [fst snd stats coverage_cache similarity_threshold].
  destruct (compare_pairs_count coverage_map (similarity_threshold self)
              mutants (∅, stats self)) as [Hc Hs].
  cbn [fst snd] in Hc, Hs. rewrite size_empty in Hc.
  pose proof (filter_ids_length _ mutants Hnd
    (compare_pairs_removed_ids (similarity_threshold self) coverage_map
       mutants (stats self))) as Hlen.
  split; [apply sublist_filter|]. split; [|split; [lia|done]].
  destruct mutants as [|m rest]; [done|].
  rewrite filter_cons, decide_True; [done|].
  by apply compare_pairs_head.
Qed.

(** X7.  Stage four removes every mutant that has, further up the list, a
    surviving related mutant whose covering set includes its own non-empty
    covering set with Jaccard similarity at least the threshold. *)
Theorem coverage_subsumption_complete (self : SubsumptionAnalyzer)
    (l1 l2 l3 : list Mutant) (A B : Mutant) :
  let mutants := l1 ++ A :: l2 ++ B :: l3 in
  let coverage_map :=
    (map_mutant_coverage md5_int (coverage_cache self) mutants).1 in
  A ∈ (_apply_coverage_subsumption md5_int self mutants).1 →
  _are_operators_related (operator A) (operator B) = true →
  coverage_get coverage_map (id B) ⊆ coverage_get coverage_map (id A) →
  coverage_get coverage_map (id B) ≠ ∅ →
  (similarity_threshold self
   <= jaccard (coverage_get coverage_map (id A))
              (coverage_get coverage_map (id B)))%Q →
  B ∉ (_apply_coverage_subsumption md5_int self mutants).1.
Proof.
  intros mutants coverage_map. rewrite apply_coverage_subsumption_survivors.
  fold coverage_map.
  intros [HA _]%list_elem_of_filter Hrel Hsub Hne Hq
         [HB _]%list_elem_of_filter.
  apply HB. unfold mutants in *. apply compare_pairs_complete; try done.
  - apply elem_of_app. right. by left.
  - unfold dominates. rewrite Hrel. simpl.
    rewrite !bool_decide_eq_true_2; [done| |done].
    by apply size_pos_nonempty.
Qed.

(** X8.  On mutants with distinct identifiers, stage four keeps the first
    mutant of the list and the order of the survivors; its counter grows by
    the number of mutants removed, and the other counters and the threshold
    stay. *)
Theorem coverage_subsumption_counts (self : SubsumptionAnalyzer)
    (mutants : list Mutant) :
  NoDup (id <$> mutants) →
  let '(kept, self') := _apply_coverage_subsumption md5_int self mutants in
  sublist kept mutants
  ∧ head kept = head mutants
  ∧ coverage_subsumed (stats self')
    = coverage_subsumed (stats self)
      + (Z.of_nat (length mutants) - Z.of_nat (length kept))
  ∧ same_counters_but 4 (stats self) (stats self')
  ∧ similarity_threshold self' = similarity_threshold self.
Proof.
  intros Hnd.
  pose proof (apply_coverage_subsumption_props self mutants Hnd) as H.
  destruct (_apply_coverage_subsumption md5_int self mutants) as [kept self'].
  cbn [fst snd] in H. destruct H as (? & ? & ? & ? & ? & _). done.
Qed.

End StageFourTheorems.

(** ** The pipeline: [filter_redundant] *)

Lemma NoDup_fmap_submseteq {A B} (f : A → B) (l k : list A) :
  l ⊆+ k → NoDup (f <$> k) → NoDup (f <$> l).
Proof.
  intros Hsub Hnd. apply (fmap_submseteq f) in Hsub.
  apply submseteq_Permutation in Hsub as [k' Hk'].
  rewrite Hk' in Hnd. by apply NoDup_app in Hnd as [? _].
Qed.

Lemma truediv_is_Some (a b : Z) : b ≠ 0 → truediv a b = Some (inject_Z a / inject_Z b)%Q.
Proof. intros Hb. unfold truediv. by rewrite decide_False. Qed.

Section Pipeline.
Variable md5_int : string → Z.

(** The four stages, one after the other. *)
Lemma filter_redundant_props (self : SubsumptionAnalyzer)
    (mutants : list Mutant) :
  NoDup (id <$> mutants) → mutants ≠ [] →
  ∃ final self',
    filter_redundant md5_int self mutants = Some (final, self')
    ∧ final ⊆+ mutants
    ∧ final ≠ []
    ∧ NoDup (location_key <$> final)
    ∧ total_input (stats self') = Z.of_nat (length mutants)
    ∧ total_output (stats self') = Z.of_nat (length final)
    ∧ (∃ n1 n2 n3 : nat,
         (length final ≤ n3 ≤ n2)%nat ∧ (n2 ≤ n1 ≤ length mutants)%nat
         ∧ exact_duplicates (stats self')
           = exact_duplicates (stats self)
             + (Z.of_nat (length mutants) - Z.of_nat n1)
         ∧ location_clustered (stats self')
           = location_clustered (stats self) + (Z.of_nat n1 - Z.of_nat n2)
         ∧ operator_subsumed (stats self')
           = operator_subsumed (stats self) + (Z.of_nat n2 - Z.of_nat n3)
         ∧ coverage_subsumed (stats self')
           = coverage_subsumed (stats self)
             + (Z.of_nat n3 - Z.of_nat (length final)))
    ∧ similarity_threshold self' = similarity_threshold self.
Proof.
  intros Hnd Hne. unfold filter_redundant.
  set (self0 := with_total_input (Z.of_nat (length mutants)) self).
  pose proof (remove_exact_duplicates_props self0 mutants) as H1.
  destruct (_remove_exact_duplicates self0 mutants) as [unique self1].
  cbn [fst snd] in H1.
  destruct H1 as (Hsub1 & _ & Hkeys1 & _ & Hc1 & Hs1 & _ & Ht1).
  pose proof (cluster_by_location_props self1 unique) as H2.
  destruct (_cluster_by_location self1 unique) as [clustered self2].
  cbn [fst snd] in H2.
  destruct H2 as (Hsub2 & Hloc2 & Hrep2 & _ & Hc2 & Hs2 & _ & Ht2).
  assert (clustered ⊆+ mutants) as Hsub12.
  { etrans; [exact Hsub2|]. by apply sublist_submseteq. }
  assert (NoDup (id <$> clustered)) as Hnd2
    by (by eapply NoDup_fmap_submseteq).
  pose proof (apply_operator_subsumption_props self2 clustered Hnd2) as H3.
  destruct (_apply_operator_subsumption self2 clustered)
    as [after_operator self3].
  cbn [fst snd] in H3. destruct H3 as (Hsub3 & Hsound3 & Hc3 & Hs3 & _ & Ht3).
  assert (NoDup (id <$> after_operator)) as Hnd3.
  { eapply NoDup_fmap_submseteq; [|exact Hnd2]. by apply sublist_submseteq. }
  pose proof (apply_coverage_subsumption_props md5_int self3 after_operator
                Hnd3) as H4.
  destruct (_apply_coverage_subsumption md5_int self3 after_operator)
    as [final self4].
  cbn [fst snd] in H4. destruct H4 as (Hsub4 & Hhead4 & Hc4 & Hs4 & Ht4 & _).
  assert (length mutants ≠ 0%nat) as Hlen by (by destruct mutants).
  rewrite truediv_is_Some by lia. simpl.
  exists final, (with_total_output (Z.of_nat (length final)) self4).
  split; [done|].
  (* none of the stages empties a non-empty list *)
  assert (unique ≠ []) as Hne1.
  { destruct mutants as [|m rest]; [done|].
    intros ->. specialize (Hkeys1 m (list_elem_of_here _ _)).
    by apply elem_of_nil in Hkeys1. }
  assert (clustered ≠ []) as Hne2.
  { destruct unique as [|m rest]; [done|].
    intros ->. destruct (Hrep2 m (list_elem_of_here _ _)) as (s & Hs & _).
    by apply elem_of_nil in Hs. }
  assert (after_operator ≠ []) as Hne3.
  { destruct clustered as [|m rest]; [done|]. intros ->.
    destruct (Hsound3 m (list_elem_of_here _ _)) as (s & Hs & _);
      [by intros ?%elem_of_nil|].
    by apply elem_of_nil in Hs. }
  assert (final ≠ []) as Hne4.
  { destruct after_operator as [|m rest]; [done|]. intros ->. done. }
  split.
  { etrans; [by apply sublist_submseteq|].
    etrans; [by apply sublist_submseteq|]. done. }
  split; [done|]. split.
  { eapply NoDup_fmap_submseteq; [|exact Hloc2].
    etrans; by apply sublist_submseteq. }
  destruct Hs1 as (Hi1 & Ho1 & _ & Hl1 & Hop1 & Hcov1).
  destruct Hs2 as (Hi2 & Ho2 & He2 & _ & Hop2 & Hcov2).
  destruct Hs3 as (Hi3 & Ho3 & He3 & Hl3 & _ & Hcov3).
  destruct Hs4 as (Hi4 & Ho4 & He4 & Hl4 & Hop4 & _).
  cbn [with_total_output with_stats stats total_input total_output
       similarity_threshold].
  split; [rewrite Hi4, Hi3, Hi2, Hi1; done|]. split; [done|]. split.
  - exists (length unique), (length clustered), (length after_operator).
    pose proof (sublist_length _ _ Hsub1).
    pose proof (submseteq_length _ _ Hsub2).
    pose proof (sublist_length _ _ Hsub3).
    pose proof (sublist_length _ _ Hsub4).
    split; [lia|]. split; [lia|].
    cbn [exact_duplicates location_clustered operator_subsumed
         coverage_subsumed].
    split; [rewrite He4, He3, He2 by done; exact Hc1|].
    split; [rewrite Hl4, Hl3 by done; rewrite Hc2, Hl1 by done; done|].
    split; [rewrite Hop4 by done; rewrite Hc3, Hop2, Hop1 by done; done|].
    rewrite Hc4, Hcov3, Hcov2, Hcov1 by done. done.
  - by rewrite Ht4, Ht3, Ht2, Ht1.
Qed.

(** X9.  [filter_redundant] raises exactly on the empty list: the percentage
    it prints at the end divides by the length of the input. *)
Theorem filter_redundant_raises_iff_empty (self : SubsumptionAnalyzer)
    (mutants : list Mutant) :
  filter_redundant md5_int self mutants = None ↔ mutants = [].
Proof.
  split; [|by intros ->].
  unfold filter_redundant.
  destruct (_remove_exact_duplicates _ mutants) as [unique self1].
  destruct (_cluster_by_location self1 unique) as [clustered self2].
  destruct (_apply_operator_subsumption self2 clustered)
    as [after_operator self3].
  destruct (_apply_coverage_subsumption md5_int self3 after_operator)
    as [final self4].
  destruct mutants as [|m rest]; [done|].
  rewrite truediv_is_Some; [done|]. simpl. lia.
Qed.

(** X10.  On mutants with distinct identifiers, the survivors of the
    pipeline are mutants of the input, each at most once and no two at the
    same file, line and column; a non-empty input leaves at least one
    survivor. *)
Theorem filter_redundant_survivors (self self' : SubsumptionAnalyzer)
    (mutants final : list Mutant) :
  NoDup (id <$> mutants) →
  filter_redundant md5_int self mutants = Some (final, self') →
  final ⊆+ mutants ∧ final ≠ [] ∧ NoDup (location_key <$> final).
Proof.
  intros Hnd Hrun.
  assert (mutants ≠ []) as Hne by (intros ->; discriminate).
  destruct (filter_redundant_props self mutants Hnd Hne)
    as (final0 & self0 & Hrun0 & Hsub & Hne' & Hloc & _).
  rewrite Hrun in Hrun0. injection Hrun0 as <- <-. done.
Qed.

(** X11.  On mutants with distinct identifiers, the pipeline records the
    length of its input and of its output, the four stage counters grow by
    amounts that are not negative and add up to the number of mutants
    eliminated, and the threshold is left as it was. *)
Theorem filter_redundant_bookkeeping (self self' : SubsumptionAnalyzer)
    (mutants final : list Mutant) :
  NoDup (id <$> mutants) →
  filter_redundant md5_int self mutants = Some (final, self') →
  total_input (stats self') = Z.of_nat (length mutants)
  ∧ total_output (stats self') = Z.of_nat (length final)
  ∧ exact_duplicates (stats self) ≤ exact_duplicates (stats self')
  ∧ location_clustered (stats self) ≤ location_clustered (stats self')
  ∧ operator_subsumed (stats self) ≤ operator_subsumed (stats self')
  ∧ coverage_subsumed (stats self) ≤ coverage_subsumed (stats self')
  ∧ (exact_duplicates (stats self') - exact_duplicates (stats self))
    + (location_clustered (stats self') - location_clustered (stats self))
    + (operator_subsumed (stats self') - operator_subsumed (stats self))
    + (coverage_subsumed (stats self') - coverage_subsumed (stats self))
    = total_input (stats self') - total_output (stats self')
  ∧ similarity_threshold self' = similarity_threshold self.
Proof.
  intros Hnd Hrun.
  assert (mutants ≠ []) as Hne by (intros ->; discriminate).
  destruct (filter_redundant_props self mutants Hnd Hne)
    as (final0 & self0 & Hrun0 & _ & _ & _ & Hi & Ho
        & (n1 & n2 & n3 & ? & ? & He & Hl & Hop & Hcov) & Ht).
  rewrite Hrun in Hrun0. injection Hrun0 as <- <-.
  rewrite Hi, Ho, He, Hl, Hop, Hcov. repeat split; try lia. done.
Qed.

(** X12.  After a run of the pipeline on mutants with distinct identifiers,
    [get_statistics] reports a reduction of at least 0 and less than 100
    percent, computed from the lengths of the input and of the output. *)
Theorem statistics_after_filter_redundant (self self' : SubsumptionAnalyzer)
    (mutants final : list Mutant) :
  NoDup (id <$> mutants) →
  filter_redundant md5_int self mutants = Some (final, self') →
  ∃ r, get_statistics self' = Some r
    ∧ counters r = stats self'
    ∧ (reduction_percent r
       == (1 - inject_Z (Z.of_nat (length final))
               / inject_Z (Z.of_nat (length mutants))) * 100)%Q
    ∧ (0 <= reduction_percent r)%Q ∧ (reduction_percent r < 100)%Q.
Proof.
  intros Hnd Hrun.
  assert (mutants ≠ []) as Hne by (intros ->; discriminate).
  destruct (filter_redundant_props self mutants Hnd Hne)
    as (final0 & self0 & Hrun0 & Hsub & Hne' & _ & Hi & Ho & _).
  rewrite Hrun in Hrun0. injection Hrun0 as <- <-.
  assert (0 < length mutants)%nat as Hlen by (destruct mutants; [done|simpl; lia]).
  assert (0 < length final)%nat as Hlen' by (destruct final; [done|simpl; lia]).
  pose proof (submseteq_length _ _ Hsub) as Hle.
  unfold get_statistics. rewrite Hi, Ho.
  destruct (Z.ltb_spec 0 (Z.of_nat (length mutants))) as [_|]; [|lia].
  rewrite truediv_is_Some by lia. simpl. eexists. split; [done|].
  split; [done|]. split; [done|].
  destruct (ratio_bounds (length final) (length mutants)) as [H0 H1];
    [lia..|].
  assert (0 < inject_Z (Z.of_nat (length final))
              / inject_Z (Z.of_nat (length mutants)))%Q as Hpos.
  { apply Qlt_shift_div_l; [by apply inject_nat_pos|].
    rewrite Qmult_0_l. by apply inject_nat_pos. }
  cbn [reduction_percent].
  set (q := (inject_Z (Z.of_nat (length final))
             / inject_Z (Z.of_nat (length mutants)))%Q) in *.
  clearbody q. split; lra.
Qed.

End Pipeline.

Section CoverageMapTheorems.
Variable md5_int : string → Z.

(** X14.  [map_mutant_coverage] only extends the cache, leaves an entry for
    the file and line of every mutant, and maps each identifier of the list
    to the cached set of the last mutant that bears it. *)
Theorem map_mutant_coverage_spec (cache : gmap string (gset string))
    (mutants : list Mutant) :
  let '(coverage_map, cache') := map_mutant_coverage md5_int cache mutants in
  cache ⊆ cache'
  ∧ (∀ m, m ∈ mutants → is_Some (cache' !! location_str m))
  ∧ (∀ i, coverage_map !! i
          = match last (filter (fun m => id m = i) mutants) with
            | Some m => cache' !! location_str m
            | None => None
            end).
Proof.
  unfold map_mutant_coverage.
  pose proof (coverage_loop_spec md5_int ∅ cache mutants) as H.
  destruct (foldl _ (∅, cache) mutants) as [coverage_map cache'].
  destruct H as (? & ? & Hcm). split; [done|]. split; [done|].
  intros i. rewrite Hcm. by rewrite lookup_empty.
Qed.

(** X15.  A second run of [map_mutant_coverage], on the cache the first run
    left, returns the same map and leaves the cache as it is. *)
Theorem map_mutant_coverage_again (cache : gmap string (gset string))
    (mutants : list Mutant) :
  let '(coverage_map, cache') := map_mutant_coverage md5_int cache mutants in
  map_mutant_coverage md5_int cache' mutants = (coverage_map, cache').
Proof.
  unfold map_mutant_coverage.
  pose proof (coverage_loop_spec md5_int ∅ cache mutants) as H.
  destruct (foldl _ (∅, cache) mutants) as [coverage_map cache'].
  destruct H as (_ & Hin & Hcm).
  pose proof (coverage_loop_spec md5_int ∅ cache' mutants) as H'.
  pose proof (coverage_loop_hits md5_int ∅ cache' mutants Hin) as Hc.
  destruct (foldl _ (∅, cache') mutants) as [coverage_map2 cache2].
  simpl in Hc. subst cache2. destruct H' as (_ & _ & Hcm').
  f_equal. apply map_eq. intros i. by rewrite Hcm, Hcm'.
Qed.

(** X16.  After [load_actual_coverage] the estimator returns the loaded set
    at every loaded location and leaves the cache alone; elsewhere it
    behaves as before the load. *)
Theorem load_actual_coverage_spec (cache coverage_data : gmap string (gset string))
    (m : Mutant) :
  let loaded := load_actual_coverage cache coverage_data in
  (∀ key, loaded !! key
          = match coverage_data !! key with
            | Some tests => Some tests
            | None => cache !! key
            end)
  ∧ (∀ tests, coverage_data !! location_str m = Some tests →
       _estimate_coverage md5_int loaded m = (tests, loaded))
  ∧ (coverage_data !! location_str m = None →
       (_estimate_coverage md5_int loaded m).1
       = (_estimate_coverage md5_int cache m).1).
Proof.
  assert (∀ key, load_actual_coverage cache coverage_data !! key
          = match coverage_data !! key with
            | Some tests => Some tests
            | None => cache !! key
            end) as Hl.
  { intros key. unfold load_actual_coverage. rewrite lookup_union.
    destruct (coverage_data !! key), (cache !! key); done. }
  split; [done|]. split.
  - intros tests Ht. apply estimate_coverage_hit. by rewrite Hl, Ht.
  - intros Hnone. unfold _estimate_coverage. rewrite Hl, Hnone.
    by destruct (cache !! location_str m).
Qed.

End CoverageMapTheorems.

(** ** Related operators *)

(** X13.  [_are_operators_related] is an equivalence: every operator is
    related to itself, the relation is symmetric, and it is transitive. Its
    classes are the families of [operator_family]: two operators are related
    exactly when they are both arithmetic, both conditional, both on results
    of calls, or the same operator. *)
Theorem operators_related_equivalence :
  (∀ a, _are_operators_related a a = true)
  ∧ (∀ a b, _are_operators_related a b = _are_operators_related b a)
  ∧ (∀ a b c, _are_operators_related a b = true →
              _are_operators_related b c = true →
              _are_operators_related a c = true)
  ∧ (∀ a b, _are_operators_related a b = true
            ↔ operator_family a = operator_family b).
Proof.
  split; [by intros []|]. split; [by intros [] []|]. split.
  - intros [] [] []; vm_compute; congruence.
  - intros [] []; vm_compute; split; congruence.
Qed.

(** ** Sorting keeps ties in place *)

Lemma filter_insert_by {A} (before : A → A → bool) (P : A → Prop)
    `{!∀ x, Decision (P x)} (x : A) (l : list A) :
  (P x → ∀ y, y ∈ l → P y → before y x = false) →
  filter P (insert_by before x l)
  = if decide (P x) then x :: filter P l else filter P l.
Proof.
  induction l as [|y l IH]; intros Hties.
  - cbn [insert_by]. rewrite filter_cons, !filter_nil. by destruct (decide (P x)).
  - cbn [insert_by]. destruct (before y x) eqn:Hyx.
    + rewrite !filter_cons, IH.
      * destruct (decide (P x)) as [HPx|]; [|done].
        destruct (decide (P y)) as [HPy|]; [|done].
        specialize (Hties HPx y (list_elem_of_here _ _) HPy). congruence.
      * intros HPx z Hz. apply Hties; [done|by right].
    + by rewrite filter_cons.
Qed.

Lemma filter_stable_sort {A} (before : A → A → bool) (P : A → Prop)
    `{!∀ x, Decision (P x)} (l : list A) :
  (∀ x y, P x → P y → before y x = false) →
  filter P (stable_sort before l) = filter P l.
Proof.
  intros Hties. induction l as [|x l IH]; [done|].
  simpl. fold (stable_sort before l).
  rewrite filter_insert_by, IH, filter_cons; [done|].
  intros HPx y _ HPy. by apply Hties.
Qed.

Lemma StronglySorted_weaken {A} (R R' : A → A → Prop) (l : list A) :
  (∀ x y, R x y → R' x y) → StronglySorted R l → StronglySorted R' l.
Proof.
  intros HR. induction 1 as [|x l _ IH Hx]; constructor; [done|].
  eapply Forall_impl; [exact Hx|]. intros y. apply HR.
Qed.

(** ** [_precompute_metrics] *)

Section ScorerBatch.
Variable math_exp : Q → Q.
Variable analyze_file : string → CodeMetrics.
Variable history : gmap string HistoricalData.
Variable bugs : gmap string Z.

Local Abbreviation attach_metrics := (attach_metrics analyze_file history).
Local Abbreviation _precompute_metrics :=
  (_precompute_metrics analyze_file history).
Local Abbreviation _compute_normalized_factors :=
  (_compute_normalized_factors math_exp bugs).
Local Abbreviation score_all := (score_all math_exp analyze_file history bugs).
Local Abbreviation score_single :=
  (score_single math_exp analyze_file history bugs).

(** The cache after one mutant. *)
Lemma attach_metrics_cache (cache : gmap string CodeMetrics) (m : Mutant)
    (p : string) :
  (attach_metrics cache m).2 !! p
  = match cache !! p with
    | Some c => Some c
    | None => if decide (p = file_path (location m))
              then Some (analyze_file p) else None
    end.
Proof.
  unfold MultiFactorScorer.attach_metrics.
  destruct (cache !! file_path (location m)) as [c|] eqn:Hc; simpl.
  - destruct (cache !! p) eqn:Hp; [done|].
    rewrite decide_False; [done|]. intros ->. congruence.
  - destruct (decide (p = file_path (location m))) as [->|Hne].
    + by rewrite lookup_insert_eq, Hc.
    + rewrite lookup_insert_ne by done. by destruct (cache !! p).
Qed.

Lemma attach_metrics_mutant (cache : gmap string CodeMetrics) (m : Mutant) :
  ∃ metrics,
    (attach_metrics cache m).2 !! file_path (location m) = Some metrics
    ∧ (attach_metrics cache m).1
      = set_historical_data (get_operator_history history (operator m))
          (set_code_metrics metrics m).
Proof.
  unfold MultiFactorScorer.attach_metrics.
  destruct (cache !! file_path (location m)) as [c|] eqn:Hc; simpl.
  - by exists c.
  - exists (analyze_file (file_path (location m))).
    by rewrite lookup_insert_eq.
Qed.

Lemma precompute_metrics_props (cache : gmap string CodeMetrics)
    (mutants : list Mutant) :
  let out := (_precompute_metrics cache mutants).1 in
  let cache' := (_precompute_metrics cache mutants).2 in
  (∀ p, cache' !! p
        = match cache !! p with
          | Some c => Some c
          | None =>
              if decide (p ∈ (fun m => file_path (location m)) <$> mutants)
              then Some (analyze_file p) else None
          end)
  ∧ Forall2 (fun m m' =>
       ∃ metrics,
         cache' !! file_path (location m) = Some metrics
         ∧ m' = set_historical_data (get_operator_history history (operator m))
                  (set_code_metrics metrics m))
      mutants out.
Proof.
  revert cache. induction mutants as [|m mutants IH]; intros cache.
  - simpl. split; [|constructor]. intros p. by destruct (cache !! p).
  - simpl.
    pose proof (attach_metrics_cache cache m) as Hc1.
    destruct (attach_metrics_mutant cache m) as (metrics & Hl1 & Hm1).
    destruct (attach_metrics cache m) as [m1 cache1]. simpl in Hc1, Hl1, Hm1.
    specialize (IH cache1).
    destruct (_precompute_metrics cache1 mutants) as [rest cache2].
    simpl in IH |- *. destruct IH as [Hc2 Hall].
    assert (∀ p, cache2 !! p
        = match cache !! p with
          | Some c => Some c
          | None =>
              if decide (p ∈ file_path (location m)
                             :: ((fun m => file_path (location m)) <$> mutants))
              then Some (analyze_file p) else None
          end) as Hc.
    { intros p. rewrite Hc2, Hc1. destruct (cache !! p); [done|].
      destruct (decide (p = file_path (location m))) as [->|Hne].
      - rewrite decide_True; [done|by left].
      - destruct (decide (p ∈ _ <$> mutants)) as [Hin|Hout].
        + rewrite decide_True; [done|by right].
        + rewrite decide_False; [done|].
          by intros [?|?]%elem_of_cons. }
    split; [done|]. constructor; [|done].
    exists metrics. split; [|done].
    rewrite Hc2, Hl1. done.
Qed.

(** ** [score_all] *)

Lemma score_all_props (cache cache' : gmap string CodeMetrics)
    (mutants scored : list Mutant) :
  score_all cache mutants = Some (scored, cache') →
  cache' = (_precompute_metrics cache mutants).2
  ∧ StronglySorted (fun x y => (priority_score y <= priority_score x)%Q) scored
  ∧ ∃ batch,
      Forall2 (annotated history cache') mutants batch
      ∧ scored ≡ₚ batch
      ∧ ∀ s, filter (fun m => Qeq_bool (priority_score m) s = true) scored
             = filter (fun m => Qeq_bool (priority_score m) s = true) batch.
Proof.
  unfold MultiFactorScorer.score_all.
  destruct (precompute_metrics_props cache mutants) as [_ Hpre].
  destruct (_precompute_metrics cache mutants) as [mutants1 cache1].
  cbn [fst snd] in Hpre |- *.
  destruct (_compute_normalized_factors mutants1) as [normalized|]; [|done].
  simpl. destruct (mapM _ mutants1) as [mutants2|] eqn:Hm; [|done].
  simpl. intros [= <- <-]. split; [done|]. split.
  { eapply StronglySorted_weaken;
      [|apply (stable_sort_sorted score_before score_before_asym
                 score_before_negtrans)].
    intros x y. unfold score_before. rewrite negb_false_iff.
    apply Qle_bool_iff. }
  exists mutants2. split; [|split].
  - apply mapM_Some in Hm. clear -Hpre Hm.
    revert mutants2 Hm. induction Hpre as [|m m1 l l1 Hm1 _ IH];
      intros mutants2 Hm; inversion Hm as [|? m2 ? l2 Hs Hrest]; subst;
      constructor; [|by apply IH].
    destruct Hm1 as (metrics & Hl & ->).
    destruct (_calculate_weighted_score _ normalized) as [s|]; [|done].
    simpl in Hs. injection Hs as <-. by exists metrics.
  - apply stable_sort_Permutation.
  - intros s. apply filter_stable_sort. intros x y Hx Hy.
    unfold score_before. apply negb_false_iff, Qle_bool_iff.
    apply Qeq_bool_iff in Hx, Hy. rewrite Hx, Hy. apply Qle_refl.
Qed.

(** X17.  The cache of [_precompute_metrics] holds the analysis of every
    file of the batch, made once per file that was not cached, and nothing
    else is added; every mutant leaves with the metrics of its file and the
    history of its operator. *)
Theorem precompute_metrics_spec (cache : gmap string CodeMetrics)
    (mutants : list Mutant) :
  let '(out, cache') := _precompute_metrics cache mutants in
  (∀ p, cache' !! p
        = match cache !! p with
          | Some c => Some c
          | None =>
              if decide (p ∈ (fun m => file_path (location m)) <$> mutants)
              then Some (analyze_file p) else None
          end)
  ∧ Forall2 (fun m m' =>
       ∃ metrics,
         cache' !! file_path (location m) = Some metrics
         ∧ m' = set_historical_data (get_operator_history history (operator m))
                  (set_code_metrics metrics m))
      mutants out.
Proof.
  pose proof (precompute_metrics_props cache mutants) as H.
  by destruct (_precompute_metrics cache mutants) as [out cache'].
Qed.

(** X18.  On integers in the range of floats, [score_all] raises exactly on
    the empty batch ([min] of an empty list). The premises keep the metrics
    of the cache and of the analysis, the counts of the history and the bug
    counts within [max_float]; beyond it the divisions of the raw factors
    raise in the code. *)
Theorem score_all_raises_iff_empty (cache : gmap string CodeMetrics)
    (mutants : list Mutant) :
  (∀ p, float_sized_metrics (analyze_file p)) →
  map_Forall (fun _ c => float_sized_metrics c) cache →
  map_Forall (fun _ h => float_sized_history h) history →
  map_Forall (fun _ n => float_sized n) bugs →
  (score_all cache mutants = None ↔ mutants = []).
Proof.
  intros _ _ _ _. split; [|by intros ->].
  intros Hnone. destruct mutants as [|m rest]; [done|].
  destruct (score_all_is_Some math_exp analyze_file history bugs cache
              (m :: rest)) as [r Hr]; [done|].
  congruence.
Qed.

(** X19.  The list [score_all] returns is in descending order of priority
    score. *)
Theorem score_all_descending (cache cache' : gmap string CodeMetrics)
    (mutants scored : list Mutant) :
  score_all cache mutants = Some (scored, cache') →
  StronglySorted (fun x y => (priority_score y <= priority_score x)%Q) scored.
Proof. intros H. by destruct (score_all_props _ _ _ _ H) as (_ & ? & _). Qed.

(** X20.  [score_all] returns the mutants of the batch, each with the
    metrics of its file, the history of its operator and a score, and
    nothing else changed; mutants with the same score come out in the order
    they went in. *)
Theorem score_all_annotates (cache cache' : gmap string CodeMetrics)
    (mutants scored : list Mutant) :
  score_all cache mutants = Some (scored, cache') →
  ∃ batch,
    Forall2 (annotated history cache') mutants batch
    ∧ scored ≡ₚ batch
    ∧ ∀ s, filter (fun m => Qeq_bool (priority_score m) s = true) scored
           = filter (fun m => Qeq_bool (priority_score m) s = true) batch.
Proof. intros H. by destruct (score_all_props _ _ _ _ H) as (_ & _ & ?). Qed.

(** X21.  With a context, [score_single] returns the highest score of the
    batch made of the mutant and the context, whichever mutant has it. *)
Theorem score_single_with_context (cache : gmap string CodeMetrics)
    (m c : Mutant) (context : list Mutant) :
  ∃ scored s cache',
    score_all cache (m :: c :: context) = Some (scored, cache')
    ∧ score_single cache m (c :: context) = Some (s, cache')
    ∧ (∃ top, top ∈ scored ∧ priority_score top = s)
    ∧ Forall (fun x => (priority_score x <= s)%Q) scored.
Proof.
  destruct (score_all_is_Some math_exp analyze_file history bugs cache
              (m :: c :: context)) as [[scored cache'] Hall]; [done|].
  destruct (score_all_props _ _ _ _ Hall)
    as (_ & Hsorted & batch & Hbatch & Hperm & _).
  unfold MultiFactorScorer.score_single. rewrite Hall. simpl.
  destruct scored as [|top rest].
  { apply Permutation_nil_l in Hperm. subst batch.
    by apply Forall2_length in Hbatch. }
  simpl. exists (top :: rest), (priority_score top), cache'.
  split; [done|]. split; [done|]. split.
  - exists top. split; [by left|done].
  - apply StronglySorted_inv in Hsorted as [_ Hall'].
    constructor; [apply Qle_refl|done].
Qed.

(** C1.  When [score_all] returns, the returned list is a permutation of
    the batch in which every mutant has the metrics of its file, the
    history of its operator and a [priority_score] in [0, 10]: every mutant
    of the batch is returned, with its score in this interval. *)
Theorem score_all_priority_bounds (cache cache' : gmap string CodeMetrics)
    (mutants scored : list Mutant) :
  score_all cache mutants = Some (scored, cache') →
  ∃ batch,
    scored ≡ₚ batch
    ∧ Forall2 (fun m a =>
                 annotated history cache' m a
                 ∧ (0 <= priority_score a <= 10)%Q)
        mutants batch.
Proof.
  intros H.
  destruct (score_all_props _ _ _ _ H) as (_ & _ & batch & Hbatch & Hperm & _).
  pose proof (score_all_scores_in_range math_exp analyze_file history bugs
                _ _ _ _ H) as Hrange.
  rewrite Hperm in Hrange. exists batch. split; [done|].
  clear -Hbatch Hrange.
  induction Hbatch as [|m a l k Ha _ IH]; [constructor|].
  apply Forall_cons in Hrange as [Hr Hrest].
  constructor; [done|by apply IH].
Qed.

End ScorerBatch.

(** ** The raw factors *)

Lemma kill_rate_bounds (h : HistoricalData) :
  plausible_history h → unit_interval (kill_rate h).
Proof.
  intros [Hk Hs]. unfold kill_rate, unit_interval.
  destruct (decide (times_killed h + times_survived h = 0)); [lra|].
  assert (0 < inject_Z (times_killed h + times_survived h))%Q as Hpos.
  { change 0%Q with (inject_Z 0). rewrite <- Zlt_Qlt. lia. }
  split.
  - apply Qle_shift_div_l; [done|]. rewrite Qmult_0_l.
    change 0%Q with (inject_Z 0). rewrite <- Zle_Qle. lia.
  - apply Qle_shift_div_r; [done|]. rewrite Qmult_1_l.
    rewrite <- Zle_Qle. lia.
Qed.

Lemma capped_ratio_bounds (n : Z) (d : Q) :
  0 ≤ n → (0 < d)%Q → unit_interval (Qmin (inject_Z n / d) 1).
Proof.
  intros Hn Hd. split; [|apply Q.le_min_r].
  apply Q.min_glb; [|lra].
  apply Qle_shift_div_l; [done|]. rewrite Qmult_0_l.
  change 0%Q with (inject_Z 0). rewrite <- Zle_Qle. lia.
Qed.

Section RawFactors.
Variable math_exp : Q → Q.
Variable analyze_file : string → CodeMetrics.
Variable history : gmap string HistoricalData.
Variable bugs : gmap string Z.

Hypothesis exp_bounds : exp_like math_exp.
Hypothesis analysis_plausible : ∀ p, plausible_metrics (analyze_file p).
Hypothesis history_plausible :
  map_Forall (fun _ h => plausible_history h) history.
Hypothesis bugs_plausible : map_Forall (fun _ n => 0 ≤ n) bugs.

(** X22.  Without context, on metrics, history counts and bug counts that
    are not negative, [score_single] returns a score in [0, 10]. *)
Theorem score_single_standalone_bounds (cache : gmap string CodeMetrics)
    (m : Mutant) :
  map_Forall (fun _ c => plausible_metrics c) cache →
  ∃ s cache',
    score_single math_exp analyze_file history bugs cache m []
    = Some (s, cache')
    ∧ (0 <= s <= 10)%Q.
Proof.
  intros Hcache. rewrite score_single_no_context.
  eexists _, _. split; [done|].
  destruct (attach_metrics_mutant analyze_file history cache m)
    as (metrics & Hl & ->).
  assert (plausible_metrics metrics) as (Hcy & Hcg & Hn & Hp & Hd).
  { rewrite attach_metrics_cache in Hl.
    destruct (cache !! file_path (location m)) as [c|] eqn:Hc.
    - injection Hl as <-. by apply (Hcache _ _ Hc).
    - rewrite decide_True in Hl by done. injection Hl as <-.
      apply analysis_plausible. }
  unfold _weighted_sum. apply (weighted_bounds (_compute_factors_single math_exp bugs _)). intros name.
  destruct name; cbn [factor_value _compute_factors_single historical
    complexity security recency bug_history].
  - unfold _historical_factor. simpl. apply kill_rate_bounds.
    unfold get_operator_history.
    destruct (history !! operator_value (operator m)) as [h|] eqn:Hh.
    + by apply (history_plausible _ _ Hh).
    + split; simpl; lia.
  - unfold _complexity_factor. simpl.
    destruct (capped_ratio_bounds (cyclomatic_complexity metrics) 20 Hcy)
      as [? ?]; [done|].
    destruct (capped_ratio_bounds (cognitive_complexity metrics) 30 Hcg)
      as [? ?]; [done|].
    destruct (capped_ratio_bounds (nesting_depth metrics) 5 Hn)
      as [? ?]; [done|].
    destruct (capped_ratio_bounds (number_of_parameters metrics) 8 Hp)
      as [? ?]; [done|].
    split; lra.
  - unfold _security_factor. simpl.
    destruct (is_security_critical metrics); [split; lra|].
    destruct (is_public_api metrics); split; lra.
  - unfold _recency_factor. simpl. apply exp_bounds.
    assert (0 <= inject_Z (last_modified_days_ago metrics))%Q.
    { change 0%Q with (inject_Z 0). rewrite <- Zle_Qle. lia. }
    set (q := inject_Z (last_modified_days_ago metrics)) in *.
    clearbody q. change (- q / 10)%Q with (- q * (1 # 10))%Q. lra.
  - unfold _bug_history_factor. apply capped_ratio_bounds; [|done].
    unfold get_historical_bug_count. cbn [location set_historical_data set_code_metrics].
    destruct (bugs !! file_path (location m)) as [n|] eqn:Hb; simpl; [|lia].
    by apply (bugs_plausible _ _ Hb).
Qed.

End RawFactors.

(** ** Clustering by proximity ([MutantClusterer]) *)

Lemma cluster_name_inj (a b : Z) : cluster_name a = cluster_name b → a = b.
Proof.
  unfold cluster_name. intros H.
  apply (inj (String.app _)) in H. by apply (inj pretty).
Qed.

Lemma cluster_keys_S (n : nat) :
  cluster_keys (S n) = cluster_keys n ++ [cluster_name (Z.of_nat n)].
Proof. unfold cluster_keys. by rewrite seq_S, fmap_app. Qed.

Lemma cluster_name_fresh (n : nat) :
  cluster_name (Z.of_nat n) ∉ cluster_keys n.
Proof.
  unfold cluster_keys. intros (i & Heq & Hi)%list_elem_of_fmap.
  apply cluster_name_inj in Heq. apply elem_of_seq in Hi. lia.
Qed.

Lemma dict_set_fresh {V} (key : string) (v : V) (d : list (string * V)) :
  key ∉ d.*1 → dict_set key v d = d ++ [(key, v)].
Proof.
  induction d as [|[k v0] d IH]; intros Hfresh; [done|]. simpl.
  rewrite fmap_cons in Hfresh. apply not_elem_of_cons in Hfresh as [Hne Hd].
  rewrite decide_False by done. by rewrite IH.
Qed.

Lemma flush_cluster_spec (cur : list Mutant)
    (st : list (string * list Mutant) * Z) :
  numbered st →
  numbered (flush_cluster cur st)
  ∧ (flush_cluster cur st).1.*2
    = st.1.*2 ++ match cur with [] => [] | _ :: _ => [cur] end.
Proof.
  intros [Hn Hk]. destruct cur as [|m cur]; simpl.
  { split; [done|]. by rewrite app_nil_r. }
  rewrite Hn, dict_set_fresh by (rewrite Hk; apply cluster_name_fresh).
  split; [|by rewrite fmap_app].
  split; simpl.
  - rewrite length_app. simpl. lia.
  - rewrite fmap_app, length_app, Hk. simpl.
    by rewrite Nat.add_1_r, cluster_keys_S.
Qed.

Lemma head_concat_cons (q : list Mutant) (ps : list (list Mutant)) :
  q ≠ [] → head (concat (q :: ps)) = head q.
Proof. by destruct q. Qed.

Lemma separated_cons (t : Z) (p : list Mutant) (ps : list (list Mutant)) :
  (∀ q ps' a b, ps = q :: ps' → last p = Some a → head q = Some b →
     t < line_start (location b) - line_start (location a)) →
  separated t ps → separated t (p :: ps).
Proof.
  intros Hfirst Hrest ps1 p0 q ps2 a b Heq Ha Hb.
  destruct ps1 as [|x ps1]; simpl in Heq.
  - injection Heq as <- ->. by eapply Hfirst.
  - injection Heq as <- ->. by eapply Hrest.
Qed.

Lemma separated_single (t : Z) (p : list Mutant) : separated t [p].
Proof.
  intros [|x [|y ps1]] p0 q ps2 a b Heq; simpl in Heq; discriminate.
Qed.

Lemma close_neighbours_snoc (t : Z) (cur : list Mutant) (m : Mutant) :
  close_neighbours t cur →
  (∀ a, last cur = Some a →
     line_start (location m) - line_start (location a) ≤ t) →
  close_neighbours t (cur ++ [m]).
Proof.
  intros Hcur Hlast c1 a b c2 Heq.
  destruct c2 as [|x c2 _] using rev_ind.
  - change (c1 ++ [a; b]) with (c1 ++ [a] ++ [b]) in Heq.
    rewrite app_assoc in Heq. apply app_inj_tail in Heq as [-> ->].
    apply Hlast. apply last_snoc.
  - change (c1 ++ a :: b :: c2 ++ [x]) with (c1 ++ (a :: b :: c2) ++ [x]) in Heq.
    rewrite app_assoc in Heq. apply app_inj_tail in Heq as [-> _].
    by eapply Hcur.
Qed.

(** The loop over one file. *)
Lemma proximity_loop_spec (t : Z) (l : list Mutant)
    (st : list (string * list Mutant) * Z) (cur : list Mutant) (last_line : Z) :
  numbered st →
  (∀ a, last cur = Some a → last_line = line_start (location a)) →
  close_neighbours t cur →
  numbered (proximity_loop t l st cur last_line).1
  ∧ (cur ≠ [] ∨ l ≠ [] → (proximity_loop t l st cur last_line).2 ≠ [])
  ∧ ∃ pieces,
      (proximity_loop t l st cur last_line).1.1.*2 = st.1.*2 ++ pieces
      ∧ concat pieces ++ (proximity_loop t l st cur last_line).2 = cur ++ l
      ∧ Forall (fun p => p ≠ []) pieces
      ∧ Forall (close_neighbours t) pieces
      ∧ close_neighbours t (proximity_loop t l st cur last_line).2
      ∧ separated t (pieces ++ [(proximity_loop t l st cur last_line).2]).
Proof.
  revert st cur last_line.
  induction l as [|m rest IH]; intros st cur last_line Hst Hlast Hcur.
  { simpl. split; [done|]. split; [by intros [?|?]|].
    exists []. rewrite !app_nil_r. simpl.
    split; [done|]. split; [done|]. split; [constructor|].
    split; [constructor|]. split; [done|]. apply separated_single. }
  simpl. destruct (Z.ltb_spec t (line_start (location m) - last_line))
    as [Hfar|Hnear].
  - destruct (flush_cluster_spec cur st Hst) as [Hst1 Hcl1].
    destruct (IH (flush_cluster cur st) [m] (line_start (location m)) Hst1)
      as (Hst' & Hne' & pieces' & Hcl' & Hcat' & Hnes' & Hclose' & Hcur' & Hsep').
    { intros a [= <-]. done. }
    { intros [|x [|y c1]] a b c2 Heq; simpl in Heq; discriminate. }
    split; [done|]. split; [intros _; apply Hne'; by left|].
    destruct cur as [|c0 cur0].
    + exists pieces'. rewrite Hcl', Hcl1, app_nil_r.
      split; [done|]. split; [done|]. done.
    + exists ((c0 :: cur0) :: pieces'). rewrite Hcl', Hcl1, <- app_assoc.
      split; [done|]. split.
      { simpl. rewrite <- app_assoc. f_equal. f_equal. exact Hcat'. }
      split; [by constructor|]. split; [by constructor|]. split; [done|].
      apply separated_cons; [|done].
      intros q ps' a b Hq Ha Hb.
      assert (q ≠ []) as Hqne by (intros ->; discriminate).
      assert (head (concat (q :: ps')) = Some m) as Hhead.
      { rewrite <- Hq.
        by rewrite concat_app, concat_cons, concat_nil, app_nil_r, Hcat'. }
      rewrite head_concat_cons, Hb in Hhead by done.
      injection Hhead as ->. by rewrite <- (Hlast a Ha).
  - destruct (IH st (cur ++ [m]) (line_start (location m)) Hst)
      as (Hst' & Hne' & pieces' & Hcl' & Hcat' & Hrest).
    { intros a Ha. rewrite last_snoc in Ha. by injection Ha as <-. }
    { apply close_neighbours_snoc; [done|].
      intros a Ha. rewrite <- (Hlast a Ha). lia. }
    split; [done|]. split.
    { intros _. apply Hne'. left. by destruct cur. }
    exists pieces'. split; [done|]. split; [|done].
    by rewrite Hcat', <- app_assoc.
Qed.

Lemma cluster_file_spec (t : Z) (st : list (string * list Mutant) * Z)
    (g : list Mutant) :
  numbered st → g ≠ [] →
  numbered (cluster_file t st g)
  ∧ ∃ ps, (cluster_file t st g).1.*2 = st.1.*2 ++ ps
      ∧ runs_of t (stable_sort line_before g) ps.
Proof.
  intros Hst Hg. unfold cluster_file.
  destruct (proximity_loop_spec t (stable_sort line_before g) st [] (-999) Hst)
    as (Hst' & Hne' & pieces & Hcl & Hcat & Hnes & Hclose & Hcur & Hsep).
  { intros a Ha. discriminate. }
  { intros [|x [|y c1]] a b c2 Heq; simpl in Heq; discriminate. }
  destruct (proximity_loop t (stable_sort line_before g) st [] (-999))
    as [st' cur']. cbn [fst snd] in *.
  assert (cur' ≠ []) as Hcur'.
  { apply Hne'. right. intros Hnil.
    pose proof (stable_sort_Permutation line_before g) as Hp.
    rewrite Hnil in Hp. by apply Permutation_nil_l in Hp. }
  destruct (flush_cluster_spec cur' st' Hst') as [Hst2 Hcl2].
  split; [done|]. exists (pieces ++ [cur']).
  split.
  { rewrite Hcl2, Hcl, <- app_assoc. by destruct cur'. }
  split; [by rewrite concat_app; simpl; rewrite app_nil_r|].
  split; [apply Forall_app; split; [done|by constructor]|].
  split; [apply Forall_app; split; [done|by constructor]|]. done.
Qed.

Local Abbreviation cluster_loop t st groups :=
  (foldl (fun st '(_, file_mutants) => cluster_file t st file_mutants)
         st (groups : list (string * list Mutant))).

Lemma cluster_loop_spec (t : Z) (groups : list (string * list Mutant))
    (st : list (string * list Mutant) * Z) :
  numbered st → Forall (fun kg => kg.2 ≠ []) groups →
  numbered (cluster_loop t st groups)
  ∧ ∃ pss, (cluster_loop t st groups).1.*2 = st.1.*2 ++ concat pss
      ∧ Forall2 (fun kg ps => runs_of t (stable_sort line_before kg.2) ps)
          groups pss.
Proof.
  revert st. induction groups as [|[k g] groups IH]; intros st Hst Hne.
  { simpl. split; [done|]. exists []. simpl. rewrite app_nil_r.
    split; [done|constructor]. }
  apply Forall_cons in Hne as [Hg Hne]. simpl in Hg. simpl.
  destruct (cluster_file_spec t st g Hst Hg) as (Hst1 & ps & Hcl1 & Hruns).
  destruct (IH (cluster_file t st g) Hst1 Hne) as (Hst' & pss & Hcl' & Hall).
  split; [done|]. exists (ps :: pss). split; [|by constructor].
  rewrite Hcl', Hcl1. simpl. by rewrite <- app_assoc.
Qed.

Lemma group_by_file_nonempty (mutants : list Mutant) :
  Forall (fun kg : string * list Mutant => kg.2 ≠ []) (group_by_file mutants).
Proof.
  apply Forall_forall. intros [k g] Hin. unfold group_by_file in Hin.
  by destruct (grouped_content (fun m => file_path (location m)) _ _ _ Hin).
Qed.

Lemma Forall2_Forall_l {A B} (P : A → Prop) (R : A → B → Prop)
    (l : list A) (k : list B) :
  Forall P l → Forall2 R l k → Forall2 (fun x y => P x ∧ R x y) l k.
Proof.
  intros HP HR. induction HR as [|x y l k Hxy _ IH]; [constructor|].
  apply Forall_cons in HP as [Hx HP]. constructor; [done|by apply IH].
Qed.

(** What [cluster] returns, file by file. *)
Lemma cluster_props (self : MutantClusterer) (mutants : list Mutant) :
  (cluster self mutants).*1 = cluster_keys (length (cluster self mutants))
  ∧ ∃ pss,
      (cluster self mutants).*2 = concat pss
      ∧ Forall2 (fun kg ps =>
           kg.2 = filter (fun m => file_path (location m) = kg.1) mutants
           ∧ runs_of (proximity_threshold self)
               (stable_sort line_before kg.2) ps)
          (group_by_file mutants) pss.
Proof.
  unfold cluster.
  destruct (cluster_loop_spec (proximity_threshold self)
              (group_by_file mutants) ([], 0))
    as ([_ Hk] & pss & Hcl & Hall);
    [done|apply group_by_file_nonempty|].
  split; [done|]. exists pss. split; [done|].
  assert (Forall (fun kg : string * list Mutant =>
            kg.2 = filter (fun m => file_path (location m) = kg.1) mutants)
            (group_by_file mutants)) as Hc.
  { apply Forall_forall. intros [k g] Hin. unfold group_by_file in Hin.
    by destruct (grouped_content (fun m => file_path (location m)) _ _ _ Hin). }
  by apply Forall2_Forall_l.
Qed.

(** X23.  [cluster] splits the mutants of every file, taken in the order in
    which the files first appear and sorted by line, into runs: within a
    cluster neighbours are at most [proximity_threshold] lines apart, and
    from one cluster of a file to the next there are more lines than that.
    The keys are [cluster_0], [cluster_1], ... in this order. *)
Theorem cluster_runs (self : MutantClusterer) (mutants : list Mutant) :
  (cluster self mutants).*1 = cluster_keys (length (cluster self mutants))
  ∧ ∃ pss,
      (cluster self mutants).*2 = concat pss
      ∧ Forall2 (fun kg ps =>
           kg.2 = filter (fun m => file_path (location m) = kg.1) mutants
           ∧ runs_of (proximity_threshold self)
               (stable_sort line_before kg.2) ps)
          (group_by_file mutants) pss.
Proof. apply cluster_props. Qed.

Lemma concat_runs_Permutation (t : Z) (groups : list (string * list Mutant))
    (pss : list (list (list Mutant))) :
  Forall2 (fun kg ps => runs_of t (stable_sort line_before kg.2) ps)
    groups pss →
  concat (concat pss) ≡ₚ concat groups.*2.
Proof.
  induction 1 as [|kg ps groups pss (Hcat & _) _ IH]; [done|].
  simpl. rewrite concat_app, Hcat, stable_sort_Permutation. by rewrite IH.
Qed.

Lemma cluster_partition_props (self : MutantClusterer) (mutants : list Mutant) :
  concat (cluster self mutants).*2 ≡ₚ mutants
  ∧ Forall (fun c =>
       c ≠ []
       ∧ (∀ m m', m ∈ c → m' ∈ c →
            file_path (location m) = file_path (location m'))
       ∧ chained (proximity_threshold self) c)
      (cluster self mutants).*2.
Proof.
  destruct (cluster_props self mutants) as (_ & pss & -> & Hall).
  split.
  - rewrite (concat_runs_Permutation (proximity_threshold self)
               (group_by_file mutants)).
    + apply (grouped_concat (fun m => file_path (location m))).
    + eapply Forall2_impl; [exact Hall|]. by intros ? ? [_ ?].
  - induction Hall as [|[k g] ps groups pss [Hg Hruns] _ IH]; [constructor|].
    simpl. apply Forall_app. split; [|done].
    destruct Hruns as (Hcat & Hne & Hclose & _). simpl in Hg, Hcat.
    pose proof (stable_sort_sorted line_before line_before_asym
                  line_before_negtrans g) as Hsorted.
    rewrite <- Hcat in Hsorted.
    apply Forall_forall. intros c Hc.
    apply list_elem_of_split in Hc as (ps1 & ps2 & ->).
    apply Forall_app in Hne as [_ [Hcne _]%Forall_cons].
    apply Forall_app in Hclose as [_ [Hcclose _]%Forall_cons].
    rewrite concat_app in Hcat, Hsorted. simpl in Hcat, Hsorted.
    split; [done|]. split.
    + assert (∀ m, m ∈ c → file_path (location m) = k) as Hfile.
      { intros m Hm.
        assert (m ∈ stable_sort line_before g) as Hin.
        { rewrite <- Hcat. apply elem_of_app. right.
          apply elem_of_app. by left. }
        rewrite stable_sort_Permutation, Hg in Hin.
        by apply list_elem_of_filter in Hin as [? _]. }
      intros m m' Hm Hm'. by rewrite (Hfile m Hm), (Hfile m' Hm').
    + intros c1 a b c2 ->. split; [|by eapply Hcclose].
      assert (line_before b a = false) as Hord.
      { replace (concat ps1 ++ (c1 ++ a :: b :: c2) ++ concat ps2)
          with ((concat ps1 ++ c1) ++ a :: (b :: c2 ++ concat ps2)) in Hsorted
          by (by rewrite <- !app_assoc).
        apply (StronglySorted_app_cons _ _ _ _ _ Hsorted). by left. }
      unfold line_before in Hord. apply Z.ltb_ge in Hord. lia.
Qed.

(** X24.  The clusters are a partition of the input: together they hold the
    mutants of the input, each as often as the input does; no cluster is
    empty; a cluster holds mutants of one file only, in line order, with
    neighbours at most [proximity_threshold] lines apart. *)
Theorem cluster_partition (self : MutantClusterer) (mutants : list Mutant) :
  concat (cluster self mutants).*2 ≡ₚ mutants
  ∧ length (concat (cluster self mutants).*2) = length mutants
  ∧ Forall (fun c =>
       c ≠ []
       ∧ (∀ m m', m ∈ c → m' ∈ c →
            file_path (location m) = file_path (location m'))
       ∧ chained (proximity_threshold self) c)
      (cluster self mutants).*2.
Proof.
  destruct (cluster_partition_props self mutants) as [Hperm Hall].
  split; [done|]. split; [by rewrite Hperm|done].
Qed.

(** ** Representatives *)

Lemma elem_of_concat_2 {A} (x : A) (c : list A) (cs : list (list A)) :
  x ∈ c → c ∈ cs → x ∈ concat cs.
Proof.
  intros Hx. induction cs as [|c' cs IH]; [by intros ?%elem_of_nil|].
  intros [->|Hc]%elem_of_cons; simpl; apply elem_of_app;
    [by left|right; by apply IH].
Qed.

Lemma select_representatives_snoc (clusters : list (string * list Mutant))
    (k : string) (c : list Mutant) :
  select_representatives (clusters ++ [(k, c)])
  = select_representatives clusters
    ++ match c with [] => [] | m :: others => [max_by_score m others] end.
Proof.
  unfold select_representatives. rewrite foldl_app. simpl.
  destruct c; [by rewrite app_nil_r|done].
Qed.

(** [select_representatives] returns, in the order of the dictionary, the
    first mutant of highest priority score of every cluster that is not
    empty. *)
Lemma select_representatives_props (clusters : list (string * list Mutant)) :
  Forall2 first_best (select_representatives clusters)
    (filter (fun c => c ≠ []) clusters.*2).
Proof.
  induction clusters as [|[k c] clusters IH] using rev_ind; [constructor|].
  rewrite select_representatives_snoc, fmap_app, filter_app.
  apply Forall2_app; [done|]. simpl.
  destruct c as [|m others].
  - rewrite filter_cons, decide_False by (by intros H). constructor.
  - rewrite filter_cons, decide_True by done. repeat constructor.
    destruct (max_by_score_spec m others) as (l1 & l2 & ? & ? & ?).
    by exists l1, l2.
Qed.

(** X25.  [select_representatives] returns, in the order of the dictionary,
    the first mutant of highest priority score of every cluster that is not
    empty; after [cluster], that is one mutant of the input for every
    cluster. *)
Theorem select_representatives_spec (clusters : list (string * list Mutant))
    (self : MutantClusterer) (mutants : list Mutant) :
  Forall2 first_best (select_representatives clusters)
    (filter (fun c => c ≠ []) clusters.*2)
  ∧ Forall2 first_best (select_representatives (cluster self mutants))
      (cluster self mutants).*2
  ∧ ∀ r, r ∈ select_representatives (cluster self mutants) → r ∈ mutants.
Proof.
  split; [apply select_representatives_props|].
  destruct (cluster_partition_props self mutants) as [Hperm Hall].
  pose proof (select_representatives_props (cluster self mutants)) as Hsel.
  assert (filter (fun c : list Mutant => c ≠ []) (cluster self mutants).*2
          = (cluster self mutants).*2) as Hfilter.
  { clear Hperm Hsel. induction Hall as [|c cs [Hc _] _ IH]; [done|].
    rewrite filter_cons, decide_True by done. by rewrite IH. }
  rewrite Hfilter in Hsel. split; [done|].
  intros r Hr. rewrite <- Hperm.
  apply list_elem_of_lookup in Hr as [i Hi].
  destruct (Forall2_lookup_l _ _ _ _ _ Hsel Hi) as (c & Hc & l1 & l2 & -> & _).
  apply (elem_of_concat_2 _ (l1 ++ r :: l2));
    [|by eapply list_elem_of_lookup_2].
  apply elem_of_app. right. by left.
Qed.

(** ** Recording results ([HistoryTracker.update]) *)

Lemma operator_value_inj (a b : MutationOperator) :
  operator_value a = operator_value b → a = b.
Proof. destruct a, b; simpl; intros H; try done; discriminate. Qed.

Lemma history_entry_insert (data : gmap string HistoricalData)
    (op op' : MutationOperator) (h : HistoricalData) :
  history_entry (<[operator_value op' := h]> data) op
  = if decide (op' = op) then h else history_entry data op.
Proof.
  unfold history_entry. destruct (decide (op' = op)) as [->|Hne].
  - by rewrite lookup_insert_eq.
  - rewrite lookup_insert_ne; [done|]. by intros ?%operator_value_inj.
Qed.

Lemma history_entry_insert_same (data : gmap string HistoricalData)
    (op : MutationOperator) (h : HistoricalData) :
  history_entry (<[operator_value op := h]> data) op = h.
Proof. by rewrite history_entry_insert, decide_True. Qed.

Lemma with_operator_cons (op : MutationOperator) (m : Mutant)
    (rest : list Mutant) :
  with_operator op (m :: rest)
  = if decide (operator m = op) then m :: with_operator op rest
    else with_operator op rest.
Proof. unfold with_operator. by rewrite filter_cons. Qed.

Lemma with_status_cons (s : MutantStatus) (m : Mutant) (rest : list Mutant) :
  with_status s (m :: rest)
  = if decide (status m = s) then m :: with_status s rest
    else with_status s rest.
Proof. unfold with_status. by rewrite filter_cons. Qed.

Lemma running_average (avg t : Q) (killed : Z) :
  killed + 1 ≠ 0 →
  ((avg * inject_Z (killed + 1 - 1) + t) / inject_Z (killed + 1)
   * inject_Z (killed + 1)
   == avg * inject_Z killed + t)%Q.
Proof.
  intros Hk. replace (killed + 1 - 1) with killed by lia.
  rewrite Qmult_comm, Qmult_div_r; [reflexivity|].
  change 0%Q with (inject_Z 0). rewrite inject_Z_injective. done.
Qed.

(** One mutant of operator [op]. *)
Lemma update_one_same (data data' : gmap string HistoricalData) (m : Mutant) :
  update_one data m = Some data' →
  let h := history_entry data (operator m) in
  let h' := history_entry data' (operator m) in
  let one (s : MutantStatus) :=
    if decide (status m = s) then 1 else 0 in
  hd_operator h' = hd_operator h
  ∧ times_generated h' = times_generated h + 1
  ∧ times_killed h' = times_killed h + one KILLED
  ∧ times_survived h' = times_survived h + one SURVIVED
  ∧ (average_detection_time h' * inject_Z (times_killed h')
     == average_detection_time h * inject_Z (times_killed h)
        + (if decide (status m = KILLED) then execution_time m else 0))%Q.
Proof.
  unfold update_one. fold (history_entry data (operator m)).
  set (h := history_entry data (operator m)).
  destruct (status m) eqn:Hs; cbn zeta;
    try (intros [= <-]; rewrite history_entry_insert_same;
         cbn; repeat case_decide; try discriminate;
         repeat split; first [done | lia | lra]).
  destruct (decide (times_killed h + 1 = 0)) as [|Hk]; [done|].
  intros [= <-]. rewrite history_entry_insert_same.
  cbn. repeat case_decide; try done.
  repeat split; try first [done | lia]. by apply running_average.
Qed.

(** One mutant of another operator. *)
Lemma update_one_other (data data' : gmap string HistoricalData) (m : Mutant)
    (op : MutationOperator) :
  update_one data m = Some data' → operator m ≠ op →
  history_entry data' op = history_entry data op.
Proof.
  unfold update_one. intros H Hne.
  destruct (status m); try destruct (decide (_ = 0)); try done;
    injection H as <-; by rewrite history_entry_insert, decide_False.
Qed.

Lemma update_one_lookup (data data' : gmap string HistoricalData) (m : Mutant)
    (k : string) :
  update_one data m = Some data' → k ≠ operator_value (operator m) →
  data' !! k = data !! k.
Proof.
  unfold update_one. intros H Hne.
  destruct (status m); try destruct (decide (_ = 0)); try done;
    injection H as <-; by rewrite lookup_insert_ne.
Qed.

Lemma update_one_consistent (data : gmap string HistoricalData) (m : Mutant) :
  map_Forall (fun _ h => consistent_history h) data →
  ∃ data', update_one data m = Some data'
    ∧ map_Forall (fun _ h => consistent_history h) data'.
Proof.
  intros Hall.
  assert (consistent_history (history_entry data (operator m)))
    as (Hk & Hs & Hg).
  { unfold history_entry.
    destruct (data !! operator_value (operator m)) as [h|] eqn:Hl; simpl.
    - by apply (Hall _ _ Hl).
    - repeat split; simpl; lia. }
  unfold update_one. fold (history_entry data (operator m)).
  destruct (status m); cbn zeta;
    try (eexists; split; [done|]; apply map_Forall_insert_2; [|done];
         repeat split; simpl; lia).
  rewrite decide_False by lia.
  eexists; split; [done|]; apply map_Forall_insert_2; [|done];
    repeat split; simpl; lia.
Qed.

(** X26.  [update] returns on a history whose counters fit together, and
    leaves such a history: no counter is negative, killed and survived
    mutants are among the generated ones, so every kill rate lies in [0, 1];
    entries of operators that do not occur in the list are not touched. *)
Theorem update_consistent (data : gmap string HistoricalData)
    (mutants : list Mutant) :
  map_Forall (fun _ h => consistent_history h) data →
  ∃ data',
    update data mutants = Some data'
    ∧ map_Forall (fun _ h => consistent_history h) data'
    ∧ (∀ k, k ∉ (fun m => operator_value (operator m)) <$> mutants →
            data' !! k = data !! k)
    ∧ ∀ op, unit_interval (kill_rate (get_operator_history data' op)).
Proof.
  intros Hall.
  assert (∃ data',
    update data mutants = Some data'
    ∧ map_Forall (fun _ h => consistent_history h) data'
    ∧ (∀ k, k ∉ (fun m => operator_value (operator m)) <$> mutants →
            data' !! k = data !! k)) as (data' & Hrun & Hall' & Hkeep).
  { revert data Hall. induction mutants as [|m rest IH]; intros data Hall.
    - exists data. split; [done|]. split; [done|]. done.
    - destruct (update_one_consistent data m Hall) as (data1 & H1 & Hall1).
      destruct (IH data1 Hall1) as (data' & Hrun & Hall' & Hkeep).
      exists data'. simpl. rewrite H1. simpl. split; [done|]. split; [done|].
      intros k Hk.
      apply not_elem_of_cons in Hk as [Hne Hk].
      rewrite (Hkeep k Hk). by eapply update_one_lookup. }
  exists data'. split; [done|]. split; [done|]. split; [done|].
  intros op. apply kill_rate_bounds. unfold get_operator_history.
  destruct (data' !! operator_value op) as [h|] eqn:Hl.
  - destruct (Hall' _ _ Hl) as (? & ? & _). by split.
  - split; simpl; lia.
Qed.

(** X27.  Whenever [update] returns, the entry of every operator has grown
    by what the list holds for it: [times_generated] by the number of its
    mutants, [times_killed] and [times_survived] by the number of those that
    were killed and that survived, and the average detection time times the
    number of kills by the time the killed ones took. *)
Theorem update_counts (data data' : gmap string HistoricalData)
    (mutants : list Mutant) (op : MutationOperator) :
  update data mutants = Some data' →
  let h := history_entry data op in
  let h' := history_entry data' op in
  let ms := with_operator op mutants in
  times_generated h' = times_generated h + Z.of_nat (length ms)
  ∧ times_killed h'
    = times_killed h + Z.of_nat (length (with_status KILLED ms))
  ∧ times_survived h'
    = times_survived h + Z.of_nat (length (with_status SURVIVED ms))
  ∧ (average_detection_time h' * inject_Z (times_killed h')
     == average_detection_time h * inject_Z (times_killed h)
        + detection_time ms)%Q.
Proof.
  revert data. induction mutants as [|m rest IH]; intros data Hrun.
  { injection Hrun as <-. cbn. repeat split; try lia.
    unfold detection_time. simpl. lra. }
  simpl in Hrun.
  destruct (update_one data m) as [data1|] eqn:H1; [|done]. simpl in Hrun.
  destruct (IH data1 Hrun) as (Hg & Hk & Hs & Ha). cbn zeta.
  rewrite with_operator_cons.
  destruct (decide (operator m = op)) as [<-|Hne].
  - destruct (update_one_same data data1 m H1) as (_ & Hg1 & Hk1 & Hs1 & Ha1).
    split; [|split; [|split]].
    + rewrite Hg, Hg1. simpl length. lia.
    + rewrite Hk, Hk1, with_status_cons.
      destruct (decide (status m = KILLED)); simpl length; lia.
    + rewrite Hs, Hs1, with_status_cons.
      destruct (decide (status m = SURVIVED)); simpl length; lia.
    + rewrite Ha, Ha1. unfold detection_time. rewrite with_status_cons.
      destruct (decide (status m = KILLED)); simpl foldr; lra.
  - by rewrite <- (update_one_other data data1 m op H1 Hne).
Qed.

(** ** Complexity metrics *)

(** What one node adds does not depend on the score so far. *)
Lemma add_node_score_shift (score : Z) (node : AstNode) :
  add_node_score score node = score + add_node_score 0 node.
Proof.
  unfold add_node_score. cbn zeta.
  repeat (destruct (bool_decide _)); lia.
Qed.

Lemma foldl_add_node_score (score : Z) (nodes : list AstNode) :
  foldl add_node_score score nodes
  = score + calculate_cognitive_complexity nodes.
Proof.
  unfold calculate_cognitive_complexity.
  induction nodes as [|node nodes IH] using rev_ind; [simpl; lia|].
  rewrite !foldl_app. simpl.
  rewrite (add_node_score_shift (foldl _ score nodes)),
    (add_node_score_shift (foldl _ 0 nodes)), IH. lia.
Qed.

Lemma add_node_score_bounds (node : AstNode) :
  0 ≤ default 0 (node_nesting node) →
  0 ≤ add_node_score 0 node ≤ 1 + default 0 (node_nesting node).
Proof.
  intros Hn. unfold add_node_score. cbn zeta.
  generalize (default EmptyString (node_type node)). intros type.
  case_bool_decide as H1; case_bool_decide as H2; case_bool_decide as H3;
    try lia; exfalso; set_unfold; destruct_or!; simplify_eq.
Qed.

(** X28.  The cognitive complexity of a list of nodes is the sum of the
    scores of its parts; a node adds at most one more than its nesting, so
    with nestings that are not negative the score lies between 0 and the
    number of nodes plus their nestings. *)
Theorem cognitive_complexity_additive (xs ys : list AstNode) :
  calculate_cognitive_complexity (xs ++ ys)
  = calculate_cognitive_complexity xs + calculate_cognitive_complexity ys
  ∧ (Forall (fun node => 0 ≤ default 0 (node_nesting node)) xs →
     0 ≤ calculate_cognitive_complexity xs
       ≤ foldr (fun node t => 1 + default 0 (node_nesting node) + t) 0 xs).
Proof.
  split.
  - unfold calculate_cognitive_complexity at 1. rewrite foldl_app.
    apply foldl_add_node_score.
  - induction 1 as [|node nodes Hn _ IH]; [done|].
    unfold calculate_cognitive_complexity. simpl.
    rewrite foldl_add_node_score.
    pose proof (add_node_score_bounds node Hn). lia.
Qed.

Section MaintainabilityProperties.
Variable math_log : Q → Q.

(** X29.  The maintainability index is 50 when there is no code or no
    volume; otherwise the logarithms need positive arguments, and the index
    is clamped into [0, 100]. *)
Theorem maintainability_index_range (loc cyclomatic : Z) (volume : Q) :
  (loc = 0 ∨ (volume == 0)%Q →
   calculate_maintainability_index math_log loc cyclomatic volume
   = Some 50%Q)
  ∧ (0 < loc → (0 < volume)%Q →
     ∃ mi, calculate_maintainability_index math_log loc cyclomatic volume
           = Some mi
           ∧ (0 <= mi <= 100)%Q)
  ∧ ((loc < 0 ∧ ¬ (volume == 0)%Q) ∨ ((volume < 0)%Q ∧ loc ≠ 0) →
     calculate_maintainability_index math_log loc cyclomatic volume = None).
Proof.
  unfold calculate_maintainability_index, checked_log.
  split; [|split].
  - intros [->|Hv]; [done|].
    apply Qeq_bool_iff in Hv. rewrite Hv. by rewrite orb_true_r.
  - intros Hloc Hvol.
    rewrite bool_decide_eq_false_2 by lia.
    destruct (Qeq_bool volume 0) eqn:Hv0.
    { apply Qeq_bool_iff in Hv0. lra. }
    simpl.
    destruct (Qle_bool volume 0) eqn:Hv; [apply Qle_bool_iff in Hv; lra|].
    destruct (Qle_bool (inject_Z loc) 0) eqn:Hl.
    { apply Qle_bool_iff in Hl. change 0%Q with (inject_Z 0) in Hl.
      rewrite <- Zle_Qle in Hl. lia. }
    simpl. eexists. split; [done|]. split.
    + apply Q.le_max_l.
    + apply Q.max_lub; [lra|]. apply Q.le_min_l.
  - intros [[Hloc Hv]|[Hv Hloc]].
    + rewrite bool_decide_eq_false_2 by lia.
      destruct (Qeq_bool volume 0) eqn:Hv0;
        [by apply Qeq_bool_iff in Hv0|]. simpl.
      destruct (Qle_bool volume 0); [done|]. simpl.
      assert (Qle_bool (inject_Z loc) 0 = true) as ->; [|done].
      apply Qle_bool_iff. change 0%Q with (inject_Z 0).
      rewrite <- Zle_Qle. lia.
    + rewrite bool_decide_eq_false_2 by done.
      destruct (Qeq_bool volume 0) eqn:Hv0;
        [apply Qeq_bool_iff in Hv0; lra|]. simpl.
      assert (Qle_bool volume 0 = true) as ->; [|done].
      apply Qle_bool_iff. lra.
Qed.

End MaintainabilityProperties.

(** ** Time saved *)

Lemma fdiv_is_Some (a b : Q) : ¬ (b == 0)%Q → fdiv a b = Some (a / b)%Q.
Proof.
  intros Hb. unfold fdiv. destruct (Qeq_bool b 0) eqn:H; [|done].
  by apply Qeq_bool_iff in H.
Qed.

(** X30.  [time_saved_percent] never divides by zero. It is 0 when no mutant
    was executed, when there is no mutant or when the run took no time;
    otherwise it is (1 - executed / total) × 100, whatever the time. *)
Theorem time_saved_percent_spec (r : MutationResults) :
  ∃ p, time_saved_percent r = Some p
    ∧ (mutants_executed r = 0 ∨ total_mutants r = 0
       ∨ (run_execution_time r == 0)%Q → p = 0%Q)
    ∧ (mutants_executed r ≠ 0 → total_mutants r ≠ 0 →
       ¬ (run_execution_time r == 0)%Q →
       (p == (1 - inject_Z (mutants_executed r)
                  / inject_Z (total_mutants r)) * 100)%Q).
Proof.
  unfold time_saved_percent, estimated_full_execution_time.
  destruct (decide (mutants_executed r = 0)) as [He|He].
  { rewrite bool_decide_eq_true_2 by done. simpl.
    exists 0%Q. split; [done|]. split; [done|]. by intros ?. }
  rewrite bool_decide_eq_false_2 by done.
  assert (¬ (inject_Z (mutants_executed r) == 0)%Q) as He'.
  { change 0%Q with (inject_Z 0). by rewrite inject_Z_injective. }
  rewrite fdiv_is_Some by done. simpl.
  set (t := run_execution_time r). set (e := inject_Z (mutants_executed r)) in *.
  destruct (Qeq_bool (t / e * inject_Z (total_mutants r)) 0) eqn:Hz.
  - exists 0%Q. split; [done|]. split; [done|].
    intros _ HT Ht. exfalso. apply Qeq_bool_iff in Hz.
    apply Qmult_integral in Hz as [Hz|Hz].
    + apply Ht. rewrite <- (Qmult_div_r t e) by done.
      rewrite Hz. field; try done.
    + change 0%Q with (inject_Z 0) in Hz.
      by rewrite inject_Z_injective in Hz.
  - assert (¬ (t / e * inject_Z (total_mutants r) == 0)%Q) as Hne.
    { intros H. apply Qeq_bool_iff in H. congruence. }
    rewrite fdiv_is_Some by done. simpl. eexists. split; [done|].
    assert (¬ (inject_Z (total_mutants r) == 0)%Q) as HT'.
    { intros H. apply Hne. rewrite H. ring. }
    assert (¬ (t == 0)%Q) as Ht'.
    { intros H. apply Hne. rewrite H. field; try done. }
    split.
    + intros [?|[HT|Ht]]; [done| |done].
      destruct HT'. by rewrite HT.
    + intros _ _ _. field; try done.
Qed.

Lemma operator_subsumption_sound_witness :
  ∃ m1, m1 ∈ (_apply_operator_subsumption fresh_analyzer
                [boundary_at_10; negate_at_12]).1
    ∧ file_path (location m1) = file_path (location negate_at_12)
    ∧ operator negate_at_12 ∈ OPERATOR_SUBSUMPTIONS (operator m1)
    ∧ 0 ≤ line_start (location negate_at_12) - line_start (location m1) ≤ 5.
Proof.
  apply (operator_subsumption_sound fresh_analyzer
           [boundary_at_10; negate_at_12] negate_at_12).
  - apply (bool_decide_unpack _). vm_compute. exact I.
  - right. left.
  - intros Hin. apply list_elem_of_filter in Hin as [Hin _]. apply Hin.
    apply (bool_decide_unpack _). vm_compute. exact I.
Defined.

Lemma operator_subsumption_complete_witness :
  negate_at_12 ∉ (_apply_operator_subsumption fresh_analyzer
                    [boundary_at_10; negate_at_12]).1.
Proof.
  apply (operator_subsumption_complete fresh_analyzer
           [boundary_at_10; negate_at_12] boundary_at_10 negate_at_12).
  - left.
  - right. left.
  - reflexivity.
  - simpl. left.
  - simpl. lia.
Defined.

Lemma operator_subsumption_counts_witness :
  let '(kept, self') :=
    _apply_operator_subsumption fresh_analyzer [boundary_at_10; negate_at_12] in
  sublist kept [boundary_at_10; negate_at_12]
  ∧ operator_subsumed (stats self')
    = operator_subsumed (stats fresh_analyzer)
      + (Z.of_nat (length [boundary_at_10; negate_at_12])
         - Z.of_nat (length kept))
  ∧ same_counters_but 3 (stats fresh_analyzer) (stats self')
  ∧ coverage_cache self' = coverage_cache fresh_analyzer
  ∧ similarity_threshold self' = similarity_threshold fresh_analyzer.
Proof.
  apply (operator_subsumption_counts fresh_analyzer
           [boundary_at_10; negate_at_12]).
  apply (bool_decide_unpack _). vm_compute. exact I.
Defined.

Lemma coverage_subsumption_counts_witness :
  let '(kept, self') :=
    _apply_coverage_subsumption constant_digest fresh_analyzer
      [sum_mutant; product_mutant] in
  sublist kept [sum_mutant; product_mutant]
  ∧ head kept = head [sum_mutant; product_mutant]
  ∧ coverage_subsumed (stats self')
    = coverage_subsumed (stats fresh_analyzer)
      + (Z.of_nat (length [sum_mutant; product_mutant])
         - Z.of_nat (length kept))
  ∧ same_counters_but 4 (stats fresh_analyzer) (stats self')
  ∧ similarity_threshold self' = similarity_threshold fresh_analyzer.
Proof.
  apply (coverage_subsumption_counts constant_digest fresh_analyzer
           [sum_mutant; product_mutant]).
  apply (bool_decide_unpack _). vm_compute. exact I.
Defined.

Lemma coverage_subsumption_complete_witness :
  product_mutant ∉ (_apply_coverage_subsumption constant_digest fresh_analyzer
                      ([] ++ sum_mutant :: [] ++ product_mutant :: [])).1.
Proof.
  apply (coverage_subsumption_complete constant_digest fresh_analyzer
           [] [] [] sum_mutant product_mutant).
  - rewrite apply_coverage_subsumption_survivors.
    apply list_elem_of_filter. split; [|left].
    apply (bool_decide_unpack _). vm_compute. exact I.
  - reflexivity.
  - apply (bool_decide_unpack _). vm_compute. exact I.
  - apply (bool_decide_unpack _). vm_compute. exact I.
  - apply Qle_bool_iff. vm_compute. reflexivity.
Defined.

Lemma filter_redundant_survivors_witness :
  ∃ final self',
    filter_redundant constant_digest fresh_analyzer duplicates_batch
    = Some (final, self')
    ∧ final ⊆+ duplicates_batch ∧ final ≠ []
    ∧ NoDup (location_key <$> final).
Proof.
  destruct (filter_redundant constant_digest fresh_analyzer duplicates_batch)
    as [[final self']|] eqn:H; [|vm_compute in H; discriminate].
  exists final, self'. split; [reflexivity|].
  apply (filter_redundant_survivors constant_digest fresh_analyzer self'
           duplicates_batch final); [|exact H].
  apply (bool_decide_unpack _). vm_compute. exact I.
Defined.

Lemma filter_redundant_bookkeeping_witness :
  ∃ final self',
    filter_redundant constant_digest fresh_analyzer duplicates_batch
    = Some (final, self')
    ∧ total_input (stats self') = Z.of_nat (length duplicates_batch)
    ∧ total_output (stats self') = Z.of_nat (length final)
    ∧ exact_duplicates (stats fresh_analyzer) ≤ exact_duplicates (stats self')
    ∧ location_clustered (stats fresh_analyzer)
      ≤ location_clustered (stats self')
    ∧ operator_subsumed (stats fresh_analyzer) ≤ operator_subsumed (stats self')
    ∧ coverage_subsumed (stats fresh_analyzer) ≤ coverage_subsumed (stats self')
    ∧ (exact_duplicates (stats self') - exact_duplicates (stats fresh_analyzer))
      + (location_clustered (stats self')
         - location_clustered (stats fresh_analyzer))
      + (operator_subsumed (stats self')
         - operator_subsumed (stats fresh_analyzer))
      + (coverage_subsumed (stats self')
         - coverage_subsumed (stats fresh_analyzer))
      = total_input (stats self') - total_output (stats self')
    ∧ similarity_threshold self' = similarity_threshold fresh_analyzer.
Proof.
  destruct (filter_redundant constant_digest fresh_analyzer duplicates_batch)
    as [[final self']|] eqn:H; [|vm_compute in H; discriminate].
  exists final, self'. split; [reflexivity|].
  apply (filter_redundant_bookkeeping constant_digest fresh_analyzer self'
           duplicates_batch final); [|exact H].
  apply (bool_decide_unpack _). vm_compute. exact I.
Defined.

Lemma statistics_after_filter_redundant_witness :
  ∃ final self' r,
    filter_redundant constant_digest fresh_analyzer duplicates_batch
    = Some (final, self')
    ∧ get_statistics self' = Some r
    ∧ counters r = stats self'
    ∧ (reduction_percent r
       == (1 - inject_Z (Z.of_nat (length final))
               / inject_Z (Z.of_nat (length duplicates_batch))) * 100)%Q
    ∧ (0 <= reduction_percent r)%Q ∧ (reduction_percent r < 100)%Q.
Proof.
  destruct (filter_redundant constant_digest fresh_analyzer duplicates_batch)
    as [[final self']|] eqn:H; [|vm_compute in H; discriminate].
  destruct (statistics_after_filter_redundant constant_digest fresh_analyzer
              self' duplicates_batch final) as (r & Hr);
    [apply (bool_decide_unpack _); vm_compute; exact I|exact H|].
  exists final, self', r. split; [reflexivity|exact Hr].
Defined.

Lemma score_all_priority_bounds_witness :
  ∃ scored cache' batch,
    score_all exp_stand_in no_analysis default_history ∅ ∅
      [arithmetic_mutant; boundary_mutant] = Some (scored, cache')
    ∧ scored ≡ₚ batch
    ∧ Forall2 (fun m a =>
                 annotated default_history cache' m a
                 ∧ (0 <= priority_score a <= 10)%Q)
        [arithmetic_mutant; boundary_mutant] batch.
Proof.
  destruct (score_all exp_stand_in no_analysis default_history ∅ ∅
              [arithmetic_mutant; boundary_mutant])
    as [[scored cache']|] eqn:H; [|vm_compute in H; discriminate].
  destruct (score_all_priority_bounds _ _ _ _ _ _ _ _ H) as (batch & Hb).
  exists scored, cache', batch. split; [reflexivity|exact Hb].
Defined.

(** On this batch the two operators differ in their history, so the scores
    differ: the boundary mutant comes first. *)
Example score_all_default_history_run :
  ∃ scored cache',
    score_all exp_stand_in no_analysis default_history ∅ ∅
      [arithmetic_mutant; boundary_mutant] = Some (scored, cache')
    ∧ id <$> scored = ["m2"; "m1"]
    ∧ Forall2 Qeq (priority_score <$> scored) [6.5%Q; 3.5%Q].
Proof.
  eexists _, _. split; [reflexivity|]. split; [reflexivity|].
  repeat constructor.
Qed.

Lemma float_sized_default_metrics : float_sized_metrics default_CodeMetrics.
Proof. repeat split; apply Z.leb_le; vm_compute; reflexivity. Qed.

Lemma float_sized_default_history :
  map_Forall (fun _ h => float_sized_history h) default_history.
Proof.
  intros k h Hk. unfold default_history in Hk.
  apply elem_of_list_to_map_2, list_elem_of_fmap in Hk
    as ([[[op gen] kill] surv] & [= -> ->] & Hin).
  repeat (apply elem_of_cons in Hin as [[= -> -> -> ->]|Hin];
          [split; apply Z.leb_le; vm_compute; reflexivity|]).
  by apply elem_of_nil in Hin.
Qed.

Lemma score_all_raises_iff_empty_witness :
  (score_all exp_stand_in no_analysis default_history ∅ ∅
     [arithmetic_mutant; boundary_mutant] = None
   ↔ [arithmetic_mutant; boundary_mutant] = [])
  ∧ (score_all exp_stand_in no_analysis default_history ∅ ∅ [] = None
     ↔ @nil Mutant = []).
Proof.
  split;
    apply (score_all_raises_iff_empty exp_stand_in no_analysis
             default_history ∅ ∅);
    try apply map_Forall_empty;
    try exact float_sized_default_history;
    intros p; exact float_sized_default_metrics.
Defined.

Lemma score_all_descending_witness :
  ∃ scored cache',
    score_all exp_stand_in no_analysis default_history ∅ ∅
      [arithmetic_mutant; boundary_mutant] = Some (scored, cache')
    ∧ StronglySorted (fun x y => (priority_score y <= priority_score x)%Q)
        scored.
Proof.
  destruct (score_all exp_stand_in no_analysis default_history ∅ ∅
              [arithmetic_mutant; boundary_mutant])
    as [[scored cache']|] eqn:H; [|vm_compute in H; discriminate].
  exists scored, cache'. split; [reflexivity|].
  exact (score_all_descending _ _ _ _ _ _ _ _ H).
Defined.

Lemma score_all_annotates_witness :
  ∃ scored cache' batch,
    score_all exp_stand_in no_analysis default_history ∅ ∅
      [arithmetic_mutant; boundary_mutant] = Some (scored, cache')
    ∧ Forall2 (annotated default_history cache')
        [arithmetic_mutant; boundary_mutant] batch
    ∧ scored ≡ₚ batch
    ∧ ∀ s, filter (fun m => Qeq_bool (priority_score m) s = true) scored
           = filter (fun m => Qeq_bool (priority_score m) s = true) batch.
Proof.
  destruct (score_all exp_stand_in no_analysis default_history ∅ ∅
              [arithmetic_mutant; boundary_mutant])
    as [[scored cache']|] eqn:H; [|vm_compute in H; discriminate].
  destruct (score_all_annotates _ _ _ _ _ _ _ _ H) as (batch & Hb).
  exists scored, cache', batch. split; [reflexivity|exact Hb].
Defined.

Lemma exp_stand_in_like : exp_like exp_stand_in.
Proof.
  intros x Hx. unfold exp_stand_in.
  rewrite (proj2 (Qle_bool_iff x 0) Hx).
  assert (0 < 1 - x)%Q as Hpos by lra. split.
  - apply Qle_shift_div_l; [done|]. lra.
  - apply Qle_shift_div_r; [done|]. lra.
Qed.

Lemma score_single_standalone_bounds_witness :
  ∃ s cache',
    score_single exp_stand_in no_analysis ∅ ∅ ∅ boundary_mutant []
    = Some (s, cache')
    ∧ (0 <= s <= 10)%Q.
Proof.
  apply (score_single_standalone_bounds exp_stand_in no_analysis ∅ ∅).
  - exact exp_stand_in_like.
  - intros p. vm_compute. repeat split; discriminate.
  - apply map_Forall_empty.
  - apply map_Forall_empty.
  - apply map_Forall_empty.
Defined.

Lemma default_history_consistent :
  map_Forall (fun _ h => consistent_history h) default_history.
Proof.
  intros k h Hk. unfold default_history in Hk.
  apply elem_of_list_to_map_2, list_elem_of_fmap in Hk
    as ([[[op gen] kill] surv] & [= -> ->] & Hin).
  repeat (apply elem_of_cons in Hin as [[= -> -> -> ->]|Hin];
          [repeat split; simpl; lia|]).
  by apply elem_of_nil in Hin.
Qed.

Lemma update_consistent_witness :
  ∃ data',
    update default_history [killed_mutant] = Some data'
    ∧ map_Forall (fun _ h => consistent_history h) data'
    ∧ (∀ k, k ∉ (fun m => operator_value (operator m)) <$> [killed_mutant] →
            data' !! k = default_history !! k)
    ∧ ∀ op, unit_interval (kill_rate (get_operator_history data' op)).
Proof.
  apply (update_consistent default_history [killed_mutant]).
  exact default_history_consistent.
Defined.

Lemma update_counts_witness :
  ∃ data',
    update default_history [killed_mutant] = Some data'
    ∧ times_generated (history_entry data' BOUNDARY_CONDITION)
      = times_generated (history_entry default_history BOUNDARY_CONDITION)
        + Z.of_nat (length (with_operator BOUNDARY_CONDITION [killed_mutant]))
    ∧ times_killed (history_entry data' BOUNDARY_CONDITION)
      = times_killed (history_entry default_history BOUNDARY_CONDITION)
        + Z.of_nat (length (with_status KILLED
                              (with_operator BOUNDARY_CONDITION
                                 [killed_mutant])))
    ∧ times_survived (history_entry data' BOUNDARY_CONDITION)
      = times_survived (history_entry default_history BOUNDARY_CONDITION)
        + Z.of_nat (length (with_status SURVIVED
                              (with_operator BOUNDARY_CONDITION
                                 [killed_mutant])))
    ∧ (average_detection_time (history_entry data' BOUNDARY_CONDITION)
       * inject_Z (times_killed (history_entry data' BOUNDARY_CONDITION))
       == average_detection_time
            (history_entry default_history BOUNDARY_CONDITION)
          * inject_Z (times_killed
                        (history_entry default_history BOUNDARY_CONDITION))
          + detection_time (with_operator BOUNDARY_CONDITION [killed_mutant]))%Q.
Proof.
  destruct (update default_history [killed_mutant]) as [data'|] eqn:H;
    [|vm_compute in H; discriminate].
  exists data'. split; [reflexivity|].
  exact (update_counts default_history data' [killed_mutant]
           BOUNDARY_CONDITION H).
Defined.
